(** * Hexapipes: the constraint solver and the puzzle generator

    A shallow embedding of [src/lib/puzzle/solver.js] (the [Cell] and
    [Solver] constructors), of [src/lib/puzzle/grids/octagrid.js] (the one
    grid whose source is available) and of [src/lib/puzzle/generator.js]
    (the growing-tree pregeneration and the loop of [generate]).

    Conventions.
    - A JavaScript Number that holds an integer is a [Z]; a value that can be
      [undefined] is an [option Z] with [None] for [undefined].
    - [a & b] converts both operands with ToInt32; the wrap-around is written
      out in [toInt32] and [band].
    - A [Set<Number>] is the list of its members in insertion order, a
      [Map<Number, V>] an association list in insertion order: the code
      depends on the iteration order ([keys().next().value]).
    - Component sets are shared objects; they live in a store ([heap]) and the
      [components] map holds references into it. *)

From Stdlib Require Import ZArith List Bool Lia.
From Stdlib Require Import QArith Qround Relations.
From Stdlib Require String.
Import ListNotations.
Open Scope Z_scope.

(* ================================================================== *)
(** ** JavaScript helpers *)

Definition toInt32 (x : Z) : Z := (x + 2 ^ 31) mod 2 ^ 32 - 2 ^ 31.

(** [a & b] *)
Definition band (a b : Z) : Z := Z.land (toInt32 a) (toInt32 b).

(** [Set.prototype.has], [add], [delete] on insertion-ordered sets *)
Definition set_has (x : Z) (s : list Z) : bool := existsb (Z.eqb x) s.

Definition set_add (x : Z) (s : list Z) : list Z :=
  if set_has x s then s else s ++ [x].

Definition set_delete (x : Z) (s : list Z) : list Z :=
  filter (fun y => negb (Z.eqb x y)) s.

(** [keys().next().value]: the oldest member, [undefined] on an empty set *)
Definition set_first (s : list Z) : option Z := hd_error s.

Definition set_size (s : list Z) : Z := Z.of_nat (length s).

(* ================================================================== *)
(** ** Cell (solver.js, lines 46-168) *)

Record Cell := mkCell {
  index : Z;
  initial : option Z;
  possible : list Z;
  walls : Z;
  connections : Z
}.

(** The constructor's loop
    [while (!possible.has(rotated)) { possible.add(rotated); rotated = grid.rotate(rotated, 1, index) }] *)
Fixpoint orbit (fuel : nat) (rot : Z -> Z) (rotated : Z) (acc : list Z)
  : option (list Z) :=
  match fuel with
  | O => None
  | S fuel' =>
      if set_has rotated acc then Some acc
      else orbit fuel' rot (rot rotated) (acc ++ [rotated])
  end.

(** [for (let i = 1; i < grid.fullyConnected(index); i++) possible.add(i)] *)
Definition below_full (full : Z) : list Z :=
  map Z.of_nat (seq 1 (Z.to_nat full - 1)).

(** [new Cell(grid, index, initial)]; [rotate] and [fullyConnected] are the
    two methods of [grid] the constructor and [applyConstraints] use.
    [None]: the orbit loop did not end within [fuel] rounds. *)
Definition new_Cell (fuel : nat) (rotate : Z -> Z -> Z -> Z)
  (fullyConnected : Z -> Z) (idx : Z) (init : option Z) : option Cell :=
  match init with
  | Some i =>
      if 0 <=? i then
        match orbit fuel (fun t => rotate t 1 idx) i [] with
        | Some p => Some (mkCell idx init p 0 0)
        | None => None
        end
      else Some (mkCell idx init (below_full (fullyConnected idx)) 0 0)
  | None => Some (mkCell idx init (below_full (fullyConnected idx)) 0 0)
  end.

Definition addWall (direction : Z) (c : Cell) : Cell :=
  mkCell (index c) (initial c) (possible c)
    (walls c + (direction - band (connections c + walls c) direction))
    (connections c).

Definition addConnection (direction : Z) (c : Cell) : Cell :=
  mkCell (index c) (initial c) (possible c) (walls c)
    (connections c + (direction - band (connections c + walls c) direction)).

Definition set_possible (p : list Z) (c : Cell) : Cell :=
  mkCell (index c) (initial c) p (walls c) (connections c).

(** [for (let orientation of self.possible) if (cond) self.possible.delete(orientation)] *)
Definition delete_where (cond : Z -> bool) (c : Cell) : Cell :=
  set_possible (filter (fun o => negb (cond o)) (possible c)) c.

Definition mustHaveAllWalls (directions : Z) (c : Cell) : Cell :=
  delete_where (fun o => 0 <? band o directions) c.

Definition mustHaveSomeWalls (directions : Z) (c : Cell) : Cell :=
  delete_where (fun o => band o directions =? o) c.

Definition mustHaveAllConnections (directions : Z) (c : Cell) : Cell :=
  delete_where (fun o => negb (band o directions =? directions)) c.

(** The test of lines 127-132 *)
Definition respects (c : Cell) (orientation : Z) : bool :=
  (band orientation (walls c) =? 0)
  && (band orientation (connections c) =? connections c).

(** The [forEach] of lines 143-146, from [newWalls = newConnections = full] *)
Definition narrow (full : Z) (newPossible : list Z) : Z * Z :=
  fold_left
    (fun acc orientation =>
       (band (fst acc) (full - orientation), band (snd acc) orientation))
    newPossible (full, full).

(** [applyConstraints()]. The cell is returned in both cases, since
    [self.possible] is assigned before the throw; [None] stands for
    [throw new NoOrientationsPossibleException(self)], [Some (addedWalls,
    addedConnections)] for the returned object. [full] is
    [grid.fullyConnected(index)]. *)
Definition applyConstraints (full : Z) (c : Cell) : Cell * option (Z * Z) :=
  let newPossible := filter (respects c) (possible c) in
  match newPossible with
  | [] => (set_possible newPossible c, None)
  | _ :: _ =>
      let '(newWalls, newConnections) := narrow full newPossible in
      let addedWalls := newWalls - walls c in
      let addedConnections := newConnections - connections c in
      (mkCell (index c) (initial c) newPossible newWalls newConnections,
       Some (addedWalls, addedConnections))
  end.

(** [clone()]: the constructor runs on the orientation 0 (its orbit is
    computed, then dropped), after which every field is overwritten. *)
Definition Cell_clone (fuel : nat) (rotate : Z -> Z -> Z -> Z)
  (fullyConnected : Z -> Z) (c : Cell) : option Cell :=
  match new_Cell fuel rotate fullyConnected (index c) (Some 0) with
  | Some _ => Some (mkCell (index c) (initial c) (possible c) (walls c) (connections c))
  | None => None
  end.

(** A sequence of calls on one cell *)
Inductive CellOp :=
| OpAddWall (direction : Z)
| OpAddConnection (direction : Z)
| OpMustHaveAllWalls (directions : Z)
| OpMustHaveSomeWalls (directions : Z)
| OpMustHaveAllConnections (directions : Z)
| OpApplyConstraints.

(** [None]: [applyConstraints] threw. *)
Definition run_op (full : Z) (op : CellOp) (c : Cell) : option Cell :=
  match op with
  | OpAddWall d => Some (addWall d c)
  | OpAddConnection d => Some (addConnection d c)
  | OpMustHaveAllWalls d => Some (mustHaveAllWalls d c)
  | OpMustHaveSomeWalls d => Some (mustHaveSomeWalls d c)
  | OpMustHaveAllConnections d => Some (mustHaveAllConnections d c)
  | OpApplyConstraints =>
      match applyConstraints full c with
      | (c', Some _) => Some c'
      | (_, None) => None
      end
  end.

Fixpoint run_ops (full : Z) (ops : list CellOp) (c : Cell) : option Cell :=
  match ops with
  | [] => Some c
  | op :: rest =>
      match run_op full op c with
      | Some c' => run_ops full rest c'
      | None => None
      end
  end.

(* ================================================================== *)
(** ** The grid interface, as solver.js uses it *)

(** [Map.prototype.get] / [set] / [has] / [delete] on insertion-ordered maps
    with Number keys *)
Fixpoint map_get {V : Type} (k : Z) (m : list (Z * V)) : option V :=
  match m with
  | [] => None
  | (k', v) :: rest => if k =? k' then Some v else map_get k rest
  end.

Fixpoint map_set {V : Type} (k : Z) (v : V) (m : list (Z * V)) : list (Z * V) :=
  match m with
  | [] => [(k, v)]
  | (k', v') :: rest =>
      if k =? k' then (k, v) :: rest else (k', v') :: map_set k v rest
  end.

Definition map_has {V : Type} (k : Z) (m : list (Z * V)) : bool :=
  match map_get k m with Some _ => true | None => false end.

Definition map_delete {V : Type} (k : Z) (m : list (Z * V)) : list (Z * V) :=
  filter (fun kv => negb (k =? fst kv)) m.

(** [array[i]] for a Number index: [undefined] out of range *)
Definition array_get {V : Type} (a : list V) (i : Z) : option V :=
  if i <? 0 then None else nth_error a (Z.to_nat i).

(** The members of a grid object that the solver reads. [HexaGrid] is not
    among the available sources: [isHexaGrid] stands for
    [grid instanceof HexaGrid], the tile constants for the properties
    [grid.T1], [grid.T2v], ... ([None] where a grid does not define one), and
    [rotate_direction] for the two-argument calls [grid.rotate(direction, k)]
    of the hexagonal rules. *)
Record Grid := mkGrid {
  total : Z;
  DIRECTIONS : list Z;
  OPPOSITE : Z -> option Z;
  emptyCells : list Z;
  find_neighbour : Z -> Z -> Z * bool;
  rotate : Z -> Z -> Z -> Z;
  fullyConnected : Z -> Z;
  tileTypes : option Z -> option Z;
  isHexaGrid : bool;
  rotate_direction : Z -> Z -> Z;
  T1 : option Z;
  T2v : option Z;
  T2c : option Z;
  T2I : option Z;
  T3w : option Z;
  T3Y : option Z;
  T4K : option Z;
  T4X : option Z;
  T4psi : option Z;
  T5 : option Z
}.

(* ================================================================== *)
(** ** OctaGrid (grids/octagrid.js) *)

Definition EAST : Z := 1.
Definition NORTHEAST : Z := 2.
Definition NORTH : Z := 4.
Definition NORTHWEST : Z := 8.
Definition WEST : Z := 16.
Definition SOUTHWEST : Z := 32.
Definition SOUTH : Z := 64.
Definition SOUTHEAST : Z := 128.

Record OctaGrid := mkOctaGrid {
  width : Z;
  height : Z;
  wrap : bool;
  octa_emptyCells : list Z
}.

Definition octa_DIRECTIONS : list Z :=
  [EAST; NORTHEAST; NORTH; NORTHWEST; WEST; SOUTHWEST; SOUTH; SOUTHEAST].

Definition octa_OPPOSITE_table : list (Z * Z) :=
  [(NORTH, SOUTH); (SOUTH, NORTH); (EAST, WEST); (WEST, EAST);
   (NORTHEAST, SOUTHWEST); (SOUTHWEST, NORTHEAST);
   (NORTHWEST, SOUTHEAST); (SOUTHEAST, NORTHWEST)].

(** [RC_DELTAS], every entry doubled ([dc], [dr] in half cells): the
    coordinates of the source are multiples of 0.5, kept here as integers. *)
Definition octa_RC_DELTAS2 : list (Z * (Z * Z)) :=
  [(EAST, (2, 0)); (NORTHEAST, (1, 1)); (NORTH, (0, 2)); (NORTHWEST, (-1, 1));
   (WEST, (-2, 0)); (SOUTHWEST, (-1, -1)); (SOUTH, (0, -2)); (SOUTHEAST, (1, -1))].

(** The loops of the constructor that fill [emptyCells] *)
Fixpoint empties_of_tiles (tiles : list Z) (i : Z) (acc : list Z) : list Z :=
  match tiles with
  | [] => acc
  | tile :: rest =>
      empties_of_tiles rest (i + 1) (if tile =? 0 then set_add i acc else acc)
  end.

Definition new_OctaGrid (w h : Z) (wr : bool) (tiles : list Z) : OctaGrid :=
  let e0 := empties_of_tiles tiles 0 [] in
  let e1 :=
    if (Nat.eqb (length tiles) 0) && negb wr then
      let N := 2 * w * h in
      let ea :=
        fold_left (fun acc k => set_add (N - Z.of_nat k) acc)
          (seq 1 (Z.to_nat w)) e0 in
      fold_left (fun acc k => set_add (N - 1 - w * Z.of_nat k) acc)
        (seq 1 (Z.to_nat h - 1)) ea
    else e0 in
  mkOctaGrid w h wr e1.

Definition octa_total (o : OctaGrid) : Z := 2 * width o * height o.

Definition makeEmpty (idx : Z) (o : OctaGrid) : OctaGrid :=
  mkOctaGrid (width o) (height o) (wrap o) (set_add idx (octa_emptyCells o)).

(** [r % n] followed by [if (r < 0) r += n] *)
Definition wrap_coord (r n : Z) : Z :=
  let r' := Z.rem r n in if r' <? 0 then r' + n else r'.

(** [rc_to_index(r, c)] on doubled coordinates [r2 = 2r], [c2 = 2c], which
    are both even (an octagon) or both odd (a square, where
    [r - Math.floor(r)] is 0.5). *)
Definition rc_to_index (o : OctaGrid) (r2 c2 : Z) : Z :=
  let squareIndexOffset := if Z.odd r2 then width o * height o else 0 in
  let r := r2 / 2 in
  let c := c2 / 2 in
  if wrap o then
    width o * wrap_coord r (height o) + wrap_coord c (width o) + squareIndexOffset
  else if (r <? 0) || (height o <=? r) then -1
  else if (c <? 0) || (width o <=? c) then -1
  else width o * r + c + squareIndexOffset.

Definition octa_find_neighbour (o : OctaGrid) (idx direction : Z) : Z * bool :=
  let isSquare := width o * height o <=? idx in
  if isSquare && existsb (Z.eqb direction) [NORTH; SOUTH; EAST; WEST]
  then (-1, true)
  else
    let i := if isSquare then idx - width o * height o else idx in
    let half := if isSquare then 1 else 0 in
    let c2 := half + 2 * Z.rem i (width o) in
    let r2 := half + 2 * ((i - Z.rem i (width o)) / width o) in
    let '(dc, dr) :=
      match map_get direction octa_RC_DELTAS2 with
      | Some d => d
      | None => (0, 0)
      end in
    let neighbour := rc_to_index o (r2 - dr) (c2 + dc) in
    (neighbour, (neighbour =? -1) || set_has neighbour (octa_emptyCells o)).

Definition octa_fullyConnected (o : OctaGrid) (idx : Z) : Z :=
  if width o * height o <=? idx then 170 else 255.

(** [rotate(tile, rotations, index)]; the two [while] loops run
    [|rotations|] times, with [|rotations| <= 4] after the normalisation. *)
Definition octa_rotate (tile rotations idx : Z) : Z :=
  let r0 := Z.rem rotations 8 in
  let r := if 4 <? r0 then r0 - 8 else if r0 <? -4 then r0 + 8 else r0 in
  if r <? 0 then
    Nat.iter (Z.to_nat (- r))
      (fun rotated => Z.rem (rotated * 2) 256 + rotated / 128) tile
  else
    Nat.iter (Z.to_nat r)
      (fun rotated => rotated / 2 + 128 * Z.rem rotated 2) tile.

(** The constructor's table [tileTypes]: for [t] from 0 to 255, every member
    of the rotation orbit of [t] not yet in the table is mapped to [t]. *)
Fixpoint tileTypes_orbit (fuel : nat) (t rotated : Z) (tbl : list (Z * Z))
  : list (Z * Z) :=
  match fuel with
  | O => tbl
  | S fuel' =>
      if map_has rotated tbl then tbl
      else tileTypes_orbit fuel' t (octa_rotate rotated 1 0) (map_set rotated t tbl)
  end.

Definition octa_tileTypes_table : list (Z * Z) :=
  Eval vm_compute in
    fold_left (fun tbl k => tileTypes_orbit 9 (Z.of_nat k) (Z.of_nat k) tbl)
      (seq 0 256) [].

Definition octa_tileTypes (x : option Z) : option Z :=
  match x with
  | Some t => map_get t octa_tileTypes_table
  | None => None
  end.

(** The object the solver receives *)
Definition Grid_of_OctaGrid (o : OctaGrid) : Grid :=
  {| total := octa_total o;
     DIRECTIONS := octa_DIRECTIONS;
     OPPOSITE := fun d => map_get d octa_OPPOSITE_table;
     emptyCells := octa_emptyCells o;
     find_neighbour := octa_find_neighbour o;
     rotate := octa_rotate;
     fullyConnected := octa_fullyConnected o;
     tileTypes := octa_tileTypes;
     isHexaGrid := false;
     rotate_direction := fun d k => octa_rotate d k 0;
     T1 := Some 1;
     T2v := Some 3;
     T2c := None;
     T2I := Some 17;
     T3w := Some 7;
     T3Y := None;
     T4K := None;
     T4X := None;
     T4psi := None;
     T5 := None |}.

(* ================================================================== *)
(** ** Solver (solver.js, lines 175-764) *)

(** [x === y] on values that are a Number or [undefined] *)
Definition opt_eqb (x y : option Z) : bool :=
  match x, y with
  | Some a, Some b => a =? b
  | None, None => true
  | _, _ => false
  end.

(** [array[i] = v]: an index past the end extends the array, the skipped
    slots are holes ([None]); a negative index creates a property and leaves
    the elements alone. *)
Definition array_set (a : list (option Z)) (i : Z) (v : option Z)
  : list (option Z) :=
  if i <? 0 then a
  else
    let n := Z.to_nat i in
    firstn n a ++ repeat None (n - length a) ++ v :: skipn (S n) a.

Record Solver := mkSolver {
  tiles : list Z;
  unsolved : list (Z * Cell);
  (** [components]: index to a reference into [heap] *)
  components : list (Z * nat);
  (** the component [Set] objects ever created by this solver, by reference *)
  heap : list (list Z);
  solution : list (option Z);
  solutions : list (list (option Z));
  dirty : list Z
}.

Definition UNSOLVED : Z := -1.
Definition AMBIGUOUS : Z := -2.

(** [new Solver(tiles, grid)] *)
Definition new_Solver (tl : list Z) : Solver :=
  mkSolver tl [] [] [] (map (fun _ => Some UNSOLVED) tl) [] [].

(** What a call can end with. [Raise]: a JavaScript [throw]; the state at
    the throw is kept, since mutations are not undone. [Beyond]: the run
    left the model (a loop did not end within the fuel, or a set would have
    to hold [undefined]). *)
Inductive Exn :=
| NoOrientationsPossible
| LoopDetected
| IslandDetected
| ComponentUndefined      (* 'Component to merge is undefined!' *)
| ConnectToEmpty          (* 'Trying to connect to an empty neighbour!' *)
| GuessUndefined.         (* 'Cell selected for guessing is undefined!' *)

Inductive Res (A : Type) :=
| Ret (a : A)
| Raise (e : Exn)
| Beyond.
Arguments Ret {A} a.
Arguments Raise {A} e.
Arguments Beyond {A}.

Definition M (A : Type) : Type := Solver -> Res A * Solver.

Definition ret {A} (a : A) : M A := fun s => (Ret a, s).
Definition raise {A} (e : Exn) : M A := fun s => (Raise e, s).
Definition beyond {A} : M A := fun s => (Beyond, s).
Definition bind {A B} (m : M A) (k : A -> M B) : M B :=
  fun s =>
    match m s with
    | (Ret a, s') => k a s'
    | (Raise e, s') => (Raise e, s')
    | (Beyond, s') => (Beyond, s')
    end.
Definition gets {A} (f : Solver -> A) : M A := fun s => (Ret (f s), s).
Definition modify (f : Solver -> Solver) : M unit := fun s => (Ret tt, f s).

Notation "x <- m ;; k" := (bind m (fun x => k))
  (at level 61, m at next level, right associativity).
Notation "m ;;; k" := (bind m (fun _ => k))
  (at level 61, right associativity).

Fixpoint forM_ {A} (l : list A) (f : A -> M unit) : M unit :=
  match l with
  | [] => ret tt
  | a :: rest => f a ;;; forM_ rest f
  end.

Definition set_unsolved (u : list (Z * Cell)) (s : Solver) : Solver :=
  mkSolver (tiles s) u (components s) (heap s) (solution s) (solutions s) (dirty s).
Definition set_components (c : list (Z * nat)) (s : Solver) : Solver :=
  mkSolver (tiles s) (unsolved s) c (heap s) (solution s) (solutions s) (dirty s).
Definition set_heap (h : list (list Z)) (s : Solver) : Solver :=
  mkSolver (tiles s) (unsolved s) (components s) h (solution s) (solutions s) (dirty s).
Definition set_solution (v : list (option Z)) (s : Solver) : Solver :=
  mkSolver (tiles s) (unsolved s) (components s) (heap s) v (solutions s) (dirty s).
Definition set_solutions (v : list (list (option Z))) (s : Solver) : Solver :=
  mkSolver (tiles s) (unsolved s) (components s) (heap s) (solution s) v (dirty s).
Definition set_dirty (d : list Z) (s : Solver) : Solver :=
  mkSolver (tiles s) (unsolved s) (components s) (heap s) (solution s) (solutions s) d.

(** [self.dirty.add(index)] *)
Definition dirty_add (idx : Z) : M unit :=
  modify (fun s => set_dirty (set_add idx (dirty s)) s).

(** A method call on the cell object stored under [idx] *)
Definition update_cell (idx : Z) (f : Cell -> Cell) : M unit :=
  modify (fun s =>
    match map_get idx (unsolved s) with
    | Some c => set_unsolved (map_set idx (f c) (unsolved s)) s
    | None => s
    end).

(** The contents of the [Set] object behind a reference *)
Definition heap_get (r : nat) (s : Solver) : list Z := nth r (heap s) [].

Fixpoint list_set {A} (n : nat) (v : A) (l : list A) : list A :=
  match n, l with
  | _, [] => []
  | O, _ :: rest => v :: rest
  | S n', a :: rest => a :: list_set n' v rest
  end.

Definition heap_update (r : nat) (f : list Z -> list Z) : M unit :=
  modify (fun s => set_heap (list_set r (f (heap_get r s)) (heap s)) s).

(** [new Set(members)] *)
Definition heap_alloc (members : list Z) : M nat :=
  fun s => (Ret (length (heap s)), set_heap (heap s ++ [members]) s).

Section WithGrid.

Variable g : Grid.
(** bound on the rounds of every loop that has no evident bound *)
Variable fuel : nat.

(** [self.checkDeadendConnections] *)
Definition checkDeadendConnections : bool :=
  Z.of_nat (length (DIRECTIONS g)) + 1 <? total g.

(** [x || self.UNSOLVED] *)
Definition or_UNSOLVED (x : option Z) : Z :=
  match x with
  | Some v => if v =? 0 then UNSOLVED else v
  | None => UNSOLVED
  end.

(** [self.grid.OPPOSITE.get(direction) || 0] *)
Definition opposite_or_0 (direction : Z) : Z :=
  match OPPOSITE g direction with Some v => v | None => 0 end.

(** Lines 275-293: [(neighbourTiles, walls, invalidDirections)] *)
Definition scan_neighbours (tl : list Z) (idx : Z) : list Z * Z * Z :=
  let full := fullyConnected g idx in
  fold_left
    (fun acc direction =>
       let '(neighbourTiles, w, invalidDirections) := acc in
       if band full direction =? 0 then
         (neighbourTiles ++ [UNSOLVED], w, invalidDirections + direction)
       else
         let '(neighbour, empty) := find_neighbour g idx direction in
         (neighbourTiles ++ [or_UNSOLVED (tileTypes g (array_get tl neighbour))],
          if empty then w + direction else w,
          invalidDirections))
    (DIRECTIONS g) ([], 0, 0).

(** [list.some(x => x === v)] *)
Definition some_eq (l : list (option Z)) (v : option Z) : bool :=
  existsb (fun x => opt_eqb x v) l.

(** [neighbourTiles.entries()] with the direction [DIRECTIONS[i]] of each
    entry: [neighbourTiles] has one entry for every direction. *)
Definition entries (neighbourTiles : list Z) : list (Z * (Z * Z)) :=
  combine (map Z.of_nat (seq 0 (length neighbourTiles)))
    (combine (DIRECTIONS g) neighbourTiles).

(** Lines 316-382, the rules taken when [grid instanceof HexaGrid] *)
Definition hexa_rule_sharp (tile : option Z) (neighbourTiles : list Z) (c : Cell) : Cell :=
  if some_eq [T4K g; T3w g; T5 g; T4psi g] tile then
    fold_left
      (fun c e =>
         let '(_, (direction, neighbourTile)) := e in
         if some_eq [T4K g; T2v g; T3w g; T5 g; T4X g] (Some neighbourTile) then
           let forbidden :=
             direction + rotate_direction g direction 1
             + rotate_direction g direction (-1) in
           mustHaveSomeWalls forbidden c
         else c)
      (entries neighbourTiles) c
  else c.

Definition hexa_rule_psi (tile : option Z) (neighbourTiles : list Z) (c : Cell) : Cell :=
  if some_eq [T4psi g; T4X g; T5 g; T3Y g] tile then
    fold_left
      (fun c e =>
         let '(_, (direction, neighbourTile)) := e in
         if some_eq [T4psi g; T4X g; T5 g; T3Y g] (Some neighbourTile)
         then mustHaveAllConnections direction c
         else c)
      (entries neighbourTiles) c
  else c.

(** [forbidden += DIRECTIONS[k]] when [neighbourTiles[k]] is one of T1, T2c,
    T2I; [None] is the NaN that adding [undefined] gives. *)
Definition hexa_side (neighbourTiles : list Z) (k : Z) (forbidden : option Z)
  : option Z :=
  if some_eq [T1 g; T2c g; T2I g] (array_get neighbourTiles k) then
    match forbidden, array_get (DIRECTIONS g) k with
    | Some f, Some d => Some (f + d)
    | _, _ => None
    end
  else forbidden.

Definition hexa_rule_walls (tile : option Z) (neighbourTiles : list Z) (c : Cell) : Cell :=
  if negb (some_eq [T4psi g; T4X g; T5 g; T3Y g] tile) then
    fold_left
      (fun c e =>
         let '(i, (direction, neighbourTile)) := e in
         if some_eq [T4psi g; T4X g; T5 g; T3Y g] (Some neighbourTile) then
           match hexa_side neighbourTiles (Z.rem (i + 5) 6)
                   (hexa_side neighbourTiles (Z.rem (i + 1) 6) (Some 0)) with
           | Some forbidden =>
               if forbidden =? 0 then c
               else delete_where
                      (fun o => (0 <? band o forbidden) && (band o direction =? 0)) c
           | None => c   (* NaN: no test of the inner loop holds *)
           end
         else c)
      (entries neighbourTiles) c
  else c.

(** [doLocalDeductions(index, cell)]: the cell after the call and whether
    [self.dirty.add(index)] ran. *)
Definition doLocalDeductions_cell (tl : list Z) (idx : Z) (c : Cell) : Cell * bool :=
  if set_size (possible c) =? 1 then (c, true)
  else
    let tile := tileTypes g (initial c) in
    let possibleBefore := set_size (possible c) in
    let '(neighbourTiles, w, invalidDirections) := scan_neighbours tl idx in
    let c1 := if 0 <? w then mustHaveAllWalls w (addWall w c) else c in
    let c2 := if 0 <? invalidDirections then mustHaveAllWalls invalidDirections c1 else c1 in
    let c3 :=
      if checkDeadendConnections then
        let deadendConnections :=
          fold_left
            (fun acc e =>
               let '(_, (direction, neighbourTile)) := e in
               if opt_eqb (Some neighbourTile) (T1 g) then acc + direction else acc)
            (entries neighbourTiles) 0 in
        mustHaveSomeWalls deadendConnections c2
      else c2 in
    let c4 :=
      if isHexaGrid g then
        hexa_rule_walls tile neighbourTiles
          (hexa_rule_psi tile neighbourTiles
             (hexa_rule_sharp tile neighbourTiles c3))
      else c3 in
    (c4, set_size (possible c4) <? possibleBefore).

Definition doLocalDeductions (idx : Z) : M unit :=
  s <- gets (fun s => s) ;;
  match map_get idx (unsolved s) with
  | Some c =>
      let '(c', d) := doLocalDeductions_cell (tiles s) idx c in
      update_cell idx (fun _ => c') ;;;
      (if d then dirty_add idx else ret tt)
  | None => ret tt
  end.

(** [getCell(index)] *)
Definition getCell (idx : Z) : M Cell :=
  s <- gets (fun s => s) ;;
  match map_get idx (unsolved s) with
  | Some c => ret c
  | None =>
      match new_Cell fuel (rotate g) (fullyConnected g) idx (array_get (tiles s) idx) with
      | None => beyond
      | Some c =>
          modify (fun s => set_unsolved (map_set idx c (unsolved s)) s) ;;;
          doLocalDeductions idx ;;;
          s' <- gets (fun s => s) ;;
          match map_get idx (unsolved s') with
          | Some c' => ret c'
          | None => ret c
          end
      end
  end.

(** Lines 244-252: the directions of the joining cell that are still open
    and lead into [component] *)
Definition forbidden_directions (component : list Z) (otherIndex : Z) (c : Cell) : Z :=
  let occupiedDirections := walls c + connections c in
  fold_left
    (fun forbidden direction =>
       if 0 <? band occupiedDirections direction then forbidden
       else
         let nIndex := fst (find_neighbour g otherIndex direction) in
         if set_has nIndex component then forbidden + direction else forbidden)
    (DIRECTIONS g) 0.

(** The body of the loop of lines 235-257 *)
Definition join_member (component : nat) (otherIndex : Z) : M unit :=
  modify (fun s => set_components (map_set otherIndex component (components s)) s) ;;;
  heap_update component (set_add otherIndex) ;;;
  c <- getCell otherIndex ;;
  members <- gets (heap_get component) ;;
  let forbidden := forbidden_directions members otherIndex c in
  if 0 <? forbidden then
    update_cell otherIndex (mustHaveAllWalls forbidden) ;;;
    dirty_add otherIndex
  else ret tt.

(** [mergeComponents(index, neighbourIndex)] *)
Definition mergeComponents (idx neighbourIndex : Z) : M unit :=
  s <- gets (fun s => s) ;;
  match map_get idx (components s) with
  | None => raise ComponentUndefined
  | Some component =>
      neighbourComponent <-
        match map_get neighbourIndex (components s) with
        | Some r => ret r
        | None => heap_alloc [neighbourIndex]
        end ;;
      if Nat.eqb component neighbourComponent then raise LoopDetected
      else
        members <- gets (heap_get neighbourComponent) ;;
        forM_ members (join_member component)
  end.

(** A yielded step [{ index, orientation, final }] *)
Record Step := mkStep {
  step_index : Z;
  step_orientation : option Z;
  step_final : bool
}.

(** The cell object held by the variable [cell] of [processDirtyCells]: it
    is the entry of [unsolved] under [index], which [getCell] has just
    returned or inserted and which nothing removes before line 460. *)
Definition the_cell (idx : Z) (s : Solver) : Cell :=
  match map_get idx (unsolved s) with
  | Some c => c
  | None => mkCell idx None [] 0 0
  end.

(** Lines 417-430 *)
Definition propagate_walls (idx addedWalls : Z) : M unit :=
  forM_ (DIRECTIONS g) (fun direction =>
    if 0 <? band direction addedWalls then
      let '(neighbour, empty) := find_neighbour g idx direction in
      if empty then ret tt
      else
        getCell neighbour ;;;
        update_cell neighbour (addWall (opposite_or_0 direction)) ;;;
        dirty_add neighbour
    else ret tt).

(** Lines 432-446 *)
Definition propagate_connections (idx addedConnections : Z) : M unit :=
  forM_ (DIRECTIONS g) (fun direction =>
    if 0 <? band direction addedConnections then
      let '(neighbour, empty) := find_neighbour g idx direction in
      if empty then raise ConnectToEmpty
      else
        getCell neighbour ;;;
        update_cell neighbour (addConnection (opposite_or_0 direction)) ;;;
        mergeComponents idx neighbour ;;;
        dirty_add neighbour
    else ret tt).

(** Lines 400-446: constraints of the dirty cell and their propagation *)
Definition propagate (idx : Z) : M unit :=
  getCell idx ;;;
  c <- gets (the_cell idx) ;;
  let '(c', r) := applyConstraints (fullyConnected g idx) c in
  update_cell idx (fun _ => c') ;;;
  match r with
  | None => raise NoOrientationsPossible
  | Some (addedWalls, addedConnections) =>
      has <- gets (fun s => map_has idx (components s)) ;;
      (if (0 <? addedConnections) && negb has then
         r <- heap_alloc [idx] ;;
         modify (fun s => set_components (map_set idx r (components s)) s)
       else ret tt) ;;;
      (if 0 <? addedWalls then propagate_walls idx addedWalls else ret tt) ;;;
      (if 0 <? addedConnections then propagate_connections idx addedConnections
       else ret tt)
  end.

(** Lines 452-458 *)
Definition leave_component (idx : Z) : M unit :=
  s <- gets (fun s => s) ;;
  match map_get idx (components s) with
  | Some component =>
      heap_update component (set_delete idx) ;;;
      s' <- gets (fun s => s) ;;
      if (set_size (heap_get component s') =? 0)
         && (1 <? Z.of_nat (length (unsolved s')))
      then raise IslandDetected
      else ret tt
  | None => ret tt
  end.

(** Lines 459-461 *)
Definition solved_state (idx : Z) (orientation : option Z) (s : Solver) : Solver :=
  mkSolver (tiles s) (map_delete idx (unsolved s)) (map_delete idx (components s))
    (heap s) (array_set (solution s) idx orientation) (solutions s) (dirty s).

(** Lines 447-464: is the cell solved; the yielded record *)
Definition settle (idx : Z) : M Step :=
  c <- gets (the_cell idx) ;;
  let orientation := set_first (possible c) in
  let final := set_size (possible c) =? 1 in
  (if final then
     leave_component idx ;;;
     modify (solved_state idx orientation)
   else ret tt) ;;;
  ret (mkStep idx orientation final).

(** One round of the [while] loop of [processDirtyCells], up to the [yield] *)
Definition processDirtyCell (idx : Z) : M Step :=
  propagate idx ;;; settle idx.

(** [processDirtyCells()], consumed to its end: the steps yielded, how the
    generator ended and the solver it leaves. [self.dirty.delete(index)]
    runs when the consumer asks for the next step. *)
Fixpoint processDirtyCells_loop (n : nat) (s : Solver)
  : list Step * Res unit * Solver :=
  match n with
  | O => ([], Beyond, s)
  | S n' =>
      match set_first (dirty s) with
      | None => ([], Ret tt, s)
      | Some idx =>
          match processDirtyCell idx s with
          | (Ret st, s1) =>
              let s2 := set_dirty (set_delete idx (dirty s1)) s1 in
              let '(steps, r, s3) := processDirtyCells_loop n' s2 in
              (st :: steps, r, s3)
          | (Raise e, s1) => ([], Raise e, s1)
          | (Beyond, s1) => ([], Beyond, s1)
          end
      end
  end.

Definition processDirtyCells : Solver -> list Step * Res unit * Solver :=
  processDirtyCells_loop fuel.

(** [clone()] *)
Fixpoint clone_cells (u : list (Z * Cell)) : option (list (Z * Cell)) :=
  match u with
  | [] => Some []
  | (k, c) :: rest =>
      match Cell_clone fuel (rotate g) (fullyConnected g) c, clone_cells rest with
      | Some c', Some rest' => Some ((k, c') :: rest')
      | _, _ => None
      end
  end.

(** Lines 482-487: the members of the copy are pointed to it until one of
    them already has a component in the clone *)
Fixpoint share_members (members : list Z) (newComponent : nat)
  (cc : list (Z * nat)) : list (Z * nat) :=
  match members with
  | [] => cc
  | componentCell :: rest =>
      if map_has componentCell cc then cc
      else share_members rest newComponent (map_set componentCell newComponent cc)
  end.

Definition clone_components (s : Solver) : list (Z * nat) * list (list Z) :=
  fold_left
    (fun acc entry =>
       let '(cc, hp) := acc in
       let members := heap_get (snd entry) s in
       (share_members members (length hp) cc, hp ++ [members]))
    (components s) ([], []).

Definition Solver_clone (s : Solver) : option Solver :=
  match clone_cells (unsolved s) with
  | Some u =>
      let '(cc, hp) := clone_components s in
      Some (mkSolver [] u cc hp (solution s) [] [])
  | None => None
  end.

(** The selection loop of [makeAGuess] (lines 500-510) and of its copy in
    [markAmbiguousTiles] (lines 729-742), which skips the indices for which
    [skip] holds. [minPossibleSize] is [None] for [Number.POSITIVE_INFINITY]. *)
Fixpoint pick_guess (skip : Z -> bool) (u : list (Z * Cell))
  (minPossibleSize : option Z) (guessIndex : Z) : Z :=
  match u with
  | [] => guessIndex
  | (idx, c) :: rest =>
      if skip idx then pick_guess skip rest minPossibleSize guessIndex
      else
        let size := set_size (possible c) in
        if match minPossibleSize with None => true | Some m => size <? m end
        then if size =? 2 then idx else pick_guess skip rest (Some size) idx
        else pick_guess skip rest minPossibleSize guessIndex
  end.

(** Lines 511-518 and 743-751, after the selection *)
Inductive Guess :=
| GuessCellUndefined                       (* [cell === undefined] *)
| GuessBeyond                              (* the cell has no orientation left:
                                              its set would become [{undefined}] *)
| Guessed (guessIndex orientation : Z) (s : Solver).

Definition commit_guess (guessIndex : Z) (s : Solver) : Guess :=
  match map_get guessIndex (unsolved s) with
  | None => GuessCellUndefined
  | Some c =>
      match set_first (possible c) with
      | None => GuessBeyond
      | Some orientation =>
          let s1 := set_unsolved (map_set guessIndex (set_possible [orientation] c) (unsolved s)) s in
          Guessed guessIndex orientation (set_dirty (set_add guessIndex (dirty s1)) s1)
      end
  end.

(** [makeAGuess()] *)
Definition makeAGuess (s : Solver) : Res (Z * Z * Solver) :=
  match commit_guess (pick_guess (fun _ => false) (unsolved s) None (-1)) s with
  | Guessed guessIndex orientation s' => Ret (guessIndex, orientation, s')
  | GuessCellUndefined => Raise GuessUndefined
  | GuessBeyond => Beyond
  end.

Inductive SolvingStage := stage_initial | stage_guess | stage_aftercheck.

(** What [solve] yields: [{ stage, step }] *)
Record Yielded := mkYielded {
  stage : SolvingStage;
  step : Step
}.

(** An entry [{ index, guess, solver }] of [trials] above the root entry
    [{ index: -1, guess: -1, solver: self }] *)
Definition Trial : Type := Z * Z * Solver.

(** Lines 529-537 and 635-642: [(toInit, self)] after the [for] loop *)
Definition seed (s : Solver) : list Z * Solver :=
  fold_left
    (fun acc k =>
       let '(toInit, s) := acc in
       let idx := Z.of_nat k in
       if set_has idx (emptyCells g)
       then (toInit, set_dirty (set_add idx (dirty s)) s)
       else (set_add idx toInit, s))
    (seq 0 (Z.to_nat (total g))) ([], s).

(** Lines 538-553 and 643-656: the [while (toInit.size > 0)] loop. The
    steps are those of every [processDirtyCells()] run, in order, including
    the ones yielded before a throw. *)
Fixpoint init_loop (n : nat) (toInit : list Z) (s : Solver)
  : list Step * Res unit * Solver :=
  match n with
  | O => ([], Beyond, s)
  | S n' =>
      match toInit with
      | [] => ([], Ret tt, s)
      | nextTile :: rest =>
          if map_has nextTile (unsolved s) then init_loop n' rest s
          else
            let s1 := set_dirty (set_add nextTile (dirty s)) s in
            let '(steps, r, s2) := processDirtyCells s1 in
            match r with
            | Ret _ =>
                let toInit' :=
                  fold_left (fun t st => set_delete (step_index st) t) steps rest in
                let '(steps', r', s3) := init_loop n' toInit' s2 in
                (steps ++ steps', r', s3)
            | _ => (steps, r, s2)
            end
      end
  end.

(** The solver of the last entry of [trials] *)
Definition top_solver (self : Solver) (stack : list Trial) : Solver :=
  match stack with
  | [] => self
  | (_, _, solver) :: _ => solver
  end.

(** The same entry after its solver object was mutated *)
Definition set_top (self : Solver) (stack : list Trial) (solver : Solver)
  : Solver * list Trial :=
  match stack with
  | [] => (solver, [])
  | (i, guess, _) :: rest => (self, (i, guess, solver) :: rest)
  end.

(** [cell?.possible.delete(guess); parent.dirty.add(index)] *)
Definition prune_guess (idx guess : Z) (parent : Solver) : Solver :=
  let s1 :=
    match map_get idx (unsolved parent) with
    | Some c =>
        set_unsolved
          (map_set idx (set_possible (set_delete guess (possible c)) c)
             (unsolved parent)) parent
    | None => parent
    end in
  set_dirty (set_add idx (dirty s1)) s1.

(** [trials.pop()] of the entry [(index, guess, _)], then the pruning in the
    new last entry *)
Definition backtrack (idx guess : Z) (self : Solver) (rest : list Trial)
  : Solver * list Trial :=
  set_top self rest (prune_guess idx guess (top_solver self rest)).

(** Lines 590-591 *)
Definition record_solution (self : Solver) (found : list (option Z)) : Solver :=
  set_solutions (solutions self ++ [found]) (set_solution found self).

(** The [while (trials.length > 0)] loop of [solve] *)
Fixpoint search_loop (n : nat) (allSolutions : bool) (self : Solver)
  (stack : list Trial) : list Yielded * Res unit * Solver :=
  match n with
  | O => ([], Beyond, self)
  | S n' =>
      let stage :=
        match solutions self with
        | [] => match stack with [] => stage_initial | _ => stage_guess end
        | _ => stage_aftercheck
        end in
      let '(steps, r, solver) := processDirtyCells (top_solver self stack) in
      let ys := map (mkYielded stage) steps in
      let '(self1, stack1) := set_top self stack solver in
      let continue st :=
        let '(ys', r', s') := search_loop n' allSolutions (fst st) (snd st) in
        (ys ++ ys', r', s') in
      match r with
      | Beyond => (ys, Beyond, self1)
      | Raise _ =>
          match stack1 with
          | (idx, guess, _) :: rest => continue (backtrack idx guess self1 rest)
          | [] => (ys, Ret tt, self1)
          end
      | Ret _ =>
          if Nat.eqb (length (unsolved solver)) 0 then
            let self2 := record_solution self1 (solution solver) in
            if negb allSolutions then (ys, Ret tt, self2)
            else
              match stack1 with
              | (idx, guess, _) :: rest => continue (backtrack idx guess self2 rest)
              | [] => (ys, Ret tt, self2)
              end
          else
            match Solver_clone solver with
            | None => (ys, Beyond, self1)
            | Some clone =>
                match makeAGuess clone with
                | Ret (idx, orientation, clone') =>
                    continue (self1, (idx, orientation, clone') :: stack1)
                | Raise e => (ys, Raise e, self1)
                | Beyond => (ys, Beyond, self1)
                end
            end
      end
  end.

(** [solve(allSolutions)], consumed to its end: everything yielded, how the
    generator ended ([Raise]: the exception reaches the consumer), and
    [self] afterwards. *)
Definition solve (allSolutions : bool) (self : Solver)
  : list Yielded * Res unit * Solver :=
  let '(y0, r0, s0) :=
    if set_size (dirty self) =? 0 then
      let '(toInit, s1) := seed self in
      let '(steps, r, s2) := init_loop fuel toInit s1 in
      (map (mkYielded stage_initial)
         (filter (fun st => negb (opt_eqb (step_orientation st) (Some 0))) steps),
       r, s2)
    else ([], Ret tt, self) in
  match r0 with
  | Ret _ =>
      let '(y1, r1, s1) := search_loop fuel allSolutions s0 [] in
      (y0 ++ y1, r1, s1)
  | _ => (y0, r0, s0)
  end.

(** [a[i]] read as a value: a hole and an index out of range give [undefined] *)
Definition js_index (a : list (option Z)) (i : Z) : option Z :=
  match array_get a i with Some v => v | None => None end.

(** The returned object [{ marked, solvable, unique }] *)
Record MarkResult := mkMarkResult {
  marked : list (option Z);
  solvable : bool;
  unique : bool
}.

(** Lines 701-711: [(marked, unique)] after the loop over [marked] *)
Definition merge_solution (mk : list (option Z)) (uniq : bool)
  (found : list (option Z)) : list (option Z) * bool :=
  fold_left
    (fun acc k =>
       let '(mk, uniq) := acc in
       let i := Z.of_nat k in
       if opt_eqb (js_index mk i) (Some UNSOLVED)
       then (array_set mk i (js_index found i), uniq)
       else if opt_eqb (js_index mk i) (Some AMBIGUOUS) then (mk, uniq)
       else if negb (opt_eqb (js_index mk i) (js_index found i))
       then (array_set mk i (Some AMBIGUOUS), false)
       else (mk, uniq))
    (seq 0 (length mk)) (mk, uniq).

(** [marked.every((tile) => tile !== self.UNSOLVED)] *)
Definition every_resolved (mk : list (option Z)) : bool :=
  forallb (fun tile => negb (opt_eqb tile (Some UNSOLVED))) mk.

(** The [while (trials.length > 0)] loop of [markAmbiguousTiles]:
    [(marked, unique)] at its exit *)
Fixpoint mark_loop (n : nat) (self : Solver) (stack : list Trial)
  (mk : list (option Z)) (uniq : bool) : Res (list (option Z) * bool) :=
  match n with
  | O => Beyond
  | S n' =>
      let '(_, r, solver) := processDirtyCells (top_solver self stack) in
      let '(self1, stack1) := set_top self stack solver in
      match r with
      | Beyond => Beyond
      | Raise _ =>
          match stack1 with
          | (idx, guess, _) :: rest =>
              let '(self2, stack2) := backtrack idx guess self1 rest in
              mark_loop n' self2 stack2 mk uniq
          | [] => Ret (mk, uniq)
          end
      | Ret _ =>
          if Nat.eqb (length (unsolved solver)) 0 then
            let '(mk', uniq') := merge_solution mk uniq (solution solver) in
            match stack1 with
            | (idx, guess, _) :: rest =>
                let '(self2, stack2) := backtrack idx guess self1 rest in
                mark_loop n' self2 stack2 mk' uniq'
            | [] => Ret (mk', uniq')
            end
          else
            match Solver_clone solver with
            | None => Beyond
            | Some clone =>
                let guessIndex :=
                  pick_guess
                    (fun idx => opt_eqb (js_index mk idx) (Some AMBIGUOUS))
                    (unsolved clone) None (-1) in
                match commit_guess guessIndex clone with
                | GuessCellUndefined =>
                    (* solver.unsolved = new Map(); continue *)
                    let '(self2, stack2) := set_top self1 stack1 (set_unsolved [] solver) in
                    mark_loop n' self2 stack2 mk uniq
                | Guessed idx orientation clone' =>
                    mark_loop n' self1 ((idx, orientation, clone') :: stack1) mk uniq
                | GuessBeyond => Beyond
                end
            end
      end
  end.

(** [markAmbiguousTiles()]. [initial_threw] is not part of the returned
    object: it records that the [catch] of line 658 was taken. *)
Definition markAmbiguousTiles_trace (self : Solver) : Res (MarkResult * bool) :=
  let mk0 := solution self in
  let '(steps, r0, s0) :=
    if set_size (dirty self) =? 0 then
      let '(toInit, s1) := seed self in init_loop fuel toInit s1
    else ([], Ret tt, self) in
  let mk1 :=
    fold_left
      (fun mk st =>
         if step_final st then array_set mk (step_index st) (step_orientation st)
         else mk)
      steps mk0 in
  match r0 with
  | Beyond => Beyond
  | Raise _ => Ret (mkMarkResult mk1 false false, true)
  | Ret _ =>
      match mark_loop fuel s0 [] mk1 true with
      | Ret (mk, uniq) => Ret (mkMarkResult mk (every_resolved mk) uniq, false)
      | Raise e => Raise e
      | Beyond => Beyond
      end
  end.

Definition markAmbiguousTiles (self : Solver) : Res MarkResult :=
  match markAmbiguousTiles_trace self with
  | Ret (result, _) => Ret result
  | Raise e => Raise e
  | Beyond => Beyond
  end.
End WithGrid.

(* ================================================================== *)
(** ** The statements about a cell, as the specification words them *)

(** A mask in the range where [&] is the plain bitwise and *)
Definition int31 (x : Z) : Prop := 0 <= x < 2 ^ 31.

(** [o] has no bit outside [full] *)
Definition within (full o : Z) : Prop := 0 <= o /\ Z.land o full = o.

(** The bits every member of [l] has *)
Definition inter_all (l : list Z) : Z := fold_right Z.land (-1) l.

(** The orientations [applyConstraints] has to remove *)
Definition contradicts (c : Cell) (o : Z) : bool :=
  negb (band o (walls c) =? 0)
  || negb (band o (connections c) =? connections c).

(** [applyConstraints()] as the specification describes it: the filter, the
    failure on an empty result, the new connections as the intersection of
    what is left, the new walls as the intersection of the complements within
    [full], and the returned bits: those of the new value that the old one
    lacks. *)
Definition applyConstraints_spec (full : Z) (c : Cell) : Prop :=
  let c' := fst (applyConstraints full c) in
  let r := snd (applyConstraints full c) in
  possible c' = filter (fun o => negb (contradicts c o)) (possible c)
  /\ (possible c' = [] -> r = None)
  /\ (possible c' <> [] ->
      connections c' = inter_all (possible c')
      /\ walls c' = inter_all (map (Z.ldiff full) (possible c'))
      /\ r = Some (Z.ldiff (walls c') (walls c),
                   Z.ldiff (connections c') (connections c))).

(** The two halves of the cell invariant *)
Definition disjoint_marks (c : Cell) : Prop :=
  band (walls c) (connections c) = 0.

Definition masks_agree (c : Cell) : Prop :=
  forall mask, In mask (possible c) ->
    band mask (walls c) = 0 /\ band mask (connections c) = connections c.

Definition cell_invariant (c : Cell) : Prop :=
  disjoint_marks c /\ masks_agree c.

(** The masks of a cell stay inside the grid's fully connected tile *)
Definition cell_wf (full : Z) (c : Cell) : Prop :=
  int31 (walls c) /\ int31 (connections c) /\ Forall (within full) (possible c).

(** The directions handed to [addWall] and [addConnection] are masks *)
Definition op_ok (op : CellOp) : Prop :=
  match op with
  | OpAddWall d | OpAddConnection d => int31 d
  | _ => True
  end.

(** Does [masks_agree] hold after [ops], when [b] tells whether it held
    before: [addWall] and [addConnection] postpone the filtering to the next
    [applyConstraints]. *)
Fixpoint settled (ops : list CellOp) (b : bool) : bool :=
  match ops with
  | [] => b
  | OpAddWall _ :: rest | OpAddConnection _ :: rest => settled rest false
  | OpApplyConstraints :: rest => settled rest true
  | _ :: rest => settled rest b
  end.

(** [a] keeps every bit of [b] *)
Definition keeps_bits (a b : Z) : Prop := Z.land b a = b.

(** The cell invariant after every sequence of calls that does not throw *)
Definition invariant_after_each (full : Z) (c0 : Cell) : Prop :=
  forall ops c, run_ops full ops c0 = Some c -> cell_invariant c.

(** Two calls of [applyConstraints] in a row both return the zero delta *)
Definition zero_delta_twice (full : Z) (c : Cell) : Prop :=
  forall c1 d1 c2 d2,
    applyConstraints full c = (c1, Some d1) ->
    applyConstraints full c1 = (c2, Some d2) ->
    d1 = (0, 0) /\ d2 = (0, 0).

(** The cells of the examples: an octagon of a 2 by 2 wrapping OctaGrid *)
Definition octa22 : OctaGrid := new_OctaGrid 2 2 true [].

Definition octa_cell (tile : Z) : option Cell :=
  new_Cell 16 octa_rotate (octa_fullyConnected octa22) 0 (Some tile).

(* ================================================================== *)
(** ** The statements about the solver, as the specification words them *)

(** Lines 447-464 as the specification describes them. [s1] is the solver
    when line 447 is reached, [out] what the round ends with. *)
Definition settle_spec (idx : Z) (s1 : Solver) (out : Res Step * Solver) : Prop :=
  let c := the_cell idx s1 in
  match possible c with
  | [orientation] =>
      let solved :=
        fst out = Ret (mkStep idx (Some orientation) true)
        /\ js_index (solution (snd out)) idx = Some orientation
        /\ map_get idx (unsolved (snd out)) = None in
      match map_get idx (components s1) with
      | Some component =>
          let members := set_delete idx (heap_get component s1) in
          heap_get component (snd out) = members
          /\ (if (Nat.eqb (length members) 0)
                 && (1 <? Z.of_nat (length (unsolved s1)))
              then fst out = Raise IslandDetected
              else solved)
      | None => solved
      end
  | _ =>
      out = (Ret (mkStep idx (set_first (possible c)) false), s1)
  end.

(** Every reference held in [components] points to an allocated set *)
Definition refs_valid (s : Solver) : Prop :=
  forall k r, map_get k (components s) = Some r -> (r < length (heap s))%nat.

(** The test of line 245 on a direction of a cell: not occupied *)
Definition open_direction (c : Cell) (direction : Z) : Prop :=
  (0 <? band (walls c + connections c) direction) = false.

(** The members over which the loop of [mergeComponents] runs *)
Definition neighbour_members (neighbourIndex : Z) (s : Solver) : list Z :=
  match map_get neighbourIndex (components s) with
  | Some r => heap_get r s
  | None => [neighbourIndex]
  end.

(** The second half of C6 read against the unified component as it is when
    [mergeComponents] returns *)
Definition walls_forced_against_unified (g : Grid) (s' : Solver)
  (component : nat) (members : list Z) : Prop :=
  forall m direction,
    In m members -> In direction (DIRECTIONS g) ->
    open_direction (the_cell m s') direction ->
    In (fst (find_neighbour g m direction)) (heap_get component s') ->
    In m (dirty s')
    /\ forall o, In o (possible (the_cell m s')) -> band o direction = 0.

(** Relations between the solver before and after a call *)

(** The cells present stay, with the same marks and no new orientation *)
Definition cells_narrowed (s s' : Solver) : Prop :=
  forall k c, map_get k (unsolved s) = Some c ->
    exists c', map_get k (unsolved s') = Some c'
      /\ walls c' = walls c /\ connections c' = connections c
      /\ incl (possible c') (possible c).

Definition dirty_grows (s s' : Solver) : Prop := incl (dirty s) (dirty s').

(** The directions of a grid are positive masks without a common bit *)
Definition directions_apart (g : Grid) : Prop :=
  Forall (fun d => 0 < d < 2 ^ 31) (DIRECTIONS g)
  /\ ForallOrdPairs (fun a b => Z.land a b = 0) (DIRECTIONS g).

(** The solver states of the examples, on the 2 by 2 wrapping OctaGrid:
    octagons 0 1 / 2 3, squares 4 to 7. East and west of octagon 0 both lead
    to octagon 1, north and south of octagon 1 both lead to octagon 3. *)
Definition grid22 : Grid := Grid_of_OctaGrid octa22.

(** Octagons 0 and 1 are joined (east of 0, west of 1) in the component
    object 1; octagon 3 has just found a connection to the north, to octagon
    1, and is alone in the component object 0. *)
Definition merge_state : Solver :=
  mkSolver [21; 5; 5; 5; 0; 0; 0; 0]
    [(0, mkCell 0 (Some 21) [21; 81; 69] 170 1);
     (1, mkCell 1 (Some 5) [80; 20; 65] 170 80);
     (3, mkCell 3 (Some 5) [5; 20] 170 4)]
    [(3, 0%nat); (0, 1%nat); (1, 1%nat)]
    [[3]; [0; 1]]
    [Some UNSOLVED; Some UNSOLVED; Some UNSOLVED; Some UNSOLVED;
     Some 0; Some 0; Some 0; Some 0]
    [] [3].

(* ================================================================== *)
(** ** What a solved puzzle is (specification, sections 1 and 8)

    "every connection matches across adjacent cells with no loops and no
    isolated groups": the cells that are not empty, joined by the mutual
    connections of their masks, form a connected graph with one edge less
    than it has vertices. *)

Definition mask_at (layout : list Z) (i : Z) : Z :=
  match array_get layout i with Some v => v | None => 0 end.

(** The cells of the grid that are not empty *)
Definition grid_cells (g : Grid) : list Z :=
  filter (fun i => negb (set_has i (emptyCells g)))
    (map Z.of_nat (seq 0 (Z.to_nat (total g)))).

(** The directions in which the mask of cell [i] has an arm *)
Definition arms (g : Grid) (layout : list Z) (i : Z) : list Z :=
  filter (fun d => negb (band (mask_at layout i) d =? 0)) (DIRECTIONS g).

(** The arm of [i] in direction [d] meets an arm of the neighbour *)
Definition arm_matched (g : Grid) (layout : list Z) (i d : Z) : bool :=
  let '(n, empty) := find_neighbour g i d in
  negb empty
  && negb (band (mask_at layout n)
             (match OPPOSITE g d with Some v => v | None => 0 end) =? 0).

(** A mutual connection: one edge of the graph, seen from [i] *)
Definition edges_from (g : Grid) (layout : list Z) (i : Z) : list Z :=
  filter (arm_matched g layout i) (arms g layout i).

(** Twice the number of edges *)
Definition edge_ends (g : Grid) (layout : list Z) : nat :=
  fold_right (fun i n => (length (edges_from g layout i) + n)%nat) 0%nat
    (grid_cells g).

(** The cells reached from those of [found] by one more edge *)
Definition grow (g : Grid) (layout : list Z) (found : list Z) : list Z :=
  fold_left
    (fun acc i =>
       fold_left (fun acc d => set_add (fst (find_neighbour g i d)) acc)
         (edges_from g layout i) acc)
    found found.

Definition reached (g : Grid) (layout : list Z) : list Z :=
  match grid_cells g with
  | [] => []
  | first :: _ => Nat.iter (length (grid_cells g)) (grow g layout) [first]
  end.

Definition connected (g : Grid) (layout : list Z) : bool :=
  forallb (fun i => set_has i (reached g layout)) (grid_cells g).

(** Connected, and the edge count is the vertex count minus one *)
Definition spanning_tree (g : Grid) (layout : list Z) : bool :=
  connected g layout
  && Nat.eqb (edge_ends g layout + 2) (2 * length (grid_cells g)).

(** [layout] solves the puzzle [tiles]: every cell holds a rotation of its
    tile (an empty cell holds 0), every arm is matched, and the connections
    form a spanning tree. *)
Definition is_solution (g : Grid) (fuel : nat) (tl layout : list Z) : bool :=
  Nat.eqb (length layout) (length tl)
  && forallb
       (fun i =>
          match orbit fuel (fun t => rotate g t 1 i) (mask_at tl i) [] with
          | Some p => set_has (mask_at layout i) p
          | None => false
          end
          && forallb (arm_matched g layout i) (arms g layout i))
       (map Z.of_nat (seq 0 (length tl)))
  && spanning_tree g layout.

(** The grids and puzzles of the examples *)

(** [new OctaGrid(1, 1, false)]: one octagon; its square, index 1, is empty *)
Definition grid11 : Grid := Grid_of_OctaGrid (new_OctaGrid 1 1 false []).

(** A dead end on that board: no orientation fits *)
Definition lonely_dead_end : list Z := [1; 0].

(** Two dead ends facing each other in a row of five octagons, the other
    cells empty: [new OctaGrid(5, 1, false, two_dead_ends)] *)
Definition two_dead_ends : list Z := [1; 16; 0; 0; 0; 0; 0; 0; 0; 0].

Definition grid51 : Grid :=
  Grid_of_OctaGrid (new_OctaGrid 5 1 false two_dead_ends).

(** An ambiguous layout of the 2 by 2 wrapping OctaGrid: octagon 0 joined to
    the four squares and to the octagons 1 and 2, octagon 1 to octagon 3 *)
Definition ambiguous_tree : list Z := [175; 80; 64; 4; 2; 2; 2; 2].


(** The states of the example of a round of [processDirtyCells]: the empty
    square 1 of [grid11] is dirty in a fresh solver of the puzzle [0; 0] *)
Definition round_start : Solver :=
  set_dirty [1] (new_Solver [0; 0]).

Definition round_middle : Solver :=
  Eval vm_compute in snd (propagate grid11 16 1 round_start).


(* ================================================================== *)
(** ** Generator.pregenerate_growingtree (generator.js, lines 66-325) *)

(** What the generator reads of a tile type and of a polygon. The polygon
    class is not among the available sources: its members are taken as they
    are used. [poly_key] stands for the identity of the polygon object,
    which is a key of the map [polygonForbidden]. [rotate] is called with
    an index by the constructor of [Cell] and without one by
    [randomRotate]. *)
Record TileType := mkTileType {
  tt_str : String.string;
  isFullyConnected : bool;
  isStraight : bool
}.

Record Polygon := mkPolygon {
  poly_key : Z;
  directions : list Z;
  poly_tileTypes : Z -> option TileType;
  poly_rotate : Z -> Z -> option Z -> Z;
  poly_fullyConnected : Z -> Z
}.

(** The grid as the generator uses it: the members the solver reads, and
    [polygon_at(index)], [getDirections(tile, rotations, index)] *)
Record GenGrid := mkGenGrid {
  base : Grid;
  polygon_at : Z -> Polygon;
  getDirections : Z -> Z -> Z -> list Z
}.

(** [Math.random()]: the successive draws are numbers of the interval
    [[0, 1)]; a run consumes them in order. *)
Definition Random : Type := nat -> Q.

(** [Math.random() < x] on the draw [k] *)
Definition random_below (rnd : Random) (k : nat) (x : Q) : bool :=
  negb (Qle_bool x (rnd k)).

(** [Math.floor(Math.random() * n)] on the draw [k] *)
Definition random_index (rnd : Random) (k : nat) (n : nat) : nat :=
  Z.to_nat (Qfloor (rnd k * inject_Z (Z.of_nat n))).

(** [tiles[i] += d], on an index of the array *)
Definition array_add (a : list Z) (i d : Z) : option (list Z) :=
  match array_get a i with
  | Some v => Some (list_set (Z.to_nat i) (v + d) a)
  | None => None
  end.

(** [array.indexOf(x)] then [array.splice(index, 1)]: the first occurrence
    goes; when [x] is absent, [splice(-1, 1)] removes the last element. *)
Fixpoint remove_first (x : Z) (a : list Z) : option (list Z) :=
  match a with
  | [] => None
  | y :: rest =>
      if x =? y then Some rest
      else match remove_first x rest with
           | Some rest' => Some (y :: rest')
           | None => None
           end
  end.

Definition splice_indexOf (x : Z) (a : list Z) : list Z :=
  match remove_first x a with
  | Some a' => a'
  | None => removelast a
  end.

(** A candidate move [{ neighbour, direction }] *)
Record Move := mkMove {
  neighbour : Z;
  direction : Z
}.

(** The state of the walk: the arrays and sets of lines 67-87, the component
    objects that [startComponents] refers to, and the number of draws made *)
Record Walk := mkWalk {
  w_tiles : list Z;
  unvisited : list Z;
  visited : list Z;
  avoiding : list Z;
  lastResortNodes : list Z;
  startComponents : list (Z * nat);
  w_heap : list (list Z);
  draws : nat
}.

Inductive GenExn :=
| FromNodeUndefined           (* 'Error in pregeneration: fromNode is undefined' *)
| CellExn (e : Exn).          (* thrown by [cell.applyConstraints()], line 173 *)

(** How a call ends: a returned value, a throw, or a run that leaves the
    model (a loop that does not end within the fuel, an index outside an
    array) *)
Inductive GenOutcome (A : Type) :=
| GRet (a : A)
| GThrow (e : GenExn)
| GBeyond.
Arguments GRet {A} a.
Arguments GThrow {A} e.
Arguments GBeyond {A}.

Section Pregenerate.

Variable gg : GenGrid.
Variable reuseTilesMinCount : Z.
Variable rnd : Random.
Variable fuel : nat.
Variables branchingAmount avoidObvious avoidStraights : Q.

Let g : Grid := base gg.

(** [startTiles[i] < 0], false on [undefined] *)
Definition ambiguous_at (startTiles : list Z) (i : Z) : bool :=
  match array_get startTiles i with
  | Some v => v <? 0
  | None => false
  end.

(** Lines 101-113: the flood fill from [to_visit], along the arms of
    [startTiles]; returns [(to_check, component)] *)
Fixpoint flood (n : nat) (startTiles : list Z) (to_visit to_check component : list Z)
  : option (list Z * list Z) :=
  match n with
  | O => None
  | S n' =>
      match to_visit with
      | [] => Some (to_check, component)
      | i :: rest =>
          let to_check := set_delete i to_check in
          let component := set_add i component in
          let to_visit :=
            fold_left
              (fun tv d =>
                 let '(nb, empty) := find_neighbour g i d in
                 if empty || ambiguous_at startTiles nb || set_has nb component
                 then tv else set_add nb tv)
              (getDirections gg (mask_at startTiles i) 0 i) rest in
          flood n' startTiles to_visit to_check component
      end
  end.

(** Lines 92-115: the components of the tiles that are not ambiguous *)
Fixpoint find_components (n : nat) (startTiles : list Z) (to_check : list Z)
  (components : list (list Z)) : option (list (list Z)) :=
  match n with
  | O => None
  | S n' =>
      match to_check with
      | [] => Some components
      | idx :: rest =>
          if ambiguous_at startTiles idx
          then find_components n' startTiles rest components
          else
            match flood fuel startTiles [idx] rest [] with
            | Some (to_check', component) =>
                find_components n' startTiles to_check' (components ++ [component])
            | None => None
            end
      end
  end.

(** [components.sort((a, b) => -(a.size - b.size))]: larger first, the
    order of equal sizes kept *)
Fixpoint insert_by_size (c : list Z) (sorted : list (list Z)) : list (list Z) :=
  match sorted with
  | [] => [c]
  | c' :: rest =>
      if (length c' <? length c)%nat then c :: sorted
      else c' :: insert_by_size c rest
  end.

Definition sort_by_size (components : list (list Z)) : list (list Z) :=
  fold_left (fun sorted c => insert_by_size c sorted) components [].

(** Lines 119-124 and 135-140: the arms of [startTiles[index]] that stay
    inside [component] are added to [tiles[index]] *)
Definition reuse_arms (startTiles : list Z) (component : list Z) (idx : Z)
  (tl : list Z) : option (list Z) :=
  fold_left
    (fun acc d =>
       match acc with
       | Some tl =>
           if set_has (fst (find_neighbour g idx d)) component
           then array_add tl idx d else Some tl
       | None => None
       end)
    (getDirections gg (mask_at startTiles idx) 0 idx) (Some tl).

(** Lines 129-142: the smaller components that are large enough *)
Fixpoint reuse_smaller (startTiles : list Z) (components : list (list Z))
  (w : Walk) : option Walk :=
  match components with
  | [] => Some w
  | component :: rest =>
      if Z.of_nat (length component) <? reuseTilesMinCount then Some w
      else
        let ref := length (w_heap w) in
        let step :=
          fold_left
            (fun acc idx =>
               match acc with
               | Some (sc, tl) =>
                   match reuse_arms startTiles component idx tl with
                   | Some tl' => Some (map_set idx ref sc, tl')
                   | None => None
                   end
               | None => None
               end)
            component (Some (startComponents w, w_tiles w)) in
        match step with
        | Some (sc, tl) =>
            reuse_smaller startTiles rest
              (mkWalk tl (unvisited w) (visited w) (avoiding w)
                 (lastResortNodes w) sc (w_heap w ++ [component]) (draws w))
        | None => None
        end
  end.

(** Lines 67-143: the state before the walk *)
Definition prepare (startTiles : list Z) : option Walk :=
  let total := total g in
  let cells := map Z.of_nat (seq 0 (Z.to_nat total)) in
  let unv := fold_left (fun u idx => set_delete idx u) (emptyCells g) cells in
  let w0 := mkWalk (map (fun _ => 0) cells) unv [] [] [] [] [] 0 in
  if Z.of_nat (length startTiles) =? total then
    match find_components fuel startTiles unv [] with
    | None => None
    | Some components =>
        match sort_by_size components with
        | [] => Some w0
        | largest :: smaller =>
            let first :=
              fold_left
                (fun acc idx =>
                   match acc with
                   | Some w =>
                       match reuse_arms startTiles largest idx (w_tiles w) with
                       | Some tl =>
                           Some (mkWalk tl (set_delete idx (unvisited w))
                                   (visited w ++ [idx]) (avoiding w)
                                   (lastResortNodes w) (startComponents w)
                                   (w_heap w) (draws w))
                       | None => None
                       end
                   | None => None
                   end)
                largest (Some w0) in
            match first with
            | Some w => reuse_smaller startTiles smaller w
            | None => None
            end
        end
    end
  else Some w0.

(** Lines 171-188: the orientations that a wall pattern makes obvious on a
    polygon: those that are alone of their tile type among the orientations
    left by the walls. [None]: [applyConstraints] threw. *)
Definition group_by_type (p : Polygon) (orientations : list Z)
  : list (String.string * list Z) :=
  fold_left
    (fun groups o =>
       let tileType :=
         match poly_tileTypes p o with
         | Some t => tt_str t
         | None => String.EmptyString
         end in
       (fix add (gs : list (String.string * list Z)) :=
          match gs with
          | [] => [(tileType, [o])]
          | (k, os) :: rest =>
              if String.eqb k tileType then (k, set_add o os) :: rest
              else (k, os) :: add rest
          end) groups)
    orientations [].

Definition obvious_orientations (p : Polygon) (w : Z) : option (list Z) :=
  match new_Cell fuel (fun t r i => poly_rotate p t r (Some i))
          (poly_fullyConnected p) (-1) None with
  | None => None
  | Some c =>
      match applyConstraints (poly_fullyConnected p (-1)) (addWall w c) with
      | (_, None) => None
      | (c', Some _) =>
          Some (fold_left
                  (fun forbidden entry =>
                     match snd entry with
                     | [o] => set_add o forbidden
                     | _ => forbidden
                     end)
                  (group_by_type p (possible c')) [])
      end
  end.

(** Lines 146-195: [tileForbidden], the map from a tile index to its
    forbidden orientations (with the cache [polygonForbidden], keyed by the
    polygon and the walls) *)
Definition borders_of (tileIndex : Z) : Z :=
  fold_left
    (fun b d => if snd (find_neighbour g tileIndex d) then b + d else b)
    (directions (polygon_at gg tileIndex)) 0.

Definition find_forbidden (cache : list (Z * Z * list Z)) (key w : Z)
  : option (list Z) :=
  match find (fun e => (fst (fst e) =? key) && (snd (fst e) =? w)) cache with
  | Some e => Some (snd e)
  | None => None
  end.

Definition tileForbidden_of (unv : list Z) : GenOutcome (list (Z * list Z)) :=
  if Qle_bool avoidObvious 0 then GRet []
  else
    let result :=
      fold_left
        (fun acc tileIndex =>
           match acc with
           | GRet (cache, tf) =>
               let p := polygon_at gg tileIndex in
               let w := borders_of tileIndex in
               if 0 <? w then
                 match find_forbidden cache (poly_key p) w with
                 | Some wallForbidden =>
                     GRet (cache,
                           if (0 <? length wallForbidden)%nat
                           then map_set tileIndex wallForbidden tf else tf)
                 | None =>
                     match obvious_orientations p w with
                     | None => GThrow (CellExn NoOrientationsPossible)
                     | Some wallForbidden =>
                         GRet (cache ++ [(poly_key p, w, wallForbidden)],
                               if (0 <? length wallForbidden)%nat
                               then map_set tileIndex wallForbidden tf else tf)
                     end
                 end
               else GRet (cache, tf)
           | other => other
           end)
        unv (GRet ([], [])) in
    match result with
    | GRet (_, tf) => GRet tf
    | GThrow e => GThrow e
    | GBeyond => GBeyond
    end.

(** [t?.isFullyConnected], [t?.isStraight] as conditions *)
Definition fully (t : option TileType) : bool :=
  match t with Some ty => isFullyConnected ty | None => false end.
Definition straight (t : option TileType) : bool :=
  match t with Some ty => isStraight ty | None => false end.

(** Lines 208-220: the node to go from, [(fromNode, draws)] *)
Definition choose_from (usePrims : bool) (w : Walk) (k : nat) : Z * nat :=
  match find (fun nodes => negb (Nat.eqb (length nodes) 0))
          [visited w; avoiding w; lastResortNodes w] with
  | Some nodes =>
      if usePrims
      then (nth (random_index rnd k (length nodes)) nodes 0, S k)
      else (last nodes 0, k)
  | None => (0, k)
  end.

(** The four tiers of lines 225-228 *)
Record Tiers := mkTiers {
  unvisitedNeighbours : list Move;
  straightNeighbours : list Move;
  obviousNeighbours : list Move;
  fullyConnectedNeighbours : list Move
}.

(** Lines 232-264: the body of the loop over the directions of the polygon *)
Definition classify_move (tileForbidden : list (Z * list Z)) (w : Walk)
  (fromNode : Z) (acc : Tiers * nat) (d : Z) : Tiers * nat :=
  let connections := mask_at (w_tiles w) fromNode in
  let polygon := polygon_at gg fromNode in
  let '(t, k) := acc in
  if 0 <? band d connections then (t, k)
  else
    let '(nb, empty) := find_neighbour g fromNode d in
    if empty || negb (set_has nb (unvisited w)) then (t, k)
    else if fully (poly_tileTypes polygon (connections + d))
            || ((0 <? mask_at (w_tiles w) nb)
                && fully (poly_tileTypes (polygon_at gg nb)
                            (mask_at (w_tiles w) nb + opposite_or_0 g d)))
    then (mkTiers (unvisitedNeighbours t) (straightNeighbours t)
            (obviousNeighbours t)
            (fullyConnectedNeighbours t ++ [mkMove nb d]), k)
    else
      let '(obvious, k) :=
        match map_get fromNode tileForbidden with
        | Some nogo =>
            (random_below rnd k avoidObvious
             && set_has (mask_at (w_tiles w) fromNode + d) nogo, S k)
        | None => (false, k)
        end in
      if obvious
      then (mkTiers (unvisitedNeighbours t) (straightNeighbours t)
              (obviousNeighbours t ++ [mkMove nb d])
              (fullyConnectedNeighbours t), k)
      else
        let '(avoid, k) :=
          if straight (poly_tileTypes polygon (connections + d))
          then (random_below rnd k avoidStraights, S k)
          else (false, k) in
        if avoid
        then (mkTiers (unvisitedNeighbours t)
                (straightNeighbours t ++ [mkMove nb d])
                (obviousNeighbours t) (fullyConnectedNeighbours t), k)
        else (mkTiers (unvisitedNeighbours t ++ [mkMove nb d])
                (straightNeighbours t) (obviousNeighbours t)
                (fullyConnectedNeighbours t), k).

(** Lines 225-265: the classification of the moves from [fromNode] *)
Definition classify (tileForbidden : list (Z * list Z)) (w : Walk)
  (fromNode : Z) (k : nat) : Tiers * nat :=
  fold_left (classify_move tileForbidden w fromNode)
    (directions (polygon_at gg fromNode)) (mkTiers [] [] [] [], k).

(** Which tier a move was taken from *)
Inductive Source := FromUnvisited | FromStraight | FromObvious | FromFully.

(** Lines 266-279: the first tier that is not empty, and a move of it *)
Definition choose_move (t : Tiers) (k : nat) : option (Source * Move) * nat :=
  let pick src options :=
    (Some (src, nth (random_index rnd k (length options)) options (mkMove 0 0)), S k) in
  match unvisitedNeighbours t, straightNeighbours t, obviousNeighbours t,
        fullyConnectedNeighbours t with
  | _ :: _, _, _, _ => pick FromUnvisited (unvisitedNeighbours t)
  | [], _ :: _, _, _ => pick FromStraight (straightNeighbours t)
  | [], [], _ :: _, _ => pick FromObvious (obviousNeighbours t)
  | [], [], [], _ :: _ => pick FromFully (fullyConnectedNeighbours t)
  | [], [], [], [] => (None, k)
  end.

(** Lines 281-291: no move from [fromNode]; it leaves the first list that
    is not empty *)
Definition retire (usePrims : bool) (fromNode : Z) (w : Walk) (k : nat) : Walk :=
  let drop nodes := if usePrims then splice_indexOf fromNode nodes else removelast nodes in
  match visited w, avoiding w, lastResortNodes w with
  | _ :: _, _, _ =>
      mkWalk (w_tiles w) (unvisited w) (drop (visited w)) (avoiding w)
        (lastResortNodes w) (startComponents w) (w_heap w) k
  | [], _ :: _, _ =>
      mkWalk (w_tiles w) (unvisited w) [] (drop (avoiding w))
        (lastResortNodes w) (startComponents w) (w_heap w) k
  | [], [], _ =>
      mkWalk (w_tiles w) (unvisited w) [] [] (drop (lastResortNodes w))
        (startComponents w) (w_heap w) k
  end.

(** Lines 310-322: the move is made *)
Definition commit (fromNode : Z) (m : Move) (w : Walk) (k : nat) : option Walk :=
  match array_add (w_tiles w) fromNode (direction m) with
  | None => None
  | Some tl1 =>
      let '(heap1, unv1, vis1) :=
        if 0 <? mask_at tl1 (neighbour m) then
          match map_get (neighbour m) (startComponents w) with
          | Some ref =>
              let component := set_delete (neighbour m) (nth ref (w_heap w) []) in
              (list_set ref component (w_heap w),
               fold_left (fun u i => set_delete i u) component (unvisited w),
               visited w ++ component)
          | None => (w_heap w, unvisited w, visited w)
          end
        else (w_heap w, unvisited w, visited w) in
      match array_add tl1 (neighbour m) (opposite_or_0 g (direction m)) with
      | None => None
      | Some tl2 =>
          Some (mkWalk tl2 (set_delete (neighbour m) unv1)
                  (vis1 ++ [neighbour m]) (avoiding w) (lastResortNodes w)
                  (startComponents w) heap1 k)
      end
  end.

(** One round of the loop [while (unvisited.size > 0)] *)
Definition walk_step (tileForbidden : list (Z * list Z)) (w : Walk) : option Walk :=
  let k := draws w in
  let usePrims := random_below rnd k branchingAmount in
  let '(fromNode, k) := choose_from usePrims w (S k) in
  let '(tiers, k) := classify tileForbidden w fromNode k in
  match choose_move tiers k with
  | (None, k) => Some (retire usePrims fromNode w k)
  | (Some (src, m), k) =>
      let demote_to_last :=
        mkWalk (w_tiles w) (unvisited w) (splice_indexOf fromNode (visited w))
          (avoiding w) (lastResortNodes w ++ [fromNode]) (startComponents w)
          (w_heap w) k in
      let demote_to_avoiding :=
        mkWalk (w_tiles w) (unvisited w) (splice_indexOf fromNode (visited w))
          (avoiding w ++ [fromNode]) (lastResortNodes w) (startComponents w)
          (w_heap w) k in
      match src, visited w with
      | FromFully, _ :: _ => Some demote_to_last
      | FromObvious, _ :: _ => Some demote_to_avoiding
      | _, _ => commit fromNode m w k
      end
  end.

Fixpoint walk (n : nat) (tileForbidden : list (Z * list Z)) (w : Walk)
  : GenOutcome (list Z) :=
  match n with
  | O => GBeyond
  | S n' =>
      match unvisited w with
      | [] => GRet (w_tiles w)
      | _ :: _ =>
          match walk_step tileForbidden w with
          | Some w' => walk n' tileForbidden w'
          | None => GBeyond
          end
      end
  end.

(** Lines 197-203: the start of the walk when nothing was reused. On an
    empty [unvisited] the pushed index is [undefined]; the loop is then not
    entered and [visited] is not read again. *)
Definition start_walk (w : Walk) : Walk :=
  match visited w with
  | [] =>
      let k := draws w in
      match nth_error (unvisited w) (random_index rnd k (length (unvisited w))) with
      | Some startIndex =>
          mkWalk (w_tiles w) (set_delete startIndex (unvisited w)) [startIndex]
            (avoiding w) (lastResortNodes w) (startComponents w) (w_heap w) (S k)
      | None =>
          mkWalk (w_tiles w) (unvisited w) [] (avoiding w) (lastResortNodes w)
            (startComponents w) (w_heap w) (S k)
      end
  | _ :: _ => w
  end.

(** [pregenerate_growingtree(branchingAmount, avoidObvious, avoidStraights,
    startTiles)] *)
Definition pregenerate_growingtree (startTiles : list Z) : GenOutcome (list Z) :=
  match prepare startTiles with
  | None => GBeyond
  | Some w0 =>
      match tileForbidden_of (unvisited w0) with
      | GRet tileForbidden => walk fuel tileForbidden (start_walk w0)
      | GThrow e => GThrow e
      | GBeyond => GBeyond
      end
  end.

End Pregenerate.

(* ================================================================== *)
(** ** randomRotate and Generator.generate (generator.js, lines 22-32 and
       335-402) *)

Inductive SolutionsNumber := sn_unique | sn_multiple | sn_whatever | sn_unknown.

Inductive GenError :=
| CouldNotGenerateUnique      (* 'Could not generate a puzzle with a unique solution. ...' *)
| CouldNotGenerateMultiple    (* 'Could not generate a puzzle with multiple solutions ...' *)
| UnknownSetting              (* 'Unknown setting for solutionsNumber' *)
| FromPregenerate (e : GenExn). (* thrown inside [pregenerate_growingtree] *)

Inductive GenResult :=
| GenReturn (generated : list (option Z))
| GenThrow (e : GenError)
| GenBeyond.

(** The object logged on line 371 *)
Record LogEntry := mkLogEntry {
  log_attempt : Z;
  log_uniqueIter : Z;
  log_ambiguous : option Z;
  log_patienceLeft : Z
}.

(** What a run of [generate] shows: its result, the console, and the
    [startTiles] handed to [pregenerate_growingtree], call after call *)
Record GenRun := mkGenRun {
  gen_result : GenResult;
  gen_console : list LogEntry;
  gen_seeds : list (list (option Z))
}.

(** [a >= b] on values that are a Number or [undefined]: a comparison with
    [undefined] is a comparison with NaN *)
Definition js_ge (a b : option Z) : bool :=
  match a, b with
  | Some x, Some y => y <=? x
  | _, _ => false
  end.

(** An array without holes, as an array of Numbers *)
Fixpoint numbers (a : list (option Z)) : option (list Z) :=
  match a with
  | [] => Some []
  | Some v :: rest =>
      match numbers rest with
      | Some r => Some (v :: r)
      | None => None
      end
  | None :: _ => None
  end.

(** [randomRotate(tiles, grid)]: [map] leaves the holes of an array alone;
    a tile that is not 0 takes one draw. *)
Definition randomRotate (gg : GenGrid) (rot : Random) (tl : list (option Z))
  : list (option Z) :=
  fst (fst
    (fold_left
       (fun acc tile =>
          let '(out, idx, k) := acc in
          match tile with
          | None => (out ++ [None], idx + 1, k)
          | Some t =>
              if t =? 0 then (out ++ [Some 0], idx + 1, k)
              else
                let polygon := polygon_at gg idx in
                let numDirections := length (directions polygon) in
                (out ++ [Some (poly_rotate polygon t
                                 (Z.of_nat (random_index rot k numDirections)) None)],
                 idx + 1, S k)
          end)
       tl ([], 0, O))).

Section Generator.

Variable gg : GenGrid.
(** The constructor's [reuseTilesMinCount], [uniquenessPatience],
    [maxUniquenessIterations] and [maxAttempts] *)
Variable reuseTilesMinCount : Z.
Variables uniquenessPatience maxUniquenessIterations maxAttempts : Z.
(** [rnd n] holds the draws of [Math.random] during the call number [n] of
    [pregenerate_growingtree], [rot] those of [randomRotate]. *)
Variable rnd : nat -> Random.
Variable rot : Random.
Variable fuel : nat.
Variables branchingAmount avoidObvious avoidStraights : Q.

(** The call number [calls] of [this.pregenerate_growingtree(branchingAmount,
    avoidObvious, avoidStraights, startTiles)]. A [startTiles] with a hole is
    outside the model: [marked] has none when [tiles] has none. *)
Definition pregenerate (calls : nat) (startTiles : list (option Z))
  : GenOutcome (list Z) :=
  match numbers startTiles with
  | Some st =>
      pregenerate_growingtree gg reuseTilesMinCount (rnd calls) fuel
        branchingAmount avoidObvious avoidStraights st
  | None => GBeyond
  end.

(** How [generate] ends when a call of [pregenerate_growingtree] does not
    return *)
Definition not_returned (o : GenOutcome (list Z)) : GenResult :=
  match o with
  | GThrow e => GenThrow (FromPregenerate e)
  | _ => GenBeyond
  end.

(** [new Solver(tiles, this.grid).markAmbiguousTiles(ambiguous)]; the
    argument is ignored, [markAmbiguousTiles] has no parameter. *)
Definition mark (tl : list Z) : Res MarkResult :=
  markAmbiguousTiles (base gg) fuel (new_Solver tl).

(** The property [numAmbiguous] of the object [markAmbiguousTiles] returns:
    the object is [{ marked, solvable, unique }], so destructuring gives
    [undefined]. *)
Definition numAmbiguous_of (r : MarkResult) : option Z := None.

(** The loop [while (uniqueIter < this.maxUniquenessIterations)], entered
    with [n] rounds to go. It ends with [inl] of the result of [generate]
    or with [inr] of the [startTiles] when the loop is left; the count of
    calls to [pregenerate_growingtree], the console and the seeds go along. *)
Fixpoint unique_inner (n : nat) (attempt uniqueIter patienceLeft : Z)
  (ambiguous : option Z) (startTiles : list (option Z)) (tl : list Z)
  (calls : nat) (console : list LogEntry) (seeds : list (list (option Z)))
  : (GenResult + list (option Z)) * nat * list LogEntry * list (list (option Z)) :=
  match n with
  | O => (inr startTiles, calls, console, seeds)
  | S n' =>
      let uniqueIter := uniqueIter + 1 in
      match mark tl with
      | Ret r =>
          if unique r then
            (inl (GenReturn (randomRotate gg rot (marked r))), calls, console, seeds)
          else
            let numAmbiguous := numAmbiguous_of r in
            let '(patienceLeft, ambiguous, startTiles) :=
              if js_ge numAmbiguous ambiguous
              then (patienceLeft - 1, ambiguous, startTiles)
              else (uniquenessPatience, numAmbiguous, marked r) in
            let console :=
              console ++ [mkLogEntry attempt uniqueIter numAmbiguous patienceLeft] in
            if patienceLeft =? 0 then (inr startTiles, calls, console, seeds)
            else
              match pregenerate calls startTiles with
              | GRet tl' =>
                  unique_inner n' attempt uniqueIter patienceLeft ambiguous
                    startTiles tl' (S calls) console (seeds ++ [startTiles])
              | other =>
                  (inl (not_returned other), S calls, console, seeds ++ [startTiles])
              end
      | _ => (inl GenBeyond, calls, console, seeds)
      end
  end.

(** The loop [while (attempt < this.maxAttempts)] of the 'unique' branch *)
Fixpoint unique_outer (n : nat) (attempt : Z) (startTiles : list (option Z))
  (calls : nat) (console : list LogEntry) (seeds : list (list (option Z)))
  : GenRun :=
  match n with
  | O => mkGenRun (GenThrow CouldNotGenerateUnique) console seeds
  | S n' =>
      let attempt := attempt + 1 in
      match pregenerate calls startTiles with
      | GRet tl =>
          match
            unique_inner (Z.to_nat maxUniquenessIterations) attempt 0
              uniquenessPatience (Some (total (base gg))) startTiles tl (S calls)
              console (seeds ++ [startTiles])
          with
          | (inl result, _, console', seeds') => mkGenRun result console' seeds'
          | (inr startTiles', calls', console', seeds') =>
              unique_outer n' attempt startTiles' calls' console' seeds'
          end
      | other => mkGenRun (not_returned other) console (seeds ++ [startTiles])
      end
  end.

(** The loop of the 'multiple' branch *)
Fixpoint multiple_outer (n : nat) (calls : nat) (seeds : list (list (option Z)))
  : GenRun :=
  match n with
  | O => mkGenRun (GenThrow CouldNotGenerateMultiple) [] seeds
  | S n' =>
      match pregenerate calls [] with
      | GRet tl =>
          match mark tl with
          | Ret r =>
              if negb (unique r)
              then mkGenRun (GenReturn (randomRotate gg rot (map Some tl))) []
                     (seeds ++ [[]])
              else multiple_outer n' (S calls) (seeds ++ [[]])
          | _ => mkGenRun GenBeyond [] (seeds ++ [[]])
          end
      | other => mkGenRun (not_returned other) [] (seeds ++ [[]])
      end
  end.

(** [generate(branchingAmount, avoidObvious, avoidStraights, solutionsNumber)] *)
Definition generate (solutionsNumber : SolutionsNumber) : GenRun :=
  match solutionsNumber with
  | sn_unique => unique_outer (Z.to_nat maxAttempts) 0 [] 0 [] []
  | sn_whatever =>
      match pregenerate 0 [] with
      | GRet tl => mkGenRun (GenReturn (randomRotate gg rot (map Some tl))) [] [[]]
      | other => mkGenRun (not_returned other) [] [[]]
      end
  | sn_multiple => multiple_outer (Z.to_nat maxAttempts) 0 []
  | sn_unknown => mkGenRun (GenThrow UnknownSetting) [] []
  end.

End Generator.

(** An OctaGrid as a grid of the generator. octagrid.js has no
    [polygon_at], which generator.js calls (lines 155, 230, 242): the grid
    of the examples is an OctaGrid to which the method is added,
    [polygon_at(index)] giving an object with the directions of the cell (all
    eight for an octagon, the four diagonals for a square), an empty map of
    tile types, and [rotate] and [fullyConnected] of the grid.
    [getDirections] is the method of octagrid.js. *)
Definition octa_polygon (o : OctaGrid) (idx : Z) : Polygon :=
  let square := width o * height o <=? idx in
  mkPolygon (if square then 1 else 0)
    (if square then [NORTHEAST; NORTHWEST; SOUTHWEST; SOUTHEAST] else octa_DIRECTIONS)
    (fun _ => None) (fun t r _ => octa_rotate t r 0)
    (fun _ => if square then 170 else 255).

Definition octa_getDirections (tile rotations idx : Z) : list Z :=
  filter (fun d => 0 <? band d (octa_rotate tile rotations 0)) octa_DIRECTIONS.

Definition GenGrid_of_OctaGrid (o : OctaGrid) : GenGrid :=
  mkGenGrid (Grid_of_OctaGrid o) (octa_polygon o) octa_getDirections.

(** A row of four octagons with the square between the first two; octagon 2
    and the other squares are empty
    ([new OctaGrid(4, 1, false, [1, 1, 0, 1, 1, 0, 0, 0])]): the cells 0, 1
    and 4 touch each other, the cell 3 touches none of them. *)
Definition islands : GenGrid :=
  GenGrid_of_OctaGrid (new_OctaGrid 4 1 false [1; 1; 0; 1; 1; 0; 0; 0]).

(** The draws of the example: the walk starts from the third cell that is
    not empty, then takes the first candidate each time. *)
Definition islands_draws : Random :=
  fun k => match k with O => (1 # 2)%Q | _ => 0%Q end.

(** An OctaGrid whose cells are all empty *)
Definition no_cells : GenGrid :=
  GenGrid_of_OctaGrid (new_OctaGrid 1 1 false [0; 0]).

(** The 2 by 2 OctaGrid without wrap ([new OctaGrid(2, 2, false)], with
    [polygon_at]): four octagons and the square between them; the squares of
    the last row and of the last column are empty. *)
Definition small_board : GenGrid :=
  GenGrid_of_OctaGrid (new_OctaGrid 2 2 false []).

(** The run of the example: [new Generator(grid, 3, 2, 5, 1).generate()] on
    the 2 by 2 wrapping OctaGrid (with [polygon_at]), when every call of
    [Math.random] returns 0.9: [uniquenessPatience = 2],
    [maxUniquenessIterations = 5], [maxAttempts = 1] and the default
    [branchingAmount = 0.6]. *)
Definition stubborn_run : GenRun :=
  generate (GenGrid_of_OctaGrid octa22) 3 2 5 1
    (fun _ _ => (9 # 10)%Q) (fun _ => (9 # 10)%Q) 200
    (3 # 5)%Q 0%Q 0%Q sn_unique.

(* ================================================================== *)
(** ** The spanning tree property of a layout, and the grids on which the
       walk is meant to run *)

(** [i] and [j] are joined by a mutual connection of [layout] *)
Definition linked (g : Grid) (layout : list Z) (i j : Z) : Prop :=
  exists d, In d (edges_from g layout i) /\ fst (find_neighbour g i d) = j.

(** Every non-empty cell is reachable from every other one *)
Definition Connected (g : Grid) (layout : list Z) : Prop :=
  forall i j, In i (grid_cells g) -> In j (grid_cells g) ->
    clos_refl_trans Z (linked g layout) i j.

(** Connected, with one edge less than there are non-empty cells
    ([edge_ends] counts every edge at both ends) *)
Definition SpanningTree (g : Grid) (layout : list Z) : Prop :=
  Connected g layout
  /\ (edge_ends g layout + 2 = 2 * length (grid_cells g))%nat.

(** [j] is the neighbour of [i] in a direction of the polygon of [i] *)
Definition adjacent (gg : GenGrid) (i j : Z) : Prop :=
  exists d, In d (directions (polygon_at gg i))
            /\ find_neighbour (base gg) i d = (j, false).

(** The contract of a grid: there is a cell; the directions are positive
    masks without a common bit and the polygons use them; a neighbour that is
    not empty is a cell, and the opposite direction leads back from it; the
    cells that are not empty hang together. *)
Record grid_ok (gg : GenGrid) : Prop := mk_grid_ok {
  cells_exist : grid_cells (base gg) <> [];
  dirs_apart : directions_apart (base gg);
  poly_dirs : forall i, In i (grid_cells (base gg)) ->
    incl (directions (polygon_at gg i)) (DIRECTIONS (base gg));
  way_back : forall i d j,
    In i (grid_cells (base gg)) ->
    In d (directions (polygon_at gg i)) ->
    find_neighbour (base gg) i d = (j, false) ->
    In j (grid_cells (base gg))
    /\ exists d', OPPOSITE (base gg) d = Some d'
         /\ In d' (directions (polygon_at gg j))
         /\ find_neighbour (base gg) j d' = (i, false)
         /\ OPPOSITE (base gg) d' = Some d;
  cells_hang_together : forall i j,
    In i (grid_cells (base gg)) -> In j (grid_cells (base gg)) ->
    clos_refl_trans Z (adjacent gg) i j
}.

(** Every draw of [Math.random()] lies in [[0, 1)] *)
Definition draws_ok (rnd : Random) : Prop :=
  forall k, (0 <= rnd k)%Q /\ (rnd k < 1)%Q.

(** C2 as worded, for one run: a returned layout is a spanning tree *)
Definition returns_spanning_tree (gg : GenGrid) (reuseTilesMinCount : Z)
  (rnd : Random) (fuel : nat) (branchingAmount avoidObvious avoidStraights : Q)
  : Prop :=
  forall layout,
    pregenerate_growingtree gg reuseTilesMinCount rnd fuel branchingAmount
      avoidObvious avoidStraights [] = GRet layout ->
    SpanningTree (base gg) layout.

(** The moves of the four tiers together *)
Definition all_moves (t : Tiers) : list Move :=
  unvisitedNeighbours t ++ straightNeighbours t ++ obviousNeighbours t
  ++ fullyConnectedNeighbours t.

(** A move that the loop of lines 232-264 may offer from [fromNode] *)
Definition offered (gg : GenGrid) (w : Walk) (fromNode : Z) (m : Move) : Prop :=
  In (direction m) (directions (polygon_at gg fromNode))
  /\ (0 <? band (direction m) (mask_at (w_tiles w) fromNode)) = false
  /\ find_neighbour (base gg) fromNode (direction m) = (neighbour m, false)
  /\ In (neighbour m) (unvisited w).

(** No move from [fromNode] in the direction [d] *)
Definition blocked (gg : GenGrid) (w : Walk) (fromNode d : Z) : Prop :=
  (0 <? band d (mask_at (w_tiles w) fromNode)) = true
  \/ snd (find_neighbour (base gg) fromNode d) = true
  \/ set_has (fst (find_neighbour (base gg) fromNode d)) (unvisited w) = false.

(** The measure that every round of the walk decreases *)
Definition walk_measure (w : Walk) : nat :=
  4 * length (unvisited w) + 3 * length (visited w)
  + 2 * length (avoiding w) + length (lastResortNodes w).

(** The invariant of the walk when nothing is reused. A cell is joined once
    it has left [unvisited]; the masks of the joined cells form a tree on
    them, and every joined cell that still has an unvisited neighbour waits
    in one of the three lists. *)
Definition has_arm (layout : list Z) (i d : Z) : Prop :=
  band (mask_at layout i) d <> 0.

Definition joined (g : Grid) (w : Walk) (i : Z) : Prop :=
  In i (grid_cells g) /\ ~ In i (unvisited w).

Definition waiting (w : Walk) : list Z :=
  visited w ++ avoiding w ++ lastResortNodes w.

Definition joined_count (g : Grid) (w : Walk) : nat :=
  length (filter (fun i => negb (set_has i (unvisited w))) (grid_cells g)).

(** The cells that have not joined have no arm *)
Definition rest_clear (gg : GenGrid) (w : Walk) : Prop :=
  forall i, ~ joined (base gg) w i -> mask_at (w_tiles w) i = 0.

(** Every arm of a joined cell is an arm of its polygon and meets the
    opposite arm of a joined neighbour *)
Definition arms_met (gg : GenGrid) (w : Walk) : Prop :=
  forall i d,
    joined (base gg) w i -> In d (DIRECTIONS (base gg)) ->
    has_arm (w_tiles w) i d ->
    In d (directions (polygon_at gg i))
    /\ exists j d',
         find_neighbour (base gg) i d = (j, false)
         /\ joined (base gg) w j
         /\ OPPOSITE (base gg) d = Some d'
         /\ has_arm (w_tiles w) j d'.

Record walk_inv (gg : GenGrid) (w : Walk) : Prop := mk_walk_inv {
  inv_len : length (w_tiles w) = Z.to_nat (total (base gg));
  inv_unv : incl (unvisited w) (grid_cells (base gg));
  inv_zero : rest_clear gg w;
  inv_mask : forall i, joined (base gg) w i -> int31 (mask_at (w_tiles w) i);
  inv_arms : arms_met gg w;
  inv_conn : forall i j,
    joined (base gg) w i -> joined (base gg) w j ->
    clos_refl_trans Z (linked (base gg) (w_tiles w)) i j;
  inv_count :
    (edge_ends (base gg) (w_tiles w) + 2 = 2 * joined_count (base gg) w)%nat;
  inv_some : exists i, joined (base gg) w i;
  inv_waiting : forall i, In i (waiting w) -> joined (base gg) w i;
  inv_front : forall i d j,
    joined (base gg) w i ->
    In d (directions (polygon_at gg i)) ->
    find_neighbour (base gg) i d = (j, false) ->
    In j (unvisited w) ->
    In i (waiting w);
  inv_sc : startComponents w = []
}.


(* ================================================================== *)
(** ** The first pass of the solver: what a board has to provide, and the
       invariant of the pass *)

(** An index of the tile array *)
Definition on_board (g : Grid) (i : Z) : Prop := 0 <= i < total g.

(** The direction [d] is marked in the cell, as a wall or as a connection *)
Definition claimed (c : Cell) (d : Z) : Prop :=
  Z.land (walls c) d <> 0 \/ Z.land (connections c) d <> 0.

(** The masks of the cell lie within [full], and no direction is both a wall
    and a connection *)
Definition cell_sound (full : Z) (c : Cell) : Prop :=
  within full (walls c) /\ within full (connections c)
  /\ Z.land (walls c) (connections c) = 0
  /\ Forall (within full) (possible c).

(** The mask of all the directions of the grid *)
Definition all_directions (g : Grid) : Z := fold_right Z.lor 0 (DIRECTIONS g).

(** The contract between the solver, the grid and the tile array: the
    directions are distinct single bits; the fully connected tile of a cell
    is a mask of directions; a neighbour that is not reported empty is a cell of the board
    that is not empty, reached in a direction of the cell, and the opposite
    direction is one of the neighbour and leads back from it (reported empty
    exactly when the cell one came from is); there is one tile for each cell, every tile is a mask of
    its cell, an empty cell holds the tile 0, and a rotation turns a mask of
    directions into a mask of directions (on an [OctaGrid] the rotation of a
    tile of a square may point along a side of the square: the masks of
    directions, not those of the cell, are closed under [rotate]). *)
Record board_ok (g : Grid) (tl : list Z) : Prop := mk_board_ok {
  bo_bits : Forall (fun d => exists k, 0 <= k < 31 /\ d = 2 ^ k) (DIRECTIONS g);
  bo_nodup : NoDup (DIRECTIONS g);
  bo_full : forall i, on_board g i -> int31 (fullyConnected g i);
  bo_mask : forall i,
    on_board g i -> within (all_directions g) (fullyConnected g i);
  bo_edge : forall i d n,
    on_board g i -> In d (DIRECTIONS g) ->
    find_neighbour g i d = (n, false) ->
    on_board g n /\ ~ In n (emptyCells g)
    /\ Z.land (fullyConnected g i) d = d
    /\ exists e, OPPOSITE g d = Some e /\ In e (DIRECTIONS g)
         /\ Z.land (fullyConnected g n) e = e
         /\ find_neighbour g n e = (i, set_has i (emptyCells g))
         /\ OPPOSITE g e = Some d;
  bo_tiles : Z.of_nat (length tl) = total g;
  bo_tile : forall i t,
    on_board g i -> array_get tl i = Some t -> within (fullyConnected g i) t;
  bo_empty : forall i,
    on_board g i -> In i (emptyCells g) ->
    array_get tl i = Some 0 /\ rotate g 0 1 i = 0;
  bo_rotate : forall i o,
    on_board g i -> within (all_directions g) o ->
    within (all_directions g) (rotate g o 1 i)
}.

(** The cell [n] has given its final step, or it has the direction [e]
    marked *)
Definition answered (done : list Z) (u : list (Z * Cell)) (n e : Z) : Prop :=
  In n done \/ exists c, map_get n u = Some c /\ claimed c e.

(** Every mark of a cell towards a neighbour is known at the other end,
    apart from the marks that are [pending]: those on their way in the
    current round of [processDirtyCells] *)
Definition edges_answered (g : Grid) (pending : Z -> Z -> Prop)
  (done : list Z) (u : list (Z * Cell)) : Prop :=
  forall i c d n e,
    map_get i u = Some c -> In d (DIRECTIONS g) -> claimed c d ->
    find_neighbour g i d = (n, false) -> OPPOSITE g d = Some e ->
    pending i d \/ answered done u n e.

(** The same for the cells that have given their final step *)
Definition done_answered (g : Grid) (done : list Z) (u : list (Z * Cell)) : Prop :=
  forall n d c e,
    In n done -> ~ In n (emptyCells g) -> In d (DIRECTIONS g) ->
    find_neighbour g n d = (c, false) -> OPPOSITE g d = Some e ->
    answered done u c e.

Definition cells_sound (g : Grid) (u : list (Z * Cell)) : Prop :=
  forall i c, map_get i u = Some c ->
    on_board g i /\ cell_sound (fullyConnected g i) c
    /\ (In i (emptyCells g) ->
        connections c = 0 /\ Forall (fun o => o = 0) (possible c)).

(** A component in use holds exactly the indices that refer to it; they
    are cells of the board that are not empty and have not given their final
    step *)
Definition components_sound (g : Grid) (done : list Z)
  (cs : list (Z * nat)) (hp : list (list Z)) : Prop :=
  (forall m r, map_get m cs = Some r ->
     In m (nth r hp []) /\ on_board g m /\ ~ In m done /\ ~ In m (emptyCells g))
  /\ (forall j r m, map_get j cs = Some r -> In m (nth r hp []) ->
        map_get m cs = Some r).

(** No dirty cell has given its final step; the empty cells come first in
    [dirty], and while one of them waits only empty cells are final *)
Definition dirty_sound (g : Grid) (done : list Z) (dt : list Z) : Prop :=
  (forall i, In i dt -> on_board g i /\ ~ In i done)
  /\ exists E N,
       dt = E ++ N
       /\ Forall (fun i => In i (emptyCells g)) E
       /\ Forall (fun i => ~ In i (emptyCells g)) N
       /\ (E <> [] -> incl done (emptyCells g)).

(** The invariant of the first pass; [done] holds the indices of the final
    steps given so far. [pass_core] is the part that also holds while
    [mergeComponents] runs. *)
Record pass_core (g : Grid) (tl : list Z) (pending : Z -> Z -> Prop)
  (done : list Z) (s : Solver) : Prop := mk_pass_core {
  pi_tiles : tiles s = tl;
  pi_dirty : dirty_sound g done (dirty s);
  pi_cells : cells_sound g (unsolved s);
  pi_edges : edges_answered g pending done (unsolved s);
  pi_done : done_answered g done (unsolved s)
}.

Definition pass_inv (g : Grid) (tl : list Z) (pending : Z -> Z -> Prop)
  (done : list Z) (s : Solver) : Prop :=
  pass_core g tl pending done s
  /\ components_sound g done (components s) (heap s).

(** Nothing is on its way *)
Definition settled_marks : Z -> Z -> Prop := fun _ _ => False.

(** The marks on their way in the round of the cell [idx], whose
    [applyConstraints] has returned [addedWalls] and [addedConnections]:
    while the loop of lines 418-429 has the directions [l] to go, and while
    the loop of lines 433-445 has *)
Definition pending_walls (idx addedWalls addedConnections : Z) (l : list Z)
  : Z -> Z -> Prop :=
  fun i d =>
    i = idx
    /\ ((In d l /\ (0 <? band d addedWalls) = true)
        \/ (0 <? band d addedConnections) = true).

Definition pending_connections (idx addedConnections : Z) (l : list Z)
  : Z -> Z -> Prop :=
  fun i d => i = idx /\ In d l /\ (0 <? band d addedConnections) = true.

(** The cell [idx] has the marks it is sending *)
Definition delta_claimed (g : Grid) (idx addedWalls addedConnections : Z)
  (s : Solver) : Prop :=
  exists c, map_get idx (unsolved s) = Some c
    /\ forall d, In d (DIRECTIONS g) ->
         (0 <? band d addedWalls) = true \/ (0 <? band d addedConnections) = true ->
         claimed c d.

(** The neighbours that the round of [idx] is going to touch have not given
    their final step *)
Definition targets_open (g : Grid) (done : list Z)
  (idx addedWalls addedConnections : Z) : Prop :=
  forall d n, In d (DIRECTIONS g) ->
    (0 <? band d addedWalls) = true \/ (0 <? band d addedConnections) = true ->
    find_neighbour g idx d = (n, false) -> ~ In n done.

(** The indices of the final steps *)
Definition finals (steps : list Step) : list Z :=
  map step_index (filter step_final steps).

(** The relation between the solver before and after a part of a round:
    the cells present stay and keep their marks *)
Definition marks_grow (s s' : Solver) : Prop :=
  forall i c, map_get i (unsolved s) = Some c ->
    exists c', map_get i (unsolved s') = Some c'
      /\ forall d, claimed c d -> claimed c' d.

(** [c'] is [c] with some orientations removed *)
Definition filtered (c c' : Cell) : Prop :=
  walls c' = walls c /\ connections c' = connections c
  /\ incl (possible c') (possible c).

(** What a part of the round of the cell [idx] leaves alone: the marks of
    the cells grow, the orientations of the cell [idx] and its component
    stay *)
Definition carried (idx : Z) (s s' : Solver) : Prop :=
  marks_grow s s'
  /\ (forall c, map_get idx (unsolved s) = Some c ->
        exists c', map_get idx (unsolved s') = Some c'
                   /\ possible c' = possible c)
  /\ (forall r, map_get idx (components s) = Some r ->
        map_get idx (components s') = Some r).

(** The members of a component being merged, while the loop of
    [mergeComponents] runs: [r0] is the component that grows, [r1] the one
    whose members [rest] are still to join *)
Definition merging (g : Grid) (done : list Z) (r0 r1 : nat) (rest : list Z)
  (cs : list (Z * nat)) (hp : list (list Z)) : Prop :=
  (forall m r, map_get m cs = Some r ->
     In m (nth r hp []) /\ on_board g m /\ ~ In m done /\ ~ In m (emptyCells g))
  /\ (forall j r m, map_get j cs = Some r -> r <> r1 -> In m (nth r hp []) ->
        map_get m cs = Some r)
  /\ (forall j, map_get j cs = Some r1 -> In j rest)
  /\ (forall m r, In m rest -> map_get m cs = Some r -> r = r1 \/ r = r0)
  /\ r0 <> r1.

(** What every call of a round does to [dirty]: members are added at its
    end, none is removed and the order stays *)
Definition dirty_kept (s s' : Solver) : Prop :=
  exists l, dirty s' = dirty s ++ l.

Definition keeps_dirty {A} (m : M A) : Prop :=
  forall s r s', m s = (r, s') -> dirty_kept s s'.

(** The solver and [toInit] while the loop of lines 636-642 runs: nothing
    is known yet, the empty cells met are dirty, the others wait in
    [toInit] *)
Definition seeded (g : Grid) (tl : list Z) (toInit : list Z) (s : Solver) : Prop :=
  tiles s = tl /\ unsolved s = [] /\ components s = [] /\ heap s = []
  /\ Forall (fun i => on_board g i /\ In i (emptyCells g)) (dirty s)
  /\ Forall (fun i => on_board g i /\ ~ In i (emptyCells g)) toInit.



(* ================================================================== *)
(** * Proofs *)

(** ** Bitwise arithmetic on masks *)

Lemma toInt32_small x : int31 x -> toInt32 x = x.
Proof.
  unfold int31, toInt32. intros H.
  rewrite Z.mod_small; lia.
Qed.

Lemma band_small a b : int31 a -> int31 b -> band a b = Z.land a b.
Proof. intros Ha Hb. unfold band. now rewrite !toInt32_small. Qed.

(** Bit-by-bit reasoning: the goal and the named equations are read at an
    arbitrary bit. *)
Ltac bit_hyp n H :=
  let H' := fresh H "b" in
  pose proof (f_equal (fun x => Z.testbit x n) H) as H'; cbv beta in H';
  repeat first
    [ rewrite Z.land_spec in H' | rewrite Z.lor_spec in H'
    | rewrite Z.ldiff_spec in H' | rewrite Z.lxor_spec in H'
    | rewrite Z.bits_0 in H' | rewrite Z.bits_m1 in H' by assumption ].

Ltac bit_goal n :=
  apply Z.bits_inj'; intros n ?;
  repeat first
    [ rewrite Z.land_spec | rewrite Z.lor_spec | rewrite Z.ldiff_spec
    | rewrite Z.lxor_spec | rewrite Z.bits_0 | rewrite Z.bits_m1 by assumption ].

Ltac bit_cases :=
  repeat match goal with
    | |- context [Z.testbit ?x ?n] => destruct (Z.testbit x n)
    | H : context [Z.testbit ?x ?n] |- _ => destruct (Z.testbit x n)
    end;
  simpl in *; congruence.

Lemma within_ldiff full o : within full o -> Z.ldiff o full = 0.
Proof. intros [_ H]. bit_goal n. bit_hyp n H. bit_cases. Qed.

Lemma within_le full o : 0 <= full -> within full o -> 0 <= o <= full.
Proof. intros Hf H. apply Z.ldiff_le; auto using within_ldiff. Qed.

Lemma within_int31 full o : int31 full -> within full o -> int31 o.
Proof. intros Hf H. pose proof (within_le full o (proj1 Hf) H). unfold int31 in *. lia. Qed.

Lemma within_refl full : 0 <= full -> within full full.
Proof. intros. split; auto. apply Z.land_diag. Qed.

Lemma sub_within full o : within full o -> full - o = Z.ldiff full o.
Proof. intros H. apply Z.sub_nocarry_ldiff, within_ldiff, H. Qed.

Lemma add_disjoint a b : Z.land a b = 0 -> a + b = Z.lor a b.
Proof. intros H. rewrite Z.add_nocarry_lxor by assumption. now apply Z.lxor_lor. Qed.

Lemma within_land full a b : within full a -> 0 <= b -> within full (Z.land a b).
Proof.
  intros [Ha H] Hb. split.
  - apply Z.land_nonneg. auto.
  - bit_goal n. bit_hyp n H. bit_cases.
Qed.

Lemma within_land_r full a b : 0 <= a -> within full b -> within full (Z.land a b).
Proof. intros. rewrite Z.land_comm. now apply within_land. Qed.

Lemma within_ldiff_l full a b : within full a -> within full (Z.ldiff a b).
Proof.
  intros [Ha H]. split.
  - apply Z.ldiff_nonneg. auto.
  - bit_goal n. bit_hyp n H. bit_cases.
Qed.

Lemma within_lor full a b : within full a -> within full b -> within full (Z.lor a b).
Proof.
  intros [Ha H] [Hb H']. split.
  - apply Z.lor_nonneg. auto.
  - bit_goal n. bit_hyp n H. bit_hyp n H'. bit_cases.
Qed.

Lemma int31_within x : int31 x <-> within (Z.ones 31) x.
Proof.
  unfold int31, within. split.
  - intros [H0 H1]. split; auto.
    rewrite Z.land_ones by lia. apply Z.mod_small. lia.
  - intros [H0 H1]. split; auto.
    rewrite Z.land_ones in H1 by lia.
    pose proof (Z.mod_pos_bound x (2 ^ 31) ltac:(lia)). lia.
Qed.

Lemma int31_lor a b : int31 a -> int31 b -> int31 (Z.lor a b).
Proof. rewrite !int31_within. apply within_lor. Qed.

Lemma int31_ldiff a b : int31 a -> int31 (Z.ldiff a b).
Proof. rewrite !int31_within. apply within_ldiff_l. Qed.

Lemma int31_land a b : int31 a -> 0 <= b -> int31 (Z.land a b).
Proof. rewrite !int31_within. apply within_land. Qed.

(** ** addWall, addConnection *)

Lemma claim_bits w c d :
  int31 w -> int31 c -> Z.land w c = 0 -> int31 d ->
  d - band (c + w) d = Z.ldiff d (Z.lor c w).
Proof.
  intros Hw Hc Hwc Hd.
  rewrite add_disjoint by (now rewrite Z.land_comm).
  rewrite band_small by auto using int31_lor.
  rewrite Z.sub_nocarry_ldiff.
  - bit_goal n. bit_cases.
  - bit_goal n. bit_cases.
Qed.

Lemma addWall_walls c d :
  int31 (walls c) -> int31 (connections c) -> disjoint_marks c -> int31 d ->
  walls (addWall d c) = Z.lor (walls c) (Z.ldiff d (Z.lor (connections c) (walls c))).
Proof.
  intros Hw Hc Hwc Hd. unfold disjoint_marks in Hwc.
  rewrite band_small in Hwc by auto.
  simpl. rewrite claim_bits by auto.
  apply add_disjoint. bit_goal n. bit_cases.
Qed.

Lemma addConnection_connections c d :
  int31 (walls c) -> int31 (connections c) -> disjoint_marks c -> int31 d ->
  connections (addConnection d c)
  = Z.lor (connections c) (Z.ldiff d (Z.lor (connections c) (walls c))).
Proof.
  intros Hw Hc Hwc Hd. unfold disjoint_marks in Hwc.
  rewrite band_small in Hwc by auto.
  simpl. rewrite claim_bits by auto.
  apply add_disjoint. bit_goal n. bit_cases.
Qed.

Lemma addWall_keeps full c d :
  cell_wf full c -> disjoint_marks c -> int31 d ->
  cell_wf full (addWall d c) /\ disjoint_marks (addWall d c).
Proof.
  intros (Hw & Hc & Hp) Hwc Hd.
  pose proof (addWall_walls c d Hw Hc Hwc Hd) as E.
  assert (Hw' : int31 (walls (addWall d c)))
    by (rewrite E; auto using int31_lor, int31_ldiff).
  split; [split; [exact Hw' | split; [exact Hc | exact Hp]] |].
  unfold disjoint_marks in *.
  rewrite band_small in * by auto.
  change (connections (addWall d c)) with (connections c).
  rewrite E. bit_goal n. bit_hyp n Hwc. bit_cases.
Qed.

Lemma addConnection_keeps full c d :
  cell_wf full c -> disjoint_marks c -> int31 d ->
  cell_wf full (addConnection d c) /\ disjoint_marks (addConnection d c).
Proof.
  intros (Hw & Hc & Hp) Hwc Hd.
  pose proof (addConnection_connections c d Hw Hc Hwc Hd) as E.
  assert (Hc' : int31 (connections (addConnection d c)))
    by (rewrite E; auto using int31_lor, int31_ldiff).
  split; [split; [exact Hw | split; [exact Hc' | exact Hp]] |].
  unfold disjoint_marks in *.
  rewrite band_small in * by auto.
  change (walls (addConnection d c)) with (walls c).
  rewrite E. bit_goal n. bit_hyp n Hwc. bit_cases.
Qed.

(** ** The filters *)

Lemma delete_where_keeps full cond c :
  cell_wf full c -> cell_wf full (delete_where cond c).
Proof.
  intros (Hw & Hc & Hp). split; [exact Hw | split; [exact Hc | ]].
  simpl. rewrite Forall_forall in *. intros o Ho.
  apply filter_In in Ho. now apply Hp.
Qed.

Lemma delete_where_agree cond c :
  masks_agree c -> masks_agree (delete_where cond c).
Proof.
  intros H mask Hm. simpl in Hm. apply filter_In in Hm. now apply (H mask).
Qed.

(** ** applyConstraints *)

Lemma narrow_fold full l a b :
  int31 full -> Forall (within full) l -> within full a -> within full b ->
  fold_left
    (fun acc orientation =>
       (band (fst acc) (full - orientation), band (snd acc) orientation))
    l (a, b)
  = (Z.land a (inter_all (map (Z.ldiff full) l)), Z.land b (inter_all l)).
Proof.
  intros Hf Hl. revert a b.
  induction Hl as [|o l Ho Hl IH]; intros a b Ha Hb; simpl.
  - now rewrite !Z.land_m1_r.
  - pose proof (within_int31 _ _ Hf Ho) as Ho'.
    pose proof (within_int31 _ _ Hf Ha) as Ha'.
    pose proof (within_int31 _ _ Hf Hb) as Hb'.
    rewrite sub_within by assumption.
    rewrite !band_small by auto using int31_ldiff.
    rewrite IH.
    + now rewrite !Z.land_assoc.
    + apply within_land; auto. apply Z.ldiff_nonneg. left. apply Hf.
    + apply within_land; auto. apply Ho.
Qed.

Lemma narrow_spec full l :
  int31 full -> Forall (within full) l -> l <> [] ->
  narrow full l = (inter_all (map (Z.ldiff full) l), inter_all l).
Proof.
  intros Hf Hl Hne. unfold narrow.
  pose proof (within_refl full (proj1 Hf)) as Hr.
  rewrite narrow_fold by assumption.
  destruct l as [|o l]; [congruence|].
  inversion Hl as [|? ? [Ho0 Ho] _]; subst. simpl. f_equal.
  - bit_goal n. bit_cases.
  - bit_goal n. bit_hyp n Ho. bit_cases.
Qed.

Lemma respects_contradicts c o : respects c o = negb (contradicts c o).
Proof.
  unfold respects, contradicts.
  now rewrite negb_orb, !negb_involutive.
Qed.

Lemma inter_all_below l x :
  (forall o, In o l -> Z.land x o = x) -> Z.land x (inter_all l) = x.
Proof.
  induction l as [|o l IH]; intros H; simpl.
  - apply Z.land_m1_r.
  - rewrite Z.land_assoc, (H o) by (now left). apply IH. intros; apply H; now right.
Qed.

Lemma inter_all_within full l :
  l <> [] -> Forall (within full) l -> within full (inter_all l).
Proof.
  intros Hne Hl. destruct l as [|o l]; [congruence|].
  inversion Hl; subst. simpl.
  destruct H1 as [H0 H1]. split.
  - apply Z.land_nonneg. auto.
  - bit_goal n. bit_hyp n H1. bit_cases.
Qed.

(** What a surviving orientation tells about the marks of the cell *)
Lemma respects_bits full c o :
  int31 full -> int31 (walls c) -> int31 (connections c) -> within full o ->
  respects c o = true ->
  Z.land o (walls c) = 0 /\ Z.land (connections c) o = connections c.
Proof.
  intros Hf Hw Hc Ho H. unfold respects in H.
  apply andb_prop in H. destruct H as [H1 H2].
  apply Z.eqb_eq in H1, H2.
  rewrite band_small in H1, H2 by eauto using within_int31.
  split; auto. now rewrite Z.land_comm.
Qed.

Lemma inter_all_In l o : In o l -> Z.land (inter_all l) o = inter_all l.
Proof.
  induction l as [|x l IH]; simpl; [tauto|]. intros [->|H].
  - bit_goal n. bit_cases.
  - rewrite <- Z.land_assoc, IH by assumption. reflexivity.
Qed.

Section ApplyConstraints.

Variables (full : Z) (c : Cell).
Hypothesis Hfull : int31 full.
Hypothesis Hposs : Forall (within full) (possible c).

#[local] Abbreviation kept := (filter (respects c) (possible c)).
#[local] Abbreviation newWalls := (inter_all (map (Z.ldiff full) kept)).
#[local] Abbreviation newConnections := (inter_all kept).

Lemma kept_within : Forall (within full) kept.
Proof.
  rewrite Forall_forall in *. intros o Ho. apply filter_In in Ho. now apply Hposs.
Qed.

Lemma applyConstraints_cell :
  kept <> [] ->
  applyConstraints full c
  = (mkCell (index c) (initial c) kept newWalls newConnections,
     Some (newWalls - walls c, newConnections - connections c)).
Proof.
  intros Hne. unfold applyConstraints.
  pose proof kept_within as Hk.
  destruct kept as [|o l] eqn:E; [congruence|].
  now rewrite narrow_spec.
Qed.

Lemma applyConstraints_empty :
  kept = [] -> applyConstraints full c = (set_possible [] c, None).
Proof. intros E. unfold applyConstraints. now rewrite E. Qed.

Lemma newWalls_within : kept <> [] -> within full newWalls.
Proof.
  intros Hne. apply inter_all_within.
  - destruct kept; [congruence | discriminate].
  - apply Forall_forall. intros x Hx. apply in_map_iff in Hx.
    destruct Hx as (o & <- & _). apply within_ldiff_l, within_refl, Hfull.
Qed.

Lemma newConnections_within : kept <> [] -> within full newConnections.
Proof. intros Hne. apply inter_all_within; auto using kept_within. Qed.

(** Every orientation left agrees with the new marks *)
Lemma kept_agree o :
  In o kept -> Z.land o newWalls = 0 /\ Z.land o newConnections = newConnections.
Proof.
  intros Ho. split.
  - assert (H : Z.land newWalls (Z.ldiff full o) = newWalls).
    { apply inter_all_In. apply in_map. exact Ho. }
    bit_goal n. bit_hyp n H. bit_cases.
  - rewrite Z.land_comm. now apply inter_all_In.
Qed.

Lemma new_marks_disjoint : kept <> [] -> Z.land newWalls newConnections = 0.
Proof.
  intros Hne.
  assert (Ho : exists o, In o kept)
    by (destruct kept as [|o l]; [congruence | exists o; now left]).
  destruct Ho as [o Ho].
  destruct (kept_agree o Ho) as [H1 H2].
  bit_goal n. bit_hyp n H1. bit_hyp n H2. bit_cases.
Qed.

(** With the old marks inside [full], they are kept, and the returned
    differences are the added bits. *)
Hypothesis Hwalls : within full (walls c).
Hypothesis Hconn : int31 (connections c).

Lemma kept_respects o : In o kept ->
  Z.land o (walls c) = 0 /\ Z.land (connections c) o = connections c.
Proof.
  intros Ho. apply filter_In in Ho. destruct Ho as [Hin Hr].
  rewrite Forall_forall in Hposs.
  apply (respects_bits full); auto.
  apply (within_int31 full); auto.
Qed.

Lemma old_walls_kept : keeps_bits newWalls (walls c).
Proof.
  apply inter_all_below. intros x Hx.
  apply in_map_iff in Hx. destruct Hx as (o & <- & Ho).
  destruct (kept_respects o Ho) as [H _]. destruct Hwalls as [_ Hw].
  bit_goal n. bit_hyp n H. bit_hyp n Hw. bit_cases.
Qed.

Lemma old_connections_kept : keeps_bits newConnections (connections c).
Proof.
  apply inter_all_below. intros o Ho.
  now destruct (kept_respects o Ho).
Qed.

Lemma added_bits :
  newWalls - walls c = Z.ldiff newWalls (walls c)
  /\ newConnections - connections c = Z.ldiff newConnections (connections c).
Proof.
  pose proof old_walls_kept as Hw. pose proof old_connections_kept as Hc.
  unfold keeps_bits in *.
  split; apply Z.sub_nocarry_ldiff.
  - bit_goal n. bit_hyp n Hw. bit_cases.
  - bit_goal n. bit_hyp n Hc. bit_cases.
Qed.

End ApplyConstraints.

(** A second call straight after a successful one changes nothing *)
Lemma applyConstraints_again full c c1 d1 :
  int31 full -> Forall (within full) (possible c) ->
  applyConstraints full c = (c1, Some d1) ->
  applyConstraints full c1 = (c1, Some (0, 0)).
Proof.
  intros Hf Hp H.
  destruct (filter (respects c) (possible c)) as [|o l] eqn:E.
  - rewrite applyConstraints_empty in H by assumption. discriminate.
  - assert (Hne : filter (respects c) (possible c) <> []) by (rewrite E; discriminate).
    rewrite (applyConstraints_cell full c Hf Hp Hne) in H.
    injection H as <- _.
    set (kept := filter (respects c) (possible c)) in *.
    assert (Hk : Forall (within full) kept) by (apply kept_within; auto).
    assert (Hkne : kept <> []) by exact Hne.
    assert (Hsame : filter (respects (mkCell (index c) (initial c) kept
                      (inter_all (map (Z.ldiff full) kept)) (inter_all kept))) kept = kept).
    { apply forallb_filter_id. apply forallb_forall. intros x Hx.
      destruct (kept_agree full c x Hx) as [H1 H2]. fold kept in H1, H2.
      pose proof (newWalls_within full c Hf Hkne) as Hw.
      pose proof (newConnections_within full c Hp Hkne) as Hc.
      fold kept in Hw, Hc.
      rewrite Forall_forall in Hk.
      unfold respects. simpl.
      rewrite !band_small by eauto using within_int31.
      rewrite H1, H2. now rewrite !Z.eqb_refl. }
    rewrite applyConstraints_cell; simpl; auto.
    + rewrite Hsame. now rewrite !Z.sub_diag.
    + now rewrite Hsame.
Qed.

(* ================================================================== *)
(** ** C1: applyConstraints *)

(** C1 (as amended). For a cell whose orientations and walls lie within
    [grid.fullyConnected(index)] (connections being any mask),
    [applyConstraints()] removes exactly the orientations that overlap a
    wall or miss a connection; it fails with NoOrientationsPossible when
    none is left; otherwise the new connections are the intersection of the
    orientations left, the new walls the intersection of their complements
    within the fully connected tile, and the returned numbers are exactly the
    bits added to the walls and to the connections, none of the old bits
    being lost. *)
Theorem C1_applyConstraints_within full c :
  int31 full ->
  Forall (within full) (possible c) ->
  within full (walls c) ->
  int31 (connections c) ->
  applyConstraints_spec full c
  /\ (possible (fst (applyConstraints full c)) <> [] ->
      keeps_bits (walls (fst (applyConstraints full c))) (walls c)
      /\ keeps_bits (connections (fst (applyConstraints full c))) (connections c)).
Proof.
  intros Hf Hp Hw Hc.
  assert (Hfilter : filter (respects c) (possible c)
                    = filter (fun o => negb (contradicts c o)) (possible c))
    by (apply filter_ext; intros; apply respects_contradicts).
  unfold applyConstraints_spec.
  destruct (filter (respects c) (possible c)) as [|o l] eqn:E.
  - rewrite applyConstraints_empty by assumption. simpl.
    repeat split; try congruence.
  - assert (Hne : filter (respects c) (possible c) <> []) by (rewrite E; discriminate).
    rewrite (applyConstraints_cell full c Hf Hp Hne).
    destruct (added_bits full c Hf Hp Hw Hc) as [Ew Ec].
    cbn [fst snd possible walls connections].
    repeat split.
    + rewrite E. congruence.
    + rewrite E. discriminate.
    + now rewrite Ew, Ec.
    + apply (old_walls_kept full c); auto.
    + apply (old_connections_kept full c); auto.
Qed.

Lemma C1_applyConstraints_within_witness :
  applyConstraints_spec 255 (mkCell 0 (Some 17) [17; 136; 68; 34] 170 0)
  /\ applyConstraints 255 (mkCell 0 (Some 17) [17; 136; 68; 34] 170 0)
     = (mkCell 0 (Some 17) [17; 68] 170 0, Some (0, 0)).
Proof.
  split.
  - apply (C1_applyConstraints_within 255 (mkCell 0 (Some 17) [17; 136; 68; 34] 170 0)).
    + unfold int31; lia.
    + repeat constructor; simpl; lia.
    + split; simpl; [lia | reflexivity].
    + unfold int31; simpl; lia.
  - reflexivity.
Defined.

(** C1 as stated fails for a wall outside the fully connected tile: with
    [full = 15], the wall 16 and the single orientation 1, the call returns
    [addedWalls = -2], which is no set of added bits (the walls become 14). *)
Lemma C1_counterexample :
  ~ applyConstraints_spec 15 (mkCell 0 (Some 1) [1] 16 0).
Proof.
  unfold applyConstraints_spec. vm_compute.
  intros (_ & _ & H). specialize (H ltac:(discriminate)).
  destruct H as (_ & _ & H). discriminate H.
Qed.

(* ================================================================== *)
(** ** C8: the cell invariant *)

Lemma run_op_keeps full op c c' :
  int31 full -> cell_wf full c -> disjoint_marks c -> op_ok op ->
  run_op full op c = Some c' ->
  cell_wf full c' /\ disjoint_marks c'.
Proof.
  intros Hf Hwf Hd Hop H.
  destruct op; simpl in H, Hop.
  - injection H as <-. now apply addWall_keeps.
  - injection H as <-. now apply addConnection_keeps.
  - injection H as <-. split; [now apply delete_where_keeps | exact Hd].
  - injection H as <-. split; [now apply delete_where_keeps | exact Hd].
  - injection H as <-. split; [now apply delete_where_keeps | exact Hd].
  - destruct Hwf as (Hw & Hc & Hp).
    destruct (filter (respects c) (possible c)) as [|o l] eqn:E.
    + rewrite applyConstraints_empty in H by assumption. discriminate.
    + assert (Hne : filter (respects c) (possible c) <> []) by (rewrite E; discriminate).
      rewrite (applyConstraints_cell full c Hf Hp Hne) in H.
      injection H as <-.
      pose proof (newWalls_within full c Hf Hne) as Hnw.
      pose proof (newConnections_within full c Hp Hne) as Hnc.
      split.
      * split; [|split]; simpl; eauto using within_int31, kept_within.
      * unfold disjoint_marks. simpl.
        rewrite band_small by eauto using within_int31.
        now apply new_marks_disjoint.
Qed.

Lemma run_op_agree full op c c' :
  int31 full -> cell_wf full c ->
  run_op full op c = Some c' ->
  match op with
  | OpAddWall _ | OpAddConnection _ => True
  | OpApplyConstraints => masks_agree c'
  | _ => masks_agree c -> masks_agree c'
  end.
Proof.
  intros Hf (Hw & Hc & Hp) H.
  destruct op; simpl in H; try exact I;
    try (injection H as <-; apply delete_where_agree).
  destruct (filter (respects c) (possible c)) as [|o l] eqn:E.
  - rewrite applyConstraints_empty in H by assumption. discriminate.
  - assert (Hne : filter (respects c) (possible c) <> []) by (rewrite E; discriminate).
    rewrite (applyConstraints_cell full c Hf Hp Hne) in H.
    injection H as <-.
    pose proof (newWalls_within full c Hf Hne) as Hnw.
    pose proof (newConnections_within full c Hp Hne) as Hnc.
    pose proof (kept_within full c Hp) as Hk. rewrite Forall_forall in Hk.
    intros mask Hm. simpl in Hm |- *.
    rewrite !band_small by eauto using within_int31.
    now apply kept_agree.
Qed.

(** C8 (as amended). Start from a cell whose walls and connections are
    disjoint masks and whose orientations lie within
    [grid.fullyConnected(index)]. After every sequence of [addWall],
    [addConnection] (called with masks), [mustHaveAllWalls],
    [mustHaveSomeWalls], [mustHaveAllConnections] and [applyConstraints]
    that does not throw, [walls & connections == 0]. Every orientation left
    satisfies [(mask & walls) == 0] and [(mask & connections) == connections]
    once [applyConstraints] has run after the last [addWall] or
    [addConnection]; the three filters keep that property. *)
Theorem C8_cell_invariant full ops : forall c c' b,
  int31 full -> cell_wf full c -> disjoint_marks c ->
  Forall op_ok ops ->
  (b = true -> masks_agree c) ->
  run_ops full ops c = Some c' ->
  cell_wf full c' /\ disjoint_marks c'
  /\ (settled ops b = true -> masks_agree c').
Proof.
  induction ops as [|op ops IH]; intros c c' b Hf Hwf Hd Hops Hb H.
  - injection H as <-. auto.
  - simpl in H. destruct (run_op full op c) as [c1|] eqn:E; [|discriminate].
    inversion Hops as [|? ? Hop Hops']; subst.
    destruct (run_op_keeps full op c c1 Hf Hwf Hd Hop E) as [Hwf1 Hd1].
    pose proof (run_op_agree full op c c1 Hf Hwf E) as Ha.
    destruct op; simpl;
      try (apply (IH c1 c' false); auto; discriminate);
      try (apply (IH c1 c' b); auto).
    apply (IH c1 c' true); auto.
Qed.

Lemma C8_cell_invariant_witness :
  let c' := mkCell 0 (Some 3) [192; 96; 48; 24; 12; 6] 1 0 in
  cell_wf 255 c' /\ disjoint_marks c'
  /\ (settled [OpAddWall 1; OpMustHaveSomeWalls 2; OpApplyConstraints] false = true ->
      masks_agree c').
Proof.
  apply (C8_cell_invariant 255
           [OpAddWall 1; OpMustHaveSomeWalls 2; OpApplyConstraints]
           (mkCell 0 (Some 3) [3; 129; 192; 96; 48; 24; 12; 6] 0 0)
           (mkCell 0 (Some 3) [192; 96; 48; 24; 12; 6] 1 0) false).
  - unfold int31; lia.
  - split; [|split]; simpl; [unfold int31; lia | unfold int31; lia |].
    repeat constructor; simpl; lia.
  - reflexivity.
  - repeat constructor; unfold int31; lia.
  - discriminate.
  - reflexivity.
Defined.

(** C8 as stated fails: on the dead end 1 of an OctaGrid, [addWall(1)]
    leaves the orientation 1 among the possible ones. *)
Lemma C8_counterexample :
  exists c0, octa_cell 1 = Some c0 /\ ~ invariant_after_each 255 c0.
Proof.
  eexists. split; [reflexivity|].
  intros H. specialize (H [OpAddWall 1] _ eq_refl).
  destruct H as [_ H]. specialize (H 1 ltac:(now left)).
  destruct H as [H _]. vm_compute in H. discriminate H.
Qed.

(** The same for the first half of the invariant, when an orientation has a
    bit outside the fully connected tile: a square of the OctaGrid
    ([full = 170]) with an unknown tile starts from the orientations 1 to
    169; once only 3 is left, [applyConstraints] sets the walls to 162 and
    the connections to 2. *)
Lemma disjoint_marks_needs_within :
  exists c0 c,
    new_Cell 16 octa_rotate (octa_fullyConnected octa22) 4 (Some (-1)) = Some c0
    /\ run_ops 170
         [OpMustHaveAllConnections 3; OpMustHaveAllWalls 252; OpApplyConstraints]
         c0 = Some c
    /\ band (walls c) (connections c) = 2.
Proof. do 2 eexists. repeat split; vm_compute; reflexivity. Qed.

(* ================================================================== *)
(** ** C9: monotone marks, repeated applyConstraints *)

(** C9 (as amended). On a cell whose walls and connections are disjoint
    masks, [addWall] and [addConnection] called with a mask keep every bit of
    the walls and of the connections. When the orientations of a cell lie
    within [grid.fullyConnected(index)] and a call of [applyConstraints]
    succeeds, a second call straight after it succeeds, returns
    [{addedWalls: 0, addedConnections: 0}] and leaves the cell as it is; the
    first call returns whatever it has deduced. *)
Theorem C9_monotone_and_second_call full c d :
  int31 full -> cell_wf full c ->
  (disjoint_marks c -> int31 d ->
     keeps_bits (walls (addWall d c)) (walls c)
     /\ connections (addWall d c) = connections c
     /\ keeps_bits (connections (addConnection d c)) (connections c)
     /\ walls (addConnection d c) = walls c)
  /\ (forall c1 d1,
        applyConstraints full c = (c1, Some d1) ->
        applyConstraints full c1 = (c1, Some (0, 0))).
Proof.
  intros Hf (Hw & Hc & Hp). split.
  - intros Hd Hdir. unfold keeps_bits.
    rewrite addWall_walls, addConnection_connections by assumption.
    repeat split; try reflexivity; bit_goal n; bit_cases.
  - intros c1 d1. now apply applyConstraints_again.
Qed.

Lemma C9_monotone_and_second_call_witness :
  exists c1,
    applyConstraints 255 (mkCell 0 (Some 0) [0] 0 0) = (c1, Some (255, 0))
    /\ applyConstraints 255 c1 = (c1, Some (0, 0))
    /\ walls (addWall 3 c1) = walls c1.
Proof.
  eexists. split; [reflexivity|].
  destruct (C9_monotone_and_second_call 255 (mkCell 0 (Some 0) [0] 0 0) 3) as [_ H].
  - unfold int31; lia.
  - split; [|split]; simpl; [unfold int31; lia | unfold int31; lia |].
    repeat constructor; simpl; lia.
  - split; [|reflexivity]. apply (H _ (255, 0)). reflexivity.
Defined.

(** C9 as stated fails: the first call on the fresh empty tile of an
    OctaGrid returns [addedWalls = 255]. *)
Lemma C9_counterexample :
  exists c0, octa_cell 0 = Some c0 /\ ~ zero_delta_twice 255 c0.
Proof.
  eexists. split; [reflexivity|].
  intros H. destruct (H _ (255, 0) _ (0, 0) eq_refl eq_refl) as [H1 _].
  discriminate H1.
Qed.


(* ================================================================== *)
(** ** Maps, sets and the solver monad *)

Lemma map_get_set_same {V} k (v : V) m : map_get k (map_set k v m) = Some v.
Proof.
  induction m as [|[k' v'] m IH]; simpl.
  - now rewrite Z.eqb_refl.
  - destruct (k =? k') eqn:E; simpl; rewrite ?Z.eqb_refl, ?E; auto.
Qed.

Lemma map_get_set_other {V} k k' (v : V) m :
  k <> k' -> map_get k (map_set k' v m) = map_get k m.
Proof.
  intros Hne. induction m as [|[k2 v2] m IH]; simpl.
  - destruct (k =? k') eqn:E; auto. apply Z.eqb_eq in E. congruence.
  - destruct (k' =? k2) eqn:E; simpl.
    + apply Z.eqb_eq in E. subst k2.
      destruct (k =? k') eqn:E2; auto. apply Z.eqb_eq in E2. congruence.
    + destruct (k =? k2); auto.
Qed.

Lemma map_get_delete_same {V} k (m : list (Z * V)) : map_get k (map_delete k m) = None.
Proof.
  induction m as [|[k' v'] m IH]; simpl; auto.
  destruct (k =? k') eqn:E; simpl; auto. now rewrite E.
Qed.

Lemma set_has_In x s : set_has x s = true <-> In x s.
Proof.
  unfold set_has. rewrite existsb_exists. split.
  - intros (y & Hy & E). apply Z.eqb_eq in E. now subst.
  - intros H. exists x. split; auto. apply Z.eqb_refl.
Qed.

Lemma set_add_In x y s : In y (set_add x s) <-> y = x \/ In y s.
Proof.
  unfold set_add. destruct (set_has x s) eqn:E.
  - apply set_has_In in E. split; auto. intros [->|]; auto.
  - rewrite in_app_iff. simpl. intuition.
Qed.

Lemma array_get_set a i v : 0 <= i -> js_index (array_set a i v) i = v.
Proof.
  intros Hi. unfold js_index, array_get, array_set.
  destruct (i <? 0) eqn:E; [apply Z.ltb_lt in E; lia|].
  set (n := Z.to_nat i).
  destruct (Nat.le_gt_cases (length a) n) as [Hle|Hgt].
  - rewrite firstn_all2 by assumption.
    rewrite nth_error_app2 by lia.
    rewrite nth_error_app2 by (rewrite repeat_length; lia).
    rewrite repeat_length.
    replace (n - length a - (n - length a))%nat with 0%nat by lia. reflexivity.
  - rewrite nth_error_app2 by (rewrite length_firstn; lia).
    rewrite length_firstn.
    replace (n - Nat.min n (length a))%nat with 0%nat by lia.
    replace (n - length a)%nat with 0%nat by lia. reflexivity.
Qed.

Lemma heap_get_update r f s :
  f [] = [] ->
  heap_get r (set_heap (list_set r (f (heap_get r s)) (heap s)) s) = f (heap_get r s).
Proof.
  intros Hf. unfold heap_get. simpl.
  generalize (heap s) as h. induction r as [|r IH]; intros [|x h]; simpl; auto.
Qed.

Ltac monad_unfold :=
  unfold heap_update, heap_alloc, dirty_add, update_cell in *;
  unfold bind, ret, raise, beyond, gets, modify in *;
  cbv beta iota in *.

(** The two halves of a round, without the monad *)
Lemma leave_component_eq idx s :
  leave_component idx s
  = match map_get idx (components s) with
    | Some component =>
        let members := set_delete idx (heap_get component s) in
        let s' := set_heap (list_set component members (heap s)) s in
        if (Nat.eqb (length members) 0) && (1 <? Z.of_nat (length (unsolved s)))
        then (Raise IslandDetected, s')
        else (Ret tt, s')
    | None => (Ret tt, s)
    end.
Proof.
  unfold leave_component. monad_unfold.
  destruct (map_get idx (components s)) as [r|]; [|reflexivity].
  cbv zeta. rewrite (heap_get_update r (set_delete idx) s) by reflexivity.
  unfold set_size. cbn [unsolved set_heap].
  replace (Z.of_nat (length (set_delete idx (heap_get r s))) =? 0)
    with (Nat.eqb (length (set_delete idx (heap_get r s))) 0)
    by (destruct (length (set_delete idx (heap_get r s))); reflexivity).
  now destruct (_ && _).
Qed.

Lemma settle_eq idx s :
  settle idx s
  = let c := the_cell idx s in
    let orientation := set_first (possible c) in
    if set_size (possible c) =? 1 then
      match leave_component idx s with
      | (Ret _, s') => (Ret (mkStep idx orientation true), solved_state idx orientation s')
      | (Raise e, s') => (Raise e, s')
      | (Beyond, s') => (Beyond, s')
      end
    else (Ret (mkStep idx orientation false), s).
Proof.
  unfold settle. monad_unfold. cbv zeta.
  destruct (set_size (possible (the_cell idx s)) =? 1); [|reflexivity].
  now destruct (leave_component idx s) as [[[]|e|] s'].
Qed.

Lemma processDirtyCell_eq g fuel idx s s1 :
  propagate g fuel idx s = (Ret tt, s1) ->
  processDirtyCell g fuel idx s = settle idx s1.
Proof. intros H. unfold processDirtyCell, bind. now rewrite H. Qed.

(* ================================================================== *)
(** ** C7: the end of a round of processDirtyCells *)

(** C7. When a round of [processDirtyCells] reaches line 447 for the dirty
    cell [idx]: if the cell has exactly one orientation left it is removed
    from its component (when it has one), and the round fails with
    IslandDetected if that empties the component while [unsolved] holds
    another cell; otherwise the orientation is written to [solution[idx]] and
    the cell leaves [unsolved]. In every round that does not throw, final or
    not, the step record of the cell is yielded. *)
Theorem C7_settle g fuel idx s s1 :
  0 <= idx ->
  propagate g fuel idx s = (Ret tt, s1) ->
  settle_spec idx s1 (processDirtyCell g fuel idx s)
  /\ (forall n st s2,
        set_first (dirty s) = Some idx ->
        processDirtyCell g fuel idx s = (Ret st, s2) ->
        step_index st = idx
        /\ exists rest,
             fst (fst (processDirtyCells_loop g fuel (S n) s)) = st :: rest).
Proof.
  intros Hidx Hp.
  rewrite (processDirtyCell_eq g fuel idx s s1 Hp). split.
  - unfold settle_spec. rewrite settle_eq, leave_component_eq. cbv zeta.
    destruct (possible (the_cell idx s1)) as [|o [|o' l]] eqn:Epos.
    + reflexivity.
    + change (set_size [o] =? 1) with true. cbv iota.
      cbn [set_first hd_error].
      destruct (map_get idx (components s1)) as [r|] eqn:Ec.
      * destruct (Nat.eqb _ 0 && _) eqn:Ei; cbn [fst snd].
        -- split; [|reflexivity].
           now rewrite (heap_get_update r (set_delete idx) s1).
        -- split; [|repeat split].
           ++ unfold solved_state, heap_get at 1. cbn [heap].
              fold (heap_get r (set_heap (list_set r (set_delete idx (heap_get r s1)) (heap s1)) s1)).
              now rewrite (heap_get_update r (set_delete idx) s1).
           ++ now apply array_get_set.
           ++ apply map_get_delete_same.
      * cbn [fst snd]. repeat split.
        -- now apply array_get_set.
        -- apply map_get_delete_same.
    + replace (set_size (o :: o' :: l) =? 1) with false
        by (symmetry; apply Z.eqb_neq; unfold set_size; cbn [length]; lia).
      reflexivity.
  - intros n st s2 Hd Hst. split.
    + rewrite settle_eq in Hst. cbv zeta in Hst.
      destruct (set_size (possible (the_cell idx s1)) =? 1).
      * destruct (leave_component idx s1) as [[[]|e|] s3];
          try discriminate. now inversion Hst.
      * now inversion Hst.
    + cbn [processDirtyCells_loop]. rewrite Hd.
      rewrite (processDirtyCell_eq g fuel idx s s1 Hp), Hst.
      destruct (processDirtyCells_loop g fuel n _) as [[steps r] s3].
      exists steps. reflexivity.
Qed.


(* ================================================================== *)
(** ** What getCell and the loop of mergeComponents leave untouched *)

Lemma cells_narrowed_refl s : cells_narrowed s s.
Proof. intros k c H. exists c. repeat split; auto. apply incl_refl. Qed.

Lemma cells_narrowed_trans s1 s2 s3 :
  cells_narrowed s1 s2 -> cells_narrowed s2 s3 -> cells_narrowed s1 s3.
Proof.
  intros H12 H23 k c H.
  destruct (H12 k c H) as (c2 & H2 & Hw2 & Hc2 & Hp2).
  destruct (H23 k c2 H2) as (c3 & H3 & Hw3 & Hc3 & Hp3).
  exists c3. repeat split; try congruence. eapply incl_tran; eauto.
Qed.

Lemma dirty_grows_refl s : dirty_grows s s.
Proof. apply incl_refl. Qed.

Lemma dirty_grows_trans s1 s2 s3 :
  dirty_grows s1 s2 -> dirty_grows s2 s3 -> dirty_grows s1 s3.
Proof. apply incl_tran. Qed.

Lemma set_add_incl x s : incl s (set_add x s).
Proof. intros y Hy. apply set_add_In. now right. Qed.

Section Frames.

Variables (g : Grid) (fuel : nat).

(** [getCell] throws nothing, touches neither the components nor the cells
    that exist, and returns the cell now stored under the index. *)
Lemma getCell_frame idx s r s' :
  getCell g fuel idx s = (r, s') ->
  components s' = components s /\ heap s' = heap s
  /\ dirty_grows s s'
  /\ (forall k c, map_get k (unsolved s) = Some c -> map_get k (unsolved s') = Some c)
  /\ (forall e, r <> Raise e)
  /\ (forall c, r = Ret c -> map_get idx (unsolved s') = Some c).
Proof.
  unfold getCell. monad_unfold.
  destruct (map_get idx (unsolved s)) as [c|] eqn:E.
  - intros H. inversion H; subst.
    repeat split; auto using dirty_grows_refl; try discriminate.
    intros c0 Hc. congruence.
  - destruct (new_Cell fuel (rotate g) (fullyConnected g) idx (array_get (tiles s) idx))
      as [c|]; [|intros H; inversion H; subst;
                 repeat split; auto using dirty_grows_refl; discriminate].
    unfold doLocalDeductions. monad_unfold. cbn [unsolved set_unsolved].
    rewrite map_get_set_same.
    destruct (doLocalDeductions_cell g (tiles (set_unsolved (map_set idx c (unsolved s)) s)) idx c)
      as [c' d].
    cbn [unsolved set_unsolved]. rewrite map_get_set_same.
    assert (Hother : forall k c0 u, map_get k (unsolved s) = Some c0 ->
              map_get k (map_set idx u (map_set idx c (unsolved s))) = Some c0).
    { intros k c0 u Hk. rewrite !map_get_set_other; auto.
      all: intros ->; congruence. }
    destruct d; cbn [unsolved set_unsolved set_dirty dirty];
      rewrite ?map_get_set_same; intros H; inversion H; subst;
      cbn [components heap dirty unsolved set_unsolved set_dirty];
      repeat split; auto; try discriminate;
      try (intros c0 Hc; congruence).
    all: try (unfold dirty_grows; cbn [dirty set_dirty set_unsolved];
              first [apply incl_refl | apply set_add_incl]).
    all: intros c0 Hc; injection Hc as <-; apply map_get_set_same.
Qed.


(** The sum of line 250 holds every direction that was added to it *)
Lemma forbidden_fold component m occupied l : forall acc,
  Forall (fun d => 0 < d < 2 ^ 31) l ->
  ForallOrdPairs (fun a b => Z.land a b = 0) l ->
  int31 acc ->
  (forall d, In d l -> Z.land acc d = 0) ->
  let R :=
    fold_left
      (fun forbidden direction =>
         if 0 <? band occupied direction then forbidden
         else if set_has (fst (find_neighbour g m direction)) component
              then forbidden + direction else forbidden)
      l acc in
  int31 R /\ keeps_bits R acc
  /\ forall d, In d l ->
       (0 <? band occupied d) = false ->
       set_has (fst (find_neighbour g m d)) component = true ->
       keeps_bits R d.
Proof.
  induction l as [|a l IH]; intros acc Hpos Hpairs Hacc Hdis; cbn [fold_left]; cbv zeta.
  - split; [exact Hacc | split; [apply Z.land_diag | intros d []]].
  - inversion Hpos as [|? ? Ha Hpos']; subst.
    inversion Hpairs as [|? ? Hal Hpairs']; subst.
    assert (Ha31 : int31 a) by (unfold int31; lia).
    assert (Hda : Z.land acc a = 0) by (apply Hdis; now left).
    assert (Hstep : forall acc', int31 acc' -> keeps_bits acc' acc ->
              (acc' = acc \/ acc' = Z.lor acc a) ->
              forall d, In d l -> Z.land acc' d = 0).
    { intros acc' _ _ [->| ->] d Hd.
      - apply Hdis. now right.
      - rewrite Forall_forall in Hal. pose proof (Hal d Hd) as H1.
        assert (H2 : Z.land acc d = 0) by (apply Hdis; now right).
        bit_goal n. bit_hyp n H1. bit_hyp n H2. bit_cases. }
    destruct (0 <? band occupied a) eqn:Eocc.
    + destruct (IH acc Hpos' Hpairs' Hacc) as (H1 & H2 & H3).
      { intros; apply Hdis; now right. }
      split; [exact H1 | split; [exact H2 |]].
      intros d [->|Hd] Ho Hs; [congruence | now apply H3].
    + destruct (set_has (fst (find_neighbour g m a)) component) eqn:Ehas.
      * rewrite add_disjoint by assumption.
        assert (H31 : int31 (Z.lor acc a)) by now apply int31_lor.
        assert (Hk : keeps_bits (Z.lor acc a) acc)
          by (unfold keeps_bits; bit_goal n; bit_cases).
        destruct (IH (Z.lor acc a) Hpos' Hpairs' H31) as (H1 & H2 & H3).
        { apply Hstep; auto. }
        unfold keeps_bits in *. split; [exact H1 | split].
        -- bit_goal n. bit_hyp n H2. bit_cases.
        -- intros d [->|Hd] Ho Hs; [|now apply H3].
           bit_goal n. bit_hyp n H2. bit_cases.
      * destruct (IH acc Hpos' Hpairs' Hacc) as (H1 & H2 & H3).
        { intros; apply Hdis; now right. }
        split; [exact H1 | split; [exact H2 |]].
        intros d [->|Hd] Ho Hs; [congruence | now apply H3].
Qed.

Lemma forbidden_directions_spec component m c :
  directions_apart g ->
  let R := forbidden_directions g component m c in
  int31 R
  /\ forall d, In d (DIRECTIONS g) -> open_direction c d ->
       In (fst (find_neighbour g m d)) component ->
       keeps_bits R d /\ 0 < R.
Proof.
  intros [Hpos Hpairs]. cbv zeta. unfold forbidden_directions.
  destruct (forbidden_fold component m (walls c + connections c) (DIRECTIONS g) 0
              Hpos Hpairs) as (H1 & _ & H3).
  { unfold int31; lia. }
  { intros; apply Z.land_0_l. }
  split; [exact H1|]. intros d Hd Ho Hin.
  assert (Hk : keeps_bits
                 (fold_left
                    (fun forbidden direction =>
                       if 0 <? band (walls c + connections c) direction then forbidden
                       else if set_has (fst (find_neighbour g m direction)) component
                            then forbidden + direction else forbidden)
                    (DIRECTIONS g) 0) d).
  { apply H3; auto. now apply set_has_In. }
  split; [exact Hk|].
  rewrite Forall_forall in Hpos. pose proof (Hpos d Hd).
  assert (0 <= d <= fold_left
                    (fun forbidden direction =>
                       if 0 <? band (walls c + connections c) direction then forbidden
                       else if set_has (fst (find_neighbour g m direction)) component
                            then forbidden + direction else forbidden)
                    (DIRECTIONS g) 0).
  { apply within_le; [apply H1|]. split; [lia | exact Hk]. }
  lia.
Qed.

(** An orientation that passed [mustHaveAllWalls(forbidden)] has none of the
    directions summed up in [forbidden] *)
Lemma passed_filter forbidden d o :
  int31 forbidden -> int31 o -> int31 d ->
  keeps_bits forbidden d ->
  (0 <? band o forbidden) = false ->
  band o d = 0.
Proof.
  intros Hf Ho Hd Hk Hb.
  rewrite band_small in * by assumption.
  apply Z.ltb_ge in Hb.
  assert (H0 : 0 <= Z.land o forbidden) by (apply Z.land_nonneg; left; apply Ho).
  assert (E : Z.land o forbidden = 0) by lia.
  unfold keeps_bits in Hk.
  bit_goal n. bit_hyp n E. bit_hyp n Hk. bit_cases.
Qed.


Lemma heap_get_list_set r v h s :
  (r < length h)%nat -> heap_get r (set_heap (list_set r v h) s) = v.
Proof.
  unfold heap_get. cbn [heap set_heap]. revert h.
  induction r as [|r IH]; intros [|x h] Hr; simpl in *; try lia; auto.
  apply IH. lia.
Qed.

Lemma nth_list_set {A} r (v d : A) h :
  (r < length h)%nat -> nth r (list_set r v h) d = v.
Proof.
  revert h. induction r as [|r IH]; intros [|x h] Hr; simpl in *; try lia; auto.
  apply IH. lia.
Qed.

Lemma list_set_length {A} r (v : A) h : length (list_set r v h) = length h.
Proof.
  revert h. induction r as [|r IH]; intros [|x h]; simpl; auto.
Qed.

(** The body of the loop of [mergeComponents], without the monad *)
Lemma join_member_eq r m s :
  join_member g fuel r m s
  = let s2 :=
      set_heap (list_set r (set_add m (heap_get r s)) (heap s))
        (set_components (map_set m r (components s)) s) in
    match getCell g fuel m s2 with
    | (Ret c, s3) =>
        let forbidden := forbidden_directions g (heap_get r s3) m c in
        if 0 <? forbidden then
          (Ret tt,
           let s4 :=
             match map_get m (unsolved s3) with
             | Some c0 => set_unsolved (map_set m (mustHaveAllWalls forbidden c0) (unsolved s3)) s3
             | None => s3
             end in
           set_dirty (set_add m (dirty s4)) s4)
        else (Ret tt, s3)
    | (Raise e, s3) => (Raise e, s3)
    | (Beyond, s3) => (Beyond, s3)
    end.
Proof.
  unfold join_member. monad_unfold. cbv zeta.
  destruct (getCell g fuel m _) as [[c|e|] s3]; try reflexivity.
  now destruct (0 <? forbidden_directions g (heap_get r s3) m c).
Qed.

Lemma join_member_spec r m s res s' :
  directions_apart g ->
  (r < length (heap s))%nat ->
  join_member g fuel r m s = (res, s') ->
  (forall e, res <> Raise e)
  /\ components s' = map_set m r (components s)
  /\ heap s' = list_set r (set_add m (heap_get r s)) (heap s)
  /\ dirty_grows s s'
  /\ cells_narrowed s s'
  /\ (res = Ret tt ->
      exists c', map_get m (unsolved s') = Some c'
        /\ forall d, In d (DIRECTIONS g) -> open_direction c' d ->
             In (fst (find_neighbour g m d)) (set_add m (heap_get r s)) ->
             In m (dirty s')
             /\ forall o, In o (possible c') -> int31 o -> band o d = 0).
Proof.
  intros Hdir Hr. rewrite join_member_eq. cbv zeta.
  set (s2 := set_heap _ _).
  destruct (getCell g fuel m s2) as [rc s3] eqn:Eg.
  pose proof (getCell_frame m s2 rc s3 Eg) as (Hc & Hh & Hd & Hk & Hne & Hret).
  assert (Hmem : heap_get r s3 = set_add m (heap_get r s)).
  { unfold heap_get at 1. rewrite Hh. unfold s2.
    fold (heap_get r (set_heap (list_set r (set_add m (heap_get r s)) (heap s))
                        (set_components (map_set m r (components s)) s))).
    now rewrite heap_get_list_set. }
  assert (Hkeep : cells_narrowed s s3).
  { intros k c Hkc. exists c. repeat split; auto using incl_refl. }
  destruct rc as [c|e|].
  - rewrite Hmem.
    destruct (forbidden_directions_spec (set_add m (heap_get r s)) m c Hdir) as [HR Hchosen].
    set (forbidden := forbidden_directions g (set_add m (heap_get r s)) m c) in *.
    pose proof (Hret c eq_refl) as Hm.
    destruct (0 <? forbidden) eqn:Epos; intros H; inversion H; subst; clear H.
    + rewrite Hm. cbn [components heap dirty unsolved set_dirty set_unsolved].
      split; [discriminate|]. repeat split; auto.
      * unfold dirty_grows in *. cbn [dirty set_dirty set_unsolved].
        eapply incl_tran; [exact Hd | apply set_add_incl].
      * intros k c0 Hk0. destruct (Hkeep k c0 Hk0) as (c1 & H1 & Hw & Hcn & Hp).
        cbn [unsolved set_dirty set_unsolved].
        destruct (Z.eq_dec k m) as [->|Hkm].
        -- rewrite map_get_set_same. exists (mustHaveAllWalls forbidden c).
           assert (c1 = c) by congruence. subst c1.
           repeat split; auto. simpl. intros o Ho. apply filter_In in Ho.
           apply Hp, Ho.
        -- rewrite map_get_set_other by assumption. exists c1. auto.
      * intros _. exists (mustHaveAllWalls forbidden c).
        rewrite map_get_set_same. split; [reflexivity|].
        intros d Hd0 Hopen Hin.
        destruct (Hchosen d Hd0 Hopen Hin) as [Hkb _].
        split; [apply set_add_In; now left|].
        intros o Ho Ho31. simpl in Ho. apply filter_In in Ho. destruct Ho as [_ Ho].
        apply negb_true_iff in Ho.
        destruct Hdir as [Hpos _]. rewrite Forall_forall in Hpos.
        apply (passed_filter forbidden); auto.
        unfold int31. pose proof (Hpos d Hd0). lia.
    + split; [discriminate|]. repeat split; auto.
      intros _. exists c. split; [exact Hm|].
      intros d Hd0 Hopen Hin.
      destruct (Hchosen d Hd0 Hopen Hin) as [_ Hgt].
      apply Z.ltb_ge in Epos. lia.
  - exfalso. now apply (Hne e).
  - intros H; inversion H; subst. split; [discriminate|].
    repeat split; auto. discriminate.
Qed.


Lemma heap_get_list_set_In r k f h s :
  (forall l, In k l -> In k (f l)) ->
  In k (heap_get r (set_heap h s)) ->
  In k (heap_get r (set_heap (list_set r (f (heap_get r (set_heap h s))) h) s)).
Proof.
  intros Hf. unfold heap_get. cbn [heap set_heap]. revert h.
  induction r as [|r IH]; intros [|x h]; simpl; auto.
Qed.

Lemma the_cell_narrowed s s' m c :
  cells_narrowed s s' -> map_get m (unsolved s) = Some c ->
  walls (the_cell m s') = walls c
  /\ connections (the_cell m s') = connections c
  /\ incl (possible (the_cell m s')) (possible c).
Proof.
  intros Hn Hm. destruct (Hn m c Hm) as (c' & H' & Hw & Hc & Hp).
  unfold the_cell. rewrite H'. auto.
Qed.

(** The whole loop of lines 235-257 *)
Lemma join_all_spec r members : forall s res s',
  directions_apart g ->
  (r < length (heap s))%nat ->
  forM_ members (join_member g fuel r) s = (res, s') ->
  (forall e, res <> Raise e)
  /\ dirty_grows s s'
  /\ cells_narrowed s s'
  /\ (res = Ret tt ->
      (forall k, map_get k (components s) = Some r -> map_get k (components s') = Some r)
      /\ (forall k, In k (heap_get r s) -> In k (heap_get r s'))
      /\ (forall m, In m members ->
            map_get m (components s') = Some r /\ In m (heap_get r s'))
      /\ (forall pre m post d,
            members = pre ++ m :: post ->
            In d (DIRECTIONS g) ->
            open_direction (the_cell m s') d ->
            In (fst (find_neighbour g m d)) (heap_get r s ++ pre ++ [m]) ->
            In m (dirty s')
            /\ forall o, In o (possible (the_cell m s')) -> int31 o -> band o d = 0)).
Proof.
  induction members as [|m0 rest IH]; intros s res s' Hdir Hr H.
  - cbn in H. unfold ret in H. inversion H; subst.
    split; [discriminate|].
    split; [apply dirty_grows_refl|]. split; [apply cells_narrowed_refl|].
    intros _. repeat split; auto; try contradiction.
    all: destruct pre; discriminate.
  - cbn [forM_] in H. unfold bind in H.
    destruct (join_member g fuel r m0 s) as [res1 s1] eqn:E1.
    destruct (join_member_spec r m0 s res1 s1 Hdir Hr E1)
      as (Hne1 & Hc1 & Hh1 & Hd1 & Hn1 & Hret1).
    destruct res1 as [[]|e|].
    + assert (Hr1 : (r < length (heap s1))%nat)
        by (rewrite Hh1, list_set_length; exact Hr).
      destruct (IH s1 res s' Hdir Hr1 H) as (Hne & Hd & Hn & Hret).
      split; [exact Hne|].
      split; [eapply dirty_grows_trans; eauto|].
      split; [eapply cells_narrowed_trans; eauto|].
      intros ->. destruct (Hret eq_refl) as (Hcomp & Hheap & Hmem & Hscan).
      destruct (Hret1 eq_refl) as (c' & Hc' & Hscan1).
      assert (Hheap1 : heap_get r s1 = set_add m0 (heap_get r s)).
      { unfold heap_get at 1. rewrite Hh1. now apply nth_list_set. }
      split; [|split; [|split]].
      * intros k Hk. apply Hcomp. rewrite Hc1.
        destruct (Z.eq_dec k m0) as [->|Hkm].
        -- apply map_get_set_same.
        -- now rewrite map_get_set_other.
      * intros k Hk. apply Hheap. rewrite Hheap1. apply set_add_In. now right.
      * intros m [<-|Hm]; [|now apply Hmem].
        split.
        -- apply Hcomp. rewrite Hc1. apply map_get_set_same.
        -- apply Hheap. rewrite Hheap1. apply set_add_In. now left.
      * intros pre m post d Hsplit Hd0 Hopen Hin.
        destruct pre as [|p pre]; cbn [app] in Hsplit;
          injection Hsplit as <- Hrest.
        -- destruct (the_cell_narrowed s1 s' m0 c' Hn Hc') as (Hw & Hcn & Hp).
           destruct (Hscan1 d Hd0) as [Hdirty Hposs].
           { unfold open_direction in *. now rewrite <- Hw, <- Hcn. }
           { apply set_add_In. rewrite in_app_iff in Hin. cbn in Hin.
             destruct Hin as [Hin|[Hin|[]]]; [now right | now left]. }
           split; [apply Hd, Hdirty|].
           intros o Ho. apply Hposs, Hp, Ho.
        -- apply (Hscan pre m post d Hrest Hd0 Hopen).
           rewrite Hheap1. rewrite in_app_iff in Hin |- *. rewrite set_add_In.
           cbn [app In] in Hin.
           destruct Hin as [Hin|[Hin|Hin]]; auto.
    + exfalso. now apply (Hne1 e).
    + inversion H; subst. split; [discriminate|].
      split; [exact Hd1|]. split; [exact Hn1|]. discriminate.
Qed.

(* ================================================================== *)
(** ** C6: mergeComponents *)

(** C6 (as amended). With the directions of the grid being masks of their
    own bits, [mergeComponents(index, neighbourIndex)] fails with
    LoopDetected if and only if both indices hold the same component object.
    When it succeeds, every member of the neighbour's component points to
    the component of [index] and belongs to it; and for every such member,
    each direction that is open on it and whose neighbour is in that
    component at the time the member is handled (the members it had before
    the call, the members joined before this one, and this one) has been
    removed from the orientations of the member, which is marked dirty. *)
Theorem C6_mergeComponents idx neighbourIndex s :
  refs_valid s -> directions_apart g ->
  let out := mergeComponents g fuel idx neighbourIndex s in
  (fst out = Raise LoopDetected <->
   exists r, map_get idx (components s) = Some r
             /\ map_get neighbourIndex (components s) = Some r)
  /\ (fst out = Ret tt ->
      exists r, map_get idx (components s) = Some r
        /\ (forall m, In m (neighbour_members neighbourIndex s) ->
              map_get m (components (snd out)) = Some r
              /\ In m (heap_get r (snd out)))
        /\ (forall pre m post d,
              neighbour_members neighbourIndex s = pre ++ m :: post ->
              In d (DIRECTIONS g) ->
              open_direction (the_cell m (snd out)) d ->
              In (fst (find_neighbour g m d)) (heap_get r s ++ pre ++ [m]) ->
              In m (dirty (snd out))
              /\ forall o, In o (possible (the_cell m (snd out))) ->
                   int31 o -> band o d = 0)).
Proof.
  intros Hrefs Hdir. cbv zeta.
  unfold mergeComponents, neighbour_members. monad_unfold.
  destruct (map_get idx (components s)) as [r|] eqn:Ei.
  2:{ cbn [fst snd]. split.
      - split; [discriminate | intros (r & Hr & _); discriminate].
      - discriminate. }
  pose proof (Hrefs idx r Ei) as Hr.
  destruct (map_get neighbourIndex (components s)) as [r2|] eqn:En.
  - destruct (Nat.eqb r r2) eqn:Eeq.
    + apply Nat.eqb_eq in Eeq. subst r2. cbn [fst snd]. split.
      * split; [intros _; now exists r | reflexivity].
      * discriminate.
    + apply Nat.eqb_neq in Eeq.
      destruct (forM_ (heap_get r2 s) (join_member g fuel r) s) as [res s'] eqn:E.
      destruct (join_all_spec r (heap_get r2 s) s res s' Hdir Hr E)
        as (Hne & _ & _ & Hret).
      cbn [fst snd]. split.
      * split; [intros ->; exfalso; now apply (Hne LoopDetected)|].
        intros (r0 & H1 & H2). congruence.
      * intros ->. exists r. split; [reflexivity|].
        destruct (Hret eq_refl) as (_ & _ & Hmem & Hscan). split; auto.
  - set (sa := set_heap (heap s ++ [[neighbourIndex]]) s).
    assert (Hneq : Nat.eqb r (length (heap s)) = false) by (apply Nat.eqb_neq; lia).
    rewrite Hneq.
    assert (Hga : heap_get (length (heap s)) sa = [neighbourIndex]).
    { unfold heap_get, sa. cbn [heap set_heap].
      rewrite app_nth2 by lia. now rewrite Nat.sub_diag. }
    rewrite Hga.
    assert (Hgr : heap_get r sa = heap_get r s).
    { unfold heap_get, sa. cbn [heap set_heap]. now rewrite app_nth1. }
    assert (Hra : (r < length (heap sa))%nat).
    { unfold sa. cbn [heap set_heap]. rewrite length_app. lia. }
    destruct (forM_ [neighbourIndex] (join_member g fuel r) sa) as [res s'] eqn:E.
    destruct (join_all_spec r [neighbourIndex] sa res s' Hdir Hra E)
      as (Hne & _ & _ & Hret).
    cbn [fst snd]. split.
    + split; [intros ->; exfalso; now apply (Hne LoopDetected)|].
      intros (r0 & H1 & H2). congruence.
    + intros ->. exists r. split; [reflexivity|].
      destruct (Hret eq_refl) as (_ & _ & Hmem & Hscan). split; auto.
      intros pre m post d Hsplit Hd Hopen Hin.
      apply (Hscan pre m post d Hsplit Hd Hopen). now rewrite Hgr.
Qed.

End Frames.

(** For disjoint marks, the test of line 245 says that the direction is
    neither a wall nor a connection *)
Lemma open_direction_marks c d :
  int31 (walls c) -> int31 (connections c) -> disjoint_marks c -> int31 d ->
  open_direction c d <-> band (walls c) d = 0 /\ band (connections c) d = 0.
Proof.
  intros Hw Hc Hdis Hd. unfold open_direction, disjoint_marks in *.
  rewrite band_small in Hdis by assumption.
  rewrite add_disjoint by assumption.
  rewrite !band_small by auto using int31_lor.
  rewrite Z.ltb_ge.
  assert (H0 : 0 <= Z.land (Z.lor (walls c) (connections c)) d)
    by (apply Z.land_nonneg; right; apply Hd).
  split.
  - intros H. assert (E : Z.land (Z.lor (walls c) (connections c)) d = 0) by lia.
    split; bit_goal n; bit_hyp n E; bit_cases.
  - intros [E1 E2].
    assert (E : Z.land (Z.lor (walls c) (connections c)) d = 0)
      by (bit_goal n; bit_hyp n E1; bit_hyp n E2; bit_cases).
    lia.
Qed.

Lemma grid22_directions_apart : directions_apart grid22.
Proof.
  split.
  - repeat constructor.
  - repeat constructor.
Qed.

Lemma merge_state_refs_valid : refs_valid merge_state.
Proof.
  intros k r H. cbn in H.
  repeat match type of H with
    | (if ?b then _ else _) = _ => destruct b
    end; inversion H; cbn; lia.
Qed.

Lemma C6_mergeComponents_witness :
  let out := mergeComponents grid22 16 3 1 merge_state in
  (fst out = Raise LoopDetected <->
   exists r, map_get 3 (components merge_state) = Some r
             /\ map_get 1 (components merge_state) = Some r)
  /\ (fst out = Ret tt ->
      exists r, map_get 3 (components merge_state) = Some r
        /\ (forall m, In m (neighbour_members 1 merge_state) ->
              map_get m (components (snd out)) = Some r
              /\ In m (heap_get r (snd out)))
        /\ (forall pre m post d,
              neighbour_members 1 merge_state = pre ++ m :: post ->
              In d (DIRECTIONS grid22) ->
              open_direction (the_cell m (snd out)) d ->
              In (fst (find_neighbour grid22 m d)) (heap_get r merge_state ++ pre ++ [m]) ->
              In m (dirty (snd out))
              /\ forall o, In o (possible (the_cell m (snd out))) ->
                   int31 o -> band o d = 0)).
Proof.
  apply (C6_mergeComponents grid22 16 3 1 merge_state).
  - exact merge_state_refs_valid.
  - exact grid22_directions_apart.
Defined.

(** C6 as stated fails for its second half: in [merge_state],
    [mergeComponents(3, 1)] joins the members 0 and 1 in this order. When 0
    is handled, 1 is not yet in the component of 3, so the open direction
    west of 0, which leads to 1, is not forbidden: the orientation 21 (east,
    north, west) stays, and 0 is not marked dirty. *)
Lemma C6_counterexample :
  fst (mergeComponents grid22 16 3 1 merge_state) = Ret tt
  /\ ~ walls_forced_against_unified grid22
         (snd (mergeComponents grid22 16 3 1 merge_state)) 0%nat
         (neighbour_members 1 merge_state).
Proof.
  split; [reflexivity|].
  intros H. destruct (H 0 16) as [Hd _].
  - cbn. now left.
  - cbn. tauto.
  - reflexivity.
  - vm_compute. tauto.
  - vm_compute in Hd. intuition discriminate.
Qed.


Lemma C7_settle_witness :
  settle_spec 1 round_middle (processDirtyCell grid11 16 1 round_start)
  /\ (forall n st s2,
        set_first (dirty round_start) = Some 1 ->
        processDirtyCell grid11 16 1 round_start = (Ret st, s2) ->
        step_index st = 1
        /\ exists rest,
             fst (fst (processDirtyCells_loop grid11 16 (S n) round_start)) = st :: rest).
Proof.
  apply (C7_settle grid11 16 1 round_start round_middle).
  - lia.
  - vm_compute. reflexivity.
Defined.

(* ================================================================== *)
(** ** C4: the contradictions that reach the caller *)

(** The loop over the trials of [markAmbiguousTiles] throws nothing *)
Lemma mark_loop_never_raises g fuel n : forall self stack mk uniq e,
  mark_loop g fuel n self stack mk uniq <> Raise e.
Proof.
  induction n as [|n IH]; intros self stack mk uniq e; cbn [mark_loop];
    [discriminate|].
  destruct (processDirtyCells g fuel (top_solver self stack)) as [[steps r] solver].
  destruct (set_top self stack solver) as [self1 stack1].
  destruct r as [[]|e'|]; [| |discriminate].
  - destruct (Nat.eqb (length (unsolved solver)) 0).
    + destruct (merge_solution mk uniq (solution solver)) as [mk' uniq'].
      destruct stack1 as [|[[i gs] sv] rest]; [discriminate|].
      destruct (backtrack i gs self1 rest). apply IH.
    + destruct (Solver_clone g fuel solver) as [clone|]; [|discriminate].
      destruct (commit_guess _ clone); try discriminate.
      * destruct (set_top self1 stack1 (set_unsolved [] solver)). apply IH.
      * apply IH.
  - destruct stack1 as [|[[i gs] sv] rest]; [discriminate|].
    destruct (backtrack i gs self1 rest). apply IH.
Qed.

(** X1. [markAmbiguousTiles] hands no exception to its caller: what the
    initial pass throws is caught at line 658, what a trial throws at line
    682, and the loop over the trials throws nothing of its own. *)
Lemma markAmbiguousTiles_never_raises g fuel self e :
  markAmbiguousTiles g fuel self <> Raise e.
Proof.
  unfold markAmbiguousTiles, markAmbiguousTiles_trace.
  destruct (if set_size (dirty self) =? 0 then _ else _) as [[steps r0] s0].
  destruct r0 as [[]|e'|]; try discriminate.
  pose proof (mark_loop_never_raises g fuel fuel s0 []
                (fold_left
                   (fun mk st =>
                      if step_final st
                      then array_set mk (step_index st) (step_orientation st)
                      else mk) steps (solution self)) true) as H.
  destruct (mark_loop g fuel fuel s0 [] _ true) as [[mk uniq]|e'|];
    try discriminate.
  exfalso. now apply (H e').
Qed.

(** C4 (the code at the failing input). On the board of one octagon that
    holds a dead end, [solve()] ends with NoOrientationsPossible in the hands
    of its consumer, nothing yielded and no solution recorded; on the same
    input [markAmbiguousTiles()] catches the exception and returns
    [solvable: false]. *)
Theorem C4_solve_lets_a_contradiction_escape :
  solve grid11 16 false (new_Solver lonely_dead_end)
  = ([], Raise NoOrientationsPossible,
     snd (solve grid11 16 false (new_Solver lonely_dead_end)))
  /\ solutions (snd (solve grid11 16 false (new_Solver lonely_dead_end))) = []
  /\ markAmbiguousTiles grid11 16 (new_Solver lonely_dead_end)
     = Ret (mkMarkResult [Some UNSOLVED; Some 0] false false).
Proof.
  split; [vm_compute; reflexivity|].
  split; vm_compute; reflexivity.
Qed.

(* ================================================================== *)
(** ** C3: a puzzle with a solution that solve does not find *)

(** C3 (the code at the failing input). Two dead ends facing each other,
    alone in a row of five octagons, solve their own puzzle; the grid has
    10 cells, more than [DIRECTIONS.length + 1], so the dead-end rule of
    [doLocalDeductions] is on and removes the one fitting orientation of
    each: [solve(false)] ends with NoOrientationsPossible and records no
    solution. *)
Theorem C3_two_dead_ends_are_not_solved :
  is_solution grid51 16 two_dead_ends two_dead_ends = true
  /\ checkDeadendConnections grid51 = true
  /\ snd (fst (solve grid51 16 false (new_Solver two_dead_ends)))
     = Raise NoOrientationsPossible
  /\ solutions (snd (solve grid51 16 false (new_Solver two_dead_ends))) = [].
Proof.
  split; [vm_compute; reflexivity|].
  split; [vm_compute; reflexivity|].
  split; vm_compute; reflexivity.
Qed.

(* ================================================================== *)
(** ** C10: the solvable flag *)



(* ================================================================== *)
(** ** C5: the patience of generate *)

Section Patience.

Variable gg : GenGrid.
Variable reuseTilesMinCount : Z.
Variables uniquenessPatience maxUniquenessIterations maxAttempts : Z.
Variable rnd : nat -> Random.
Variable rot : Random.
Variable fuel : nat.
Variables branchingAmount avoidObvious avoidStraights : Q.

#[local] Abbreviation untouched :=
  (fun e : LogEntry =>
     log_patienceLeft e = uniquenessPatience /\ log_ambiguous e = None).

Lemma unique_inner_console n : forall attempt uniqueIter patienceLeft ambiguous
    startTiles tl calls console seeds,
  Forall untouched console ->
  Forall untouched
    (snd (fst (unique_inner gg reuseTilesMinCount uniquenessPatience rnd rot fuel
                 branchingAmount avoidObvious avoidStraights
                 n attempt uniqueIter patienceLeft ambiguous startTiles tl
                 calls console seeds))).
Proof.
  induction n as [|n IH]; intros; cbn [unique_inner]; [assumption|].
  destruct (mark gg fuel tl) as [r|e|]; try assumption.
  destruct (unique r); [assumption|].
  unfold numAmbiguous_of. cbn [js_ge].
  assert (Hc : Forall untouched
                 (console ++ [mkLogEntry attempt (uniqueIter + 1) None uniquenessPatience])).
  { apply Forall_app. split; [assumption|]. repeat constructor. }
  destruct (uniquenessPatience =? 0); [exact Hc|].
  destruct (pregenerate _ _ _ _ _ _ _ _ _) as [tl'|e|]; try exact Hc.
  now apply IH.
Qed.

Lemma unique_outer_console n : forall attempt startTiles calls console seeds,
  Forall untouched console ->
  Forall untouched
    (gen_console
       (unique_outer gg reuseTilesMinCount uniquenessPatience
          maxUniquenessIterations rnd rot fuel branchingAmount avoidObvious
          avoidStraights n attempt startTiles calls console seeds)).
Proof.
  induction n as [|n IH]; intros; cbn [unique_outer]; [assumption|].
  destruct (pregenerate _ _ _ _ _ _ _ _ _) as [tl|e|]; try assumption.
  pose proof (unique_inner_console (Z.to_nat maxUniquenessIterations)
                (attempt + 1) 0 uniquenessPatience (Some (total (base gg)))
                startTiles tl (S calls) console (seeds ++ [startTiles]) H) as Hi.
  destruct (unique_inner _ _ _ _ _ _ _ _ _ _ _ _ _ _ _ _ _ _ _) as [[[res calls'] console'] seeds'].
  cbn [fst snd] in Hi.
  destruct res as [result|startTiles']; [exact Hi|].
  now apply IH.
Qed.

(** C5 (the code at every input, and at the failing one). On every grid,
    whatever [Math.random] draws and whatever [markAmbiguousTiles] returns,
    every line logged by [generate] in the 'unique' mode shows [patienceLeft]
    at [uniquenessPatience] and the ambiguous count [undefined]: the patience
    is never used up. In the run of the example, with a patience of 2, the one
    attempt goes through all 5 inner iterations, and the marked layout of
    each iteration, not the best one, is the seed of the next call. *)
Theorem C5_patience_is_never_used_up :
  Forall untouched
    (gen_console
       (generate gg reuseTilesMinCount uniquenessPatience maxUniquenessIterations
          maxAttempts rnd rot fuel branchingAmount avoidObvious avoidStraights
          sn_unique))
  /\ gen_result stubborn_run = GenThrow CouldNotGenerateUnique
  /\ map log_uniqueIter (gen_console stubborn_run) = [1; 2; 3; 4; 5]
  /\ map log_patienceLeft (gen_console stubborn_run) = [2; 2; 2; 2; 2]
  /\ map log_ambiguous (gen_console stubborn_run) = [None; None; None; None; None]
  /\ length (gen_seeds stubborn_run) = 6%nat.
Proof.
  split; [apply unique_outer_console; constructor|].
  split; [vm_compute; reflexivity|].
  split; [vm_compute; reflexivity|].
  split; [vm_compute; reflexivity|].
  split; vm_compute; reflexivity.
Qed.

End Patience.


(* ================================================================== *)
(** ** Draws *)

Lemma random_index_bound rnd k n :
  draws_ok rnd -> (0 < n)%nat -> (random_index rnd k n < n)%nat.
Proof.
  intros Hr Hn. destruct (Hr k) as [H0 H1]. unfold random_index.
  set (x := (rnd k * inject_Z (Z.of_nat n))%Q).
  assert (Hn0 : (0 < inject_Z (Z.of_nat n))%Q).
  { change 0%Q with (inject_Z 0). rewrite <- Zlt_Qlt. lia. }
  assert (Hx0 : (0 <= x)%Q) by (apply Qmult_le_0_compat; auto using Qlt_le_weak).
  assert (Hx1 : (x < inject_Z (Z.of_nat n))%Q).
  { unfold x. rewrite <- (Qmult_1_l (inject_Z (Z.of_nat n))) at 2.
    apply Qmult_lt_compat_r; assumption. }
  assert (Hf0 : 0 <= Qfloor x).
  { change 0 with (Qfloor 0). now apply Qfloor_resp_le. }
  assert (Hf1 : Qfloor x < Z.of_nat n).
  { rewrite Zlt_Qlt. eapply Qle_lt_trans; [apply Qfloor_le | exact Hx1]. }
  lia.
Qed.

Lemma nth_random_In {A} rnd k (l : list A) d :
  draws_ok rnd -> l <> [] -> In (nth (random_index rnd k (length l)) l d) l.
Proof.
  intros Hr Hl. apply nth_In. apply random_index_bound; auto.
  destruct l; [congruence | simpl; lia].
Qed.

(* ================================================================== *)
(** ** Lists of nodes *)

Lemma last_In {A} (l : list A) d : l <> [] -> In (last l d) l.
Proof.
  induction l as [|a [|b l] IH]; intros H; [congruence | now left |].
  right. apply IH. discriminate.
Qed.

Lemma In_removelast (l : list Z) x d :
  In x l -> x <> last l d -> In x (removelast l).
Proof.
  induction l as [|a [|b l] IH]; intros Hin Hne; [contradiction| |].
  - destruct Hin as [->|[]]. now contradiction Hne.
  - destruct Hin as [->|Hin]; [now left|]. right. apply IH; auto.
Qed.

Lemma In_remove_first x y l l' :
  remove_first y l = Some l' -> In x l -> x <> y -> In x l'.
Proof.
  revert l'. induction l as [|a l IH]; intros l' H Hin Hne; [discriminate|].
  simpl in H. destruct (y =? a) eqn:E.
  - apply Z.eqb_eq in E. subst a. injection H as <-.
    destruct Hin as [->|Hin]; [congruence | assumption].
  - destruct (remove_first y l) as [r|]; [|discriminate].
    injection H as <-. destruct Hin as [->|Hin]; [now left|].
    right. now apply IH.
Qed.

Lemma remove_first_None y l : remove_first y l = None -> ~ In y l.
Proof.
  induction l as [|a l IH]; intros H Hin; [contradiction|].
  simpl in H. destruct (y =? a) eqn:E; [discriminate|].
  destruct (remove_first y l); [discriminate|].
  destruct Hin as [->|Hin]; [rewrite Z.eqb_refl in E; discriminate|].
  now apply IH.
Qed.

Lemma remove_first_incl y l l' : remove_first y l = Some l' -> incl l' l.
Proof.
  revert l'. induction l as [|a l IH]; intros l' H; [discriminate|].
  simpl in H. destruct (y =? a).
  - injection H as <-. apply incl_tl, incl_refl.
  - destruct (remove_first y l) as [r|]; [|discriminate].
    injection H as <-. intros x [->|Hx]; [now left|]. right. now apply (IH r).
Qed.

Lemma removelast_incl {A} (l : list A) : incl (removelast l) l.
Proof.
  induction l as [|a [|b l] IH]; intros x Hx; try contradiction.
  destruct Hx as [->|Hx]; [now left|]. right. now apply IH.
Qed.

(** Dropping the node gone from: every other node stays *)
Lemma In_splice_indexOf x y l :
  In x l -> x <> y -> In y l -> In x (splice_indexOf y l).
Proof.
  intros Hin Hne Hy. unfold splice_indexOf.
  destruct (remove_first y l) as [l'|] eqn:E.
  - eapply In_remove_first; eauto.
  - exfalso. eapply remove_first_None; eauto.
Qed.

Lemma splice_indexOf_incl y l : incl (splice_indexOf y l) l.
Proof.
  unfold splice_indexOf. destruct (remove_first y l) eqn:E.
  - eapply remove_first_incl; eauto.
  - apply removelast_incl.
Qed.

(** Sets *)
Lemma set_delete_In x y s : In y (set_delete x s) <-> In y s /\ y <> x.
Proof.
  unfold set_delete. rewrite filter_In. split; intros [H1 H2]; split; auto.
  - intros ->. rewrite Z.eqb_refl in H2. discriminate.
  - apply negb_true_iff, Z.eqb_neq. congruence.
Qed.


(* ================================================================== *)
(** ** Arrays of masks *)

Lemma nth_error_list_set_same {A} n (v : A) l :
  (n < length l)%nat -> nth_error (list_set n v l) n = Some v.
Proof.
  revert l. induction n as [|n IH]; intros [|a l] H; simpl in *; try lia; auto.
  apply IH. lia.
Qed.

Lemma nth_error_list_set_other {A} n m (v : A) l :
  n <> m -> nth_error (list_set n v l) m = nth_error l m.
Proof.
  revert m l. induction n as [|n IH]; intros [|m] [|a l] H; simpl; auto;
    try congruence.
Qed.

Lemma array_add_spec tl i d tl' :
  array_add tl i d = Some tl' ->
  mask_at tl' i = mask_at tl i + d
  /\ (forall k, k <> i -> mask_at tl' k = mask_at tl k)
  /\ length tl' = length tl.
Proof.
  unfold array_add, mask_at, array_get.
  destruct (i <? 0) eqn:Ei; [discriminate|]. apply Z.ltb_ge in Ei.
  destruct (nth_error tl (Z.to_nat i)) as [v|] eqn:Ev; [|discriminate].
  intros H. injection H as <-.
  assert (Hlt : (Z.to_nat i < length tl)%nat)
    by (apply nth_error_Some; congruence).
  split; [|split].
  - now rewrite nth_error_list_set_same.
  - intros k Hk. destruct (k <? 0) eqn:Ek; [reflexivity|]. apply Z.ltb_ge in Ek.
    rewrite nth_error_list_set_other by lia. reflexivity.
  - apply list_set_length.
Qed.

Lemma array_add_ok tl i d :
  0 <= i -> (Z.to_nat i < length tl)%nat -> exists tl', array_add tl i d = Some tl'.
Proof.
  intros H0 H. unfold array_add, array_get.
  destruct (i <? 0) eqn:Ei; [apply Z.ltb_lt in Ei; lia|].
  destruct (nth_error tl (Z.to_nat i)) eqn:E; [eauto|].
  apply nth_error_None in E. lia.
Qed.

(* ================================================================== *)
(** ** Directions and arms *)

Lemma apart_pair (l : list Z) a b :
  ForallOrdPairs (fun a b => Z.land a b = 0) l ->
  In a l -> In b l -> a <> b -> Z.land a b = 0.
Proof.
  induction 1 as [|x l Hx Hl IH]; intros Ha Hb Hne; [contradiction|].
  rewrite Forall_forall in Hx.
  destruct Ha as [->|Ha], Hb as [->|Hb]; try congruence; auto.
  rewrite Z.land_comm. auto.
Qed.

Section Arms.

Variable g : Grid.
Hypothesis Hdirs : directions_apart g.

Lemma direction_int31 d : In d (DIRECTIONS g) -> int31 d /\ 0 < d.
Proof.
  destruct Hdirs as [H _]. rewrite Forall_forall in H. intros Hd.
  specialize (H d Hd). unfold int31. lia.
Qed.

Lemma directions_differ a b :
  In a (DIRECTIONS g) -> In b (DIRECTIONS g) -> a <> b -> Z.land a b = 0.
Proof. destruct Hdirs as [_ H]. now apply apart_pair. Qed.

Lemma land_self_direction d : In d (DIRECTIONS g) -> Z.land d d <> 0.
Proof. intros H. rewrite Z.land_diag. destruct (direction_int31 d H). lia. Qed.

(** Adding a direction that the mask does not have: the sum sets one bit *)
Lemma add_direction m d :
  int31 m -> In d (DIRECTIONS g) -> (0 <? band d m) = false ->
  m + d = Z.lor m d /\ int31 (m + d) /\ Z.land m d = 0.
Proof.
  intros Hm Hd Hb. destruct (direction_int31 d Hd) as [Hd31 _].
  rewrite band_small in Hb by assumption. apply Z.ltb_ge in Hb.
  assert (H0 : 0 <= Z.land d m) by (apply Z.land_nonneg; left; apply Hd31).
  assert (E : Z.land m d = 0) by (rewrite Z.land_comm; lia).
  rewrite (add_disjoint m d E). repeat split; auto; apply int31_lor; auto.
Qed.

Lemma band_add_direction m d d' :
  int31 m -> In d (DIRECTIONS g) -> In d' (DIRECTIONS g) ->
  (0 <? band d m) = false ->
  (band (m + d) d' <> 0 <-> band m d' <> 0 \/ d' = d).
Proof.
  intros Hm Hd Hd' Hb.
  destruct (add_direction m d Hm Hd Hb) as (E & H31 & Hdis).
  destruct (direction_int31 d Hd) as [Hd31 Hdpos].
  destruct (direction_int31 d' Hd') as [Hd'31 _].
  rewrite !band_small by assumption. rewrite E.
  rewrite Z.land_lor_distr_l.
  destruct (Z.eq_dec d' d) as [->|Hne].
  - rewrite Z.land_diag. split; [auto|]. intros _ H.
    apply Z.lor_eq_0_iff in H. lia.
  - rewrite (directions_differ d d') by auto. rewrite Z.lor_0_r. tauto.
Qed.

Lemma band_add_mono m d x :
  int31 m -> In d (DIRECTIONS g) -> (0 <? band d m) = false ->
  band m x <> 0 -> band (m + d) x <> 0.
Proof.
  intros Hm Hd Hb. destruct (add_direction m d Hm Hd Hb) as (E & H31 & _).
  unfold band. rewrite (toInt32_small m Hm), (toInt32_small (m + d) H31), E.
  rewrite Z.land_lor_distr_l. intros H H0. apply Z.lor_eq_0_iff in H0. tauto.
Qed.

Lemma band_0_l d : band 0 d = 0.
Proof. unfold band. reflexivity. Qed.

Lemma band_direction d d' :
  In d (DIRECTIONS g) -> In d' (DIRECTIONS g) -> (band d d' <> 0 <-> d' = d).
Proof.
  intros Hd Hd'.
  destruct (direction_int31 d Hd) as [Hd31 Hdpos].
  destruct (direction_int31 d' Hd') as [Hd'31 _].
  rewrite band_small by assumption. split.
  - intros H. destruct (Z.eq_dec d' d); auto.
    exfalso. apply H. apply directions_differ; auto.
  - intros ->. rewrite Z.land_diag. lia.
Qed.

Lemma NoDup_directions : NoDup (DIRECTIONS g).
Proof.
  destruct Hdirs as [Hpos Hpairs].
  induction Hpairs as [|a l Ha Hl IH]; constructor.
  - intros Hin. rewrite Forall_forall in Ha. specialize (Ha a Hin).
    rewrite Z.land_diag in Ha. inversion Hpos as [|? ? Hp _]; subst. lia.
  - apply IH. now inversion Hpos.
Qed.

End Arms.

(* ================================================================== *)
(** ** Counting *)

Lemma sum_same (f f' : Z -> nat) l :
  (forall k, In k l -> f' k = f k) ->
  fold_right (fun i n => (f' i + n)%nat) 0%nat l
  = fold_right (fun i n => (f i + n)%nat) 0%nat l.
Proof.
  induction l as [|x l IH]; intros H; [reflexivity|]. simpl.
  rewrite H by now left. rewrite IH; auto. intros; apply H; now right.
Qed.

Lemma sum_bump (f f' : Z -> nat) a l :
  NoDup l -> In a l -> f' a = S (f a) ->
  (forall k, In k l -> k <> a -> f' k = f k) ->
  fold_right (fun i n => (f' i + n)%nat) 0%nat l
  = S (fold_right (fun i n => (f i + n)%nat) 0%nat l).
Proof.
  intros Hnd Hin Ha Hother. induction Hnd as [|x l Hx Hnd IH]; [contradiction|].
  simpl. destruct Hin as [->|Hin].
  - rewrite Ha. rewrite (sum_same f f' l); [lia|].
    intros k Hk. apply Hother; [now right|]. intros ->. contradiction.
  - rewrite (Hother x); [|now left|intros ->; contradiction].
    rewrite IH; [lia|assumption|].
    intros k Hk. apply Hother. now right.
Qed.

Lemma filter_same {A} (p p' : A -> bool) l :
  (forall k, In k l -> p' k = p k) -> filter p' l = filter p l.
Proof.
  induction l as [|x l IH]; intros H; [reflexivity|]. simpl.
  rewrite H by now left. rewrite IH; auto. intros; apply H; now right.
Qed.

Lemma filter_all {A} (p : A -> bool) l :
  (forall k, In k l -> p k = true) -> filter p l = l.
Proof.
  induction l as [|x l IH]; intros H; [reflexivity|]. simpl.
  rewrite H by now left. rewrite IH; auto. intros; apply H; now right.
Qed.

Lemma filter_none {A} (p : A -> bool) l :
  (forall k, In k l -> p k = false) -> filter p l = [].
Proof.
  induction l as [|x l IH]; intros H; [reflexivity|]. simpl.
  rewrite H by now left. apply IH. intros; apply H; now right.
Qed.

Lemma count_bump (p p' : Z -> bool) a l :
  NoDup l -> In a l -> p a = false -> p' a = true ->
  (forall k, In k l -> k <> a -> p' k = p k) ->
  length (filter p' l) = S (length (filter p l)).
Proof.
  intros Hnd Hin Hpa Hp'a Hother. induction Hnd as [|x l Hx Hnd IH]; [contradiction|].
  simpl. destruct Hin as [->|Hin].
  - rewrite Hpa, Hp'a. simpl. f_equal. f_equal. apply filter_same.
    intros k Hk. apply Hother; [now right|]. intros ->. contradiction.
  - rewrite (Hother x); [|now left|intros ->; contradiction].
    assert (E : length (filter p' l) = S (length (filter p l))).
    { apply IH; auto. intros k Hk. apply Hother. now right. }
    destruct (p x); simpl; rewrite E; reflexivity.
Qed.

Lemma filter_shorter (p : Z -> bool) a l :
  In a l -> p a = false -> (length (filter p l) < length l)%nat.
Proof.
  induction l as [|x l IH]; intros Hin Hp; [contradiction|]. simpl.
  destruct Hin as [->|Hin].
  - rewrite Hp. pose proof (filter_length_le p l). lia.
  - specialize (IH Hin Hp). destruct (p x); simpl; lia.
Qed.

Lemma NoDup_grid_cells g : NoDup (grid_cells g).
Proof.
  unfold grid_cells. apply NoDup_filter.
  generalize (seq_NoDup (Z.to_nat (total g)) 0).
  generalize (seq 0 (Z.to_nat (total g))).
  induction 1 as [|x l Hx Hnd IH]; simpl; constructor; auto.
  rewrite in_map_iff. intros (y & Hy & Hin).
  apply Nat2Z.inj in Hy. congruence.
Qed.

Lemma grid_cells_range g i :
  In i (grid_cells g) ->
  0 <= i /\ (Z.to_nat i < Z.to_nat (total g))%nat /\ ~ In i (emptyCells g).
Proof.
  unfold grid_cells. rewrite filter_In, in_map_iff.
  intros [(k & <- & Hk) Hne]. apply in_seq in Hk.
  repeat split; try lia.
  intros Hin. apply set_has_In in Hin. rewrite Hin in Hne. discriminate.
Qed.

(* ================================================================== *)
(** ** Crossing from the joined cells to the others *)

Lemma crossing {A} (R : A -> A -> Prop) (P : A -> Prop) a b :
  (forall x, P x \/ ~ P x) ->
  clos_refl_trans A R a b -> P a -> ~ P b ->
  exists i j, P i /\ ~ P j /\ R i j.
Proof.
  intros Hdec H. apply clos_rt_rt1n in H.
  induction H as [x|x y z Hxy Hyz IH]; intros Hx Hz; [contradiction|].
  destruct (Hdec y) as [Hy|Hy].
  - now apply IH.
  - exists x, y. auto.
Qed.


(* ================================================================== *)
(** ** The moves offered from a node *)

Section Classify.

Variable gg : GenGrid.
Variable rnd : Random.
Variables avoidObvious avoidStraights : Q.
Variable tf : list (Z * list Z).
Variable w : Walk.
Variable fromNode : Z.

#[local] Abbreviation step := (classify_move gg rnd avoidObvious avoidStraights tf w fromNode).

#[local] Abbreviation blocked := (blocked gg w fromNode).

Lemma in_all_moves m t :
  In m (all_moves t) <->
  In m (unvisitedNeighbours t) \/ In m (straightNeighbours t)
  \/ In m (obviousNeighbours t) \/ In m (fullyConnectedNeighbours t).
Proof. unfold all_moves. rewrite !in_app_iff. tauto. Qed.

Lemma classify_move_cases t k d :
  (blocked d /\ fst (step (t, k) d) = t)
  \/ (exists nb,
        (0 <? band d (mask_at (w_tiles w) fromNode)) = false
        /\ find_neighbour (base gg) fromNode d = (nb, false)
        /\ set_has nb (unvisited w) = true
        /\ forall m, In m (all_moves (fst (step (t, k) d)))
                     <-> In m (all_moves t) \/ m = mkMove nb d).
Proof.
  unfold classify_move, blocked.
  destruct (0 <? band d (mask_at (w_tiles w) fromNode)) eqn:Eb; [left; auto|].
  destruct (find_neighbour (base gg) fromNode d) as [nb empty] eqn:En.
  destruct empty; simpl orb; [left; simpl; auto|].
  destruct (set_has nb (unvisited w)) eqn:Eu; simpl negb; cbv iota;
    [|left; simpl; auto].
  right. exists nb. split; [reflexivity|]. split; [reflexivity|]. split; [exact Eu|].
  intros m.
  destruct (fully _ || _).
  { simpl fst. rewrite !in_all_moves. simpl. rewrite in_app_iff. simpl.
    intuition congruence. }
  destruct (match map_get fromNode tf with Some _ => _ | None => _ end) as [obvious k1].
  destruct obvious.
  { simpl fst. rewrite !in_all_moves. simpl. rewrite in_app_iff. simpl.
    intuition congruence. }
  destruct (if straight _ then _ else _) as [avoid k2].
  destruct avoid.
  { simpl fst. rewrite !in_all_moves. simpl. rewrite in_app_iff. simpl.
    intuition congruence. }
  simpl fst. rewrite !in_all_moves. simpl. rewrite in_app_iff. simpl.
  intuition congruence.
Qed.

Lemma classify_fold_sound l : forall acc,
  incl l (directions (polygon_at gg fromNode)) ->
  (forall m, In m (all_moves (fst acc)) -> offered gg w fromNode m) ->
  forall m, In m (all_moves (fst (fold_left step l acc))) -> offered gg w fromNode m.
Proof.
  induction l as [|d l IH]; intros [t k] Hl Hacc m Hm; [auto|].
  apply (IH (step (t, k) d)); [| |exact Hm].
  - intros x Hx. apply Hl. now right.
  - intros m' Hm'.
    destruct (classify_move_cases t k d) as [[_ E]|(nb & Hb & Hn & Hu & Hall)].
    + rewrite E in Hm'. now apply Hacc.
    + apply Hall in Hm'. destruct Hm' as [Hm'| ->]; [now apply Hacc|].
      unfold offered. simpl. repeat split; auto.
      * apply Hl. now left.
      * now apply set_has_In.
Qed.

Lemma classify_fold_grows l : forall acc m,
  In m (all_moves (fst acc)) -> In m (all_moves (fst (fold_left step l acc))).
Proof.
  induction l as [|d l IH]; intros [t k] m Hm; [auto|].
  apply (IH (step (t, k) d)).
  destruct (classify_move_cases t k d) as [[_ E]|(nb & _ & _ & _ & Hall)].
  - now rewrite E.
  - apply Hall. now left.
Qed.

Lemma classify_fold_complete l : forall acc,
  all_moves (fst (fold_left step l acc)) = [] ->
  forall d, In d l -> blocked d.
Proof.
  induction l as [|d l IH]; intros [t k] Hnil d0 Hd0; [contradiction|].
  change (all_moves (fst (fold_left step l (step (t, k) d))) = []) in Hnil.
  destruct Hd0 as [<-|Hd0]; [|eapply IH; eauto].
  destruct (classify_move_cases t k d) as [[Hb _]|(nb & _ & _ & _ & Hall)]; [auto|].
  exfalso.
  assert (H : In (mkMove nb d) (all_moves (fst (fold_left step l (step (t, k) d))))).
  { apply classify_fold_grows. apply Hall. now right. }
  rewrite Hnil in H. contradiction.
Qed.

(** Every move of a tier is offered *)
Lemma classify_sound k m :
  In m (all_moves (fst (classify gg rnd avoidObvious avoidStraights tf w fromNode k))) ->
  offered gg w fromNode m.
Proof.
  unfold classify. apply classify_fold_sound; [apply incl_refl|].
  simpl. contradiction.
Qed.

(** With no move in any tier, every direction of the polygon is blocked *)
Lemma classify_complete k d :
  all_moves (fst (classify gg rnd avoidObvious avoidStraights tf w fromNode k)) = [] ->
  In d (directions (polygon_at gg fromNode)) -> blocked d.
Proof. unfold classify. intros H. eapply classify_fold_complete; eauto. Qed.

End Classify.

(** The move made is of one of the tiers *)
Lemma choose_move_Some rnd t k src m k' :
  draws_ok rnd ->
  choose_move rnd t k = (Some (src, m), k') ->
  In m (all_moves t).
Proof.
  intros Hr. unfold choose_move. rewrite in_all_moves.
  destruct (unvisitedNeighbours t) as [|a1 l1] eqn:E1.
  2:{ intros H. injection H as <- <- <-.
      left. apply (nth_random_In rnd k (a1 :: l1)); auto. discriminate. }
  destruct (straightNeighbours t) as [|a2 l2] eqn:E2.
  2:{ intros H. injection H as <- <- <-.
      right; left. apply (nth_random_In rnd k (a2 :: l2)); auto. discriminate. }
  destruct (obviousNeighbours t) as [|a3 l3] eqn:E3.
  2:{ intros H. injection H as <- <- <-.
      right; right; left. apply (nth_random_In rnd k (a3 :: l3)); auto. discriminate. }
  destruct (fullyConnectedNeighbours t) as [|a4 l4] eqn:E4.
  2:{ intros H. injection H as <- <- <-.
      right; right; right. apply (nth_random_In rnd k (a4 :: l4)); auto. discriminate. }
  discriminate.
Qed.

Lemma choose_move_None rnd t k k' :
  choose_move rnd t k = (None, k') -> all_moves t = [].
Proof.
  unfold choose_move, all_moves.
  destruct (unvisitedNeighbours t); [|discriminate].
  destruct (straightNeighbours t); [|discriminate].
  destruct (obviousNeighbours t); [|discriminate].
  destruct (fullyConnectedNeighbours t); [|discriminate].
  reflexivity.
Qed.


(* ================================================================== *)
(** ** Arms, edges and links *)

Lemma band_comm a b : band a b = band b a.
Proof. unfold band. apply Z.land_comm. Qed.

Lemma set_has_delete i x s :
  set_has i (set_delete x s) = set_has i s && negb (i =? x).
Proof.
  apply eq_true_iff_eq. rewrite andb_true_iff, negb_true_iff, Z.eqb_neq.
  rewrite !set_has_In. apply set_delete_In.
Qed.

Section Links.

Variable g : Grid.

Lemma In_arms tl i d :
  In d (arms g tl i) <-> In d (DIRECTIONS g) /\ has_arm tl i d.
Proof.
  unfold arms, has_arm. rewrite filter_In, negb_true_iff, Z.eqb_neq. tauto.
Qed.

Lemma In_edges_from tl i d :
  In d (edges_from g tl i)
  <-> In d (DIRECTIONS g) /\ has_arm tl i d /\ arm_matched g tl i d = true.
Proof. unfold edges_from. rewrite filter_In, In_arms. tauto. Qed.

Lemma arm_matched_meets tl i d j d' :
  find_neighbour g i d = (j, false) -> OPPOSITE g d = Some d' ->
  has_arm tl j d' -> arm_matched g tl i d = true.
Proof.
  intros Hn Ho Ha. unfold arm_matched. rewrite Hn, Ho. simpl.
  apply negb_true_iff, Z.eqb_neq. exact Ha.
Qed.

Lemma arm_matched_mono tl tl' i d :
  (forall j x, has_arm tl j x -> has_arm tl' j x) ->
  arm_matched g tl i d = true -> arm_matched g tl' i d = true.
Proof.
  unfold arm_matched. destruct (find_neighbour g i d) as [n e]. intros H.
  rewrite !andb_true_iff, !negb_true_iff, !Z.eqb_neq.
  intros [He Hb]; split; auto. exact (H _ _ Hb).
Qed.

Lemma linked_mono tl tl' i j :
  (forall j x, has_arm tl j x -> has_arm tl' j x) ->
  linked g tl i j -> linked g tl' i j.
Proof.
  intros H (d & Hd & Hj). exists d. split; auto.
  apply In_edges_from in Hd. apply In_edges_from.
  destruct Hd as (H1 & H2 & H3). repeat split; auto.
  eapply arm_matched_mono; eauto.
Qed.

Lemma reach_mono (R R' : Z -> Z -> Prop) i j :
  (forall a b, R a b -> R' a b) ->
  clos_refl_trans Z R i j -> clos_refl_trans Z R' i j.
Proof.
  intros H. induction 1; [apply rt_step; auto | apply rt_refl | eapply rt_trans; eauto].
Qed.

End Links.

(* ================================================================== *)
(** ** The invariant of the walk *)

Section WalkInv.

Variable gg : GenGrid.
Hypothesis Hg : grid_ok gg.

#[local] Abbreviation g := (base gg).

Lemma joined_dec w i : joined g w i \/ ~ joined g w i.
Proof.
  unfold joined.
  destruct (In_dec Z.eq_dec i (grid_cells g));
    destruct (In_dec Z.eq_dec i (unvisited w)); tauto.
Qed.

(** Under the invariant the edges of a cell are its arms *)
Lemma edges_are_arms w i :
  rest_clear gg w -> arms_met gg w ->
  edges_from g (w_tiles w) i = arms g (w_tiles w) i.
Proof.
  intros Hz Ha. unfold edges_from.
  destruct (joined_dec w i) as [Hj|Hj].
  - apply filter_all. intros d Hd. apply In_arms in Hd. destruct Hd as [HdD Harm].
    destruct (Ha i d Hj HdD Harm) as (_ & j & d' & Hn & _ & Ho & Hj').
    eapply arm_matched_meets; eauto.
  - assert (E : arms g (w_tiles w) i = []).
    { unfold arms. apply filter_none. intros d _. rewrite (Hz i Hj).
      reflexivity. }
    rewrite E. reflexivity.
Qed.

Lemma edge_ends_arms w :
  rest_clear gg w -> arms_met gg w ->
  edge_ends g (w_tiles w)
  = fold_right (fun i n => (length (arms g (w_tiles w) i) + n)%nat) 0%nat
      (grid_cells g).
Proof.
  intros Hz Ha. unfold edge_ends.
  apply (sum_same (fun i => length (arms g (w_tiles w) i))
                  (fun i => length (edges_from g (w_tiles w) i))).
  intros k _. now rewrite edges_are_arms.
Qed.

(** A joined cell that has an unvisited neighbour: the cells hang together *)
Lemma waiting_nonempty w :
  walk_inv gg w -> unvisited w <> [] -> waiting w <> [].
Proof.
  intros Hinv Hu.
  destruct (inv_some gg w Hinv) as [a Ha].
  destruct (unvisited w) as [|b rest] eqn:Eu; [congruence|].
  assert (Hb : In b (unvisited w)) by (rewrite Eu; now left).
  assert (Hbc : In b (grid_cells g)) by (apply (inv_unv gg w Hinv); exact Hb).
  assert (Hnb : ~ joined g w b) by (intros [_ H]; contradiction).
  destruct (crossing (adjacent gg) (joined g w) a b (joined_dec w)
              (cells_hang_together gg Hg a b (proj1 Ha) Hbc) Ha Hnb)
    as (i & j & Hi & Hj & (d & Hd & Hn)).
  destruct (way_back gg Hg i d j (proj1 Hi) Hd Hn) as [Hjc _].
  assert (Hju : In j (unvisited w)).
  { destruct (In_dec Z.eq_dec j (unvisited w)); auto.
    exfalso. apply Hj. split; auto. }
  pose proof (inv_front gg w Hinv i d j Hi Hd Hn Hju) as Hw.
  intros E. rewrite E in Hw. contradiction.
Qed.

(** *** A round that only moves nodes between the lists *)
Lemma relist_inv w w' :
  walk_inv gg w ->
  w_tiles w' = w_tiles w -> unvisited w' = unvisited w ->
  startComponents w' = startComponents w ->
  (forall i, In i (waiting w') -> In i (waiting w)) ->
  (forall i, In i (waiting w) ->
     In i (waiting w')
     \/ forall d, In d (directions (polygon_at gg i)) -> blocked gg w i d) ->
  walk_inv gg w'.
Proof.
  intros Hinv Et Eu Es Hsub Hsup.
  assert (Hj : forall i, joined g w' i <-> joined g w i)
    by (intros i; unfold joined; rewrite Eu; tauto).
  destruct Hinv as [H1 H2 H3 H4 H5 H6 H7 H8 H9 H10 H11].
  constructor.
  - now rewrite Et.
  - now rewrite Eu.
  - intros i Hi. rewrite Et. apply H3. now rewrite <- Hj.
  - intros i Hi. rewrite Et. apply H4. now apply Hj.
  - intros i d Hi Hd Ha. rewrite Et in Ha. apply Hj in Hi.
    destruct (H5 i d Hi Hd Ha) as (Hp & j & d' & Hn & Hjj & Ho & Ha').
    split; auto. exists j, d'. rewrite Et. split; [exact Hn|].
    split; [apply Hj, Hjj|]. split; [exact Ho|exact Ha'].
  - intros i j Hi Hjj. rewrite Et. apply H6; now apply Hj.
  - rewrite Et. unfold joined_count. rewrite Eu. exact H7.
  - destruct H8 as [i Hi]. exists i. now apply Hj.
  - intros i Hi. apply Hj. auto.
  - intros i d j Hi Hd Hn Hu. apply Hj in Hi. rewrite Eu in Hu.
    pose proof (H10 i d j Hi Hd Hn Hu) as Hw.
    destruct (Hsup i Hw) as [|Hbl]; auto. exfalso.
    destruct (Hbl d Hd) as [Hb|[Hb|Hb]].
    + apply Z.ltb_lt in Hb.
      assert (Ha : has_arm (w_tiles w) i d).
      { unfold has_arm. rewrite band_comm. lia. }
      assert (HdD : In d (DIRECTIONS g)) by (apply (poly_dirs gg Hg i (proj1 Hi)); auto).
      destruct (H5 i d Hi HdD Ha) as (_ & j' & d' & Hn' & Hj' & _).
      rewrite Hn in Hn'. injection Hn' as <-. destruct Hj' as [_ Hj']. contradiction.
    + rewrite Hn in Hb. discriminate.
    + rewrite Hn in Hb. simpl in Hb. apply set_has_In in Hu. congruence.
  - now rewrite Es.
Qed.

End WalkInv.


(* ================================================================== *)
(** ** A round that joins a cell *)

Section Extend.

Variable gg : GenGrid.
Hypothesis Hg : grid_ok gg.

#[local] Abbreviation g := (base gg).

Variables w w' : Walk.
Variables f nb d d' : Z.

Hypothesis Hinv : walk_inv gg w.
Hypothesis Hf : joined g w f.
Hypothesis Hd : In d (directions (polygon_at gg f)).
Hypothesis Hb : (0 <? band d (mask_at (w_tiles w) f)) = false.
Hypothesis Hn : find_neighbour g f d = (nb, false).
Hypothesis Hu : In nb (unvisited w).
Hypothesis Hopp : OPPOSITE g d = Some d'.
Hypothesis Hlen : length (w_tiles w') = length (w_tiles w).
Hypothesis Hmf : mask_at (w_tiles w') f = mask_at (w_tiles w) f + d.
Hypothesis Hmn : mask_at (w_tiles w') nb = d'.
Hypothesis Hmo : forall k, k <> f -> k <> nb ->
  mask_at (w_tiles w') k = mask_at (w_tiles w) k.
Hypothesis Hunv : unvisited w' = set_delete nb (unvisited w).
Hypothesis Hwait : forall i, In i (waiting w') <-> In i (waiting w) \/ i = nb.
Hypothesis Hsc : startComponents w' = [].

Lemma ext_way :
  In nb (grid_cells g) /\ In d' (directions (polygon_at gg nb))
  /\ find_neighbour g nb d' = (f, false) /\ OPPOSITE g d' = Some d.
Proof.
  destruct (way_back gg Hg f d nb (proj1 Hf) Hd Hn) as (H1 & d'' & H2 & H3 & H4 & H5).
  rewrite Hopp in H2. injection H2 as <-. auto.
Qed.

Lemma ext_dirs : In d (DIRECTIONS g) /\ In d' (DIRECTIONS g).
Proof.
  destruct ext_way as (H1 & H2 & _). split.
  - apply (poly_dirs gg Hg f (proj1 Hf)); auto.
  - apply (poly_dirs gg Hg nb H1); auto.
Qed.

Lemma ext_apart : nb <> f.
Proof. intros ->. destruct Hf as [_ H]. contradiction. Qed.

Lemma ext_unjoined : ~ joined g w nb.
Proof. intros [_ H]. contradiction. Qed.

Lemma ext_mask_nb : mask_at (w_tiles w) nb = 0.
Proof. apply (inv_zero gg w Hinv). apply ext_unjoined. Qed.

Lemma ext_mask_f : int31 (mask_at (w_tiles w) f).
Proof. apply (inv_mask gg w Hinv). exact Hf. Qed.

Lemma ext_joined i : joined g w' i <-> joined g w i \/ i = nb.
Proof.
  unfold joined. rewrite Hunv, set_delete_In.
  destruct ext_way as (Hc & _).
  destruct (Z.eq_dec i nb) as [->|Hne]; [tauto|].
  destruct (In_dec Z.eq_dec i (unvisited w)); tauto.
Qed.

Lemma ext_arm_f x :
  In x (DIRECTIONS g) ->
  (has_arm (w_tiles w') f x <-> has_arm (w_tiles w) f x \/ x = d).
Proof.
  intros Hx. unfold has_arm. rewrite Hmf.
  apply (band_add_direction g (dirs_apart gg Hg)); auto.
  - apply ext_mask_f.
  - apply ext_dirs.
Qed.

Lemma ext_arm_nb x :
  In x (DIRECTIONS g) -> (has_arm (w_tiles w') nb x <-> x = d').
Proof.
  intros Hx. unfold has_arm. rewrite Hmn.
  apply (band_direction g (dirs_apart gg Hg)); auto. apply ext_dirs.
Qed.

Lemma ext_mono i x : has_arm (w_tiles w) i x -> has_arm (w_tiles w') i x.
Proof.
  unfold has_arm. destruct (Z.eq_dec i f) as [->|Hif].
  - rewrite Hmf. apply (band_add_mono g (dirs_apart gg Hg)); auto.
    + apply ext_mask_f.
    + apply ext_dirs.
  - destruct (Z.eq_dec i nb) as [->|Hin].
    + rewrite ext_mask_nb. intros H. exfalso. apply H. reflexivity.
    + now rewrite Hmo.
Qed.

Lemma ext_clear : rest_clear gg w'.
Proof.
  intros i Hi. rewrite ext_joined in Hi.
  assert (Hif : i <> f) by (intros ->; tauto).
  assert (Hin : i <> nb) by tauto.
  rewrite Hmo by assumption. apply (inv_zero gg w Hinv). tauto.
Qed.

Lemma ext_int31 i : joined g w' i -> int31 (mask_at (w_tiles w') i).
Proof.
  intros Hi. destruct (Z.eq_dec i f) as [->|Hif].
  - rewrite Hmf.
    apply (add_direction g (dirs_apart gg Hg)); auto.
    + apply ext_mask_f.
    + apply ext_dirs.
  - destruct (Z.eq_dec i nb) as [->|Hin].
    + rewrite Hmn. apply (direction_int31 g (dirs_apart gg Hg)). apply ext_dirs.
    + rewrite Hmo by assumption. apply (inv_mask gg w Hinv).
      apply ext_joined in Hi. tauto.
Qed.

Lemma ext_arms : arms_met gg w'.
Proof.
  destruct ext_way as (Hnc & Hd'p & Hn' & Hopp').
  destruct ext_dirs as [HdD Hd'D].
  intros i x Hi Hx Ha.
  destruct (Z.eq_dec i nb) as [->|Hin].
  { apply ext_arm_nb in Ha; auto. subst x. split; auto.
    exists f, d. split; [exact Hn'|]. split; [apply ext_joined; now left|].
    split; [exact Hopp'|]. apply ext_arm_f; auto. }
  apply ext_joined in Hi. destruct Hi as [Hi|Hi]; [|contradiction].
  assert (Hold : has_arm (w_tiles w) i x ->
    In x (directions (polygon_at gg i))
    /\ exists j d'0, find_neighbour g i x = (j, false) /\ joined g w' j
         /\ OPPOSITE g x = Some d'0 /\ has_arm (w_tiles w') j d'0).
  { intros Ha0.
    destruct (inv_arms gg w Hinv i x Hi Hx Ha0) as (Hp & j & d0 & H1 & H2 & H3 & H4).
    split; auto. exists j, d0. split; [exact H1|].
    split; [apply ext_joined; now left|]. split; [exact H3|]. now apply ext_mono. }
  destruct (Z.eq_dec i f) as [->|Hif].
  - apply ext_arm_f in Ha; auto. destruct Ha as [Ha| ->]; [auto|].
    split; auto. exists nb, d'. split; [exact Hn|].
    split; [apply ext_joined; now right|]. split; [exact Hopp|].
    apply ext_arm_nb; auto.
  - apply Hold. unfold has_arm in *. now rewrite Hmo in Ha.
Qed.

Lemma ext_link_out : linked g (w_tiles w') f nb.
Proof.
  destruct ext_dirs as [HdD Hd'D].
  exists d. split; [|now rewrite Hn].
  apply In_edges_from. split; auto. split.
  - apply ext_arm_f; auto.
  - apply (arm_matched_meets g _ f d nb d'); auto. apply ext_arm_nb; auto.
Qed.

Lemma ext_link_back : linked g (w_tiles w') nb f.
Proof.
  destruct ext_way as (Hnc & Hd'p & Hn' & Hopp').
  destruct ext_dirs as [HdD Hd'D].
  exists d'. split; [|now rewrite Hn'].
  apply In_edges_from. split; auto. split.
  - apply ext_arm_nb; auto.
  - apply (arm_matched_meets g _ nb d' f d); auto. apply ext_arm_f; auto.
Qed.

Lemma ext_conn i j :
  joined g w' i -> joined g w' j ->
  clos_refl_trans Z (linked g (w_tiles w')) i j.
Proof.
  assert (Hold : forall a b, joined g w a -> joined g w b ->
            clos_refl_trans Z (linked g (w_tiles w')) a b).
  { intros a b Ha Hb0.
    apply (reach_mono (linked g (w_tiles w))).
    - intros x y. apply linked_mono. exact ext_mono.
    - apply (inv_conn gg w Hinv); auto. }
  assert (Hto : forall a, joined g w' a ->
            clos_refl_trans Z (linked g (w_tiles w')) a f).
  { intros a Ha. apply ext_joined in Ha. destruct Ha as [Ha| ->].
    - apply Hold; auto.
    - apply rt_step. apply ext_link_back. }
  assert (Hfrom : forall a, joined g w' a ->
            clos_refl_trans Z (linked g (w_tiles w')) f a).
  { intros a Ha. apply ext_joined in Ha. destruct Ha as [Ha| ->].
    - apply Hold; auto.
    - apply rt_step. apply ext_link_out. }
  intros Hi Hj. eapply rt_trans; [apply Hto | apply Hfrom]; auto.
Qed.

Lemma ext_arms_f :
  length (arms g (w_tiles w') f) = S (length (arms g (w_tiles w) f)).
Proof.
  destruct ext_dirs as [HdD Hd'D].
  unfold arms.
  apply (count_bump _ _ d); auto.
  - apply (NoDup_directions g (dirs_apart gg Hg)).
  - apply negb_false_iff, Z.eqb_eq. rewrite band_comm.
    pose proof ext_mask_f as Hm.
    destruct (direction_int31 g (dirs_apart gg Hg) d HdD) as [Hd31 _].
    rewrite band_small in Hb |- * by assumption. apply Z.ltb_ge in Hb.
    assert (0 <= Z.land d (mask_at (w_tiles w) f))
      by (apply Z.land_nonneg; left; apply Hd31).
    lia.
  - apply negb_true_iff, Z.eqb_neq. apply (ext_arm_f d HdD). now right.
  - intros k Hk Hne. f_equal.
    destruct (band (mask_at (w_tiles w') f) k =? 0) eqn:E1;
      destruct (band (mask_at (w_tiles w) f) k =? 0) eqn:E2; auto.
    + apply Z.eqb_eq in E1. apply Z.eqb_neq in E2. exfalso.
      apply (ext_mono f k E2). exact E1.
    + apply Z.eqb_neq in E1. apply Z.eqb_eq in E2. exfalso.
      apply (ext_arm_f k Hk) in E1. destruct E1 as [E1|E1]; [|contradiction].
      apply E1. exact E2.
Qed.

Lemma ext_arms_nb :
  length (arms g (w_tiles w') nb) = S (length (arms g (w_tiles w) nb)).
Proof.
  destruct ext_dirs as [HdD Hd'D].
  unfold arms.
  apply (count_bump _ _ d'); auto.
  - apply (NoDup_directions g (dirs_apart gg Hg)).
  - rewrite ext_mask_nb. reflexivity.
  - apply negb_true_iff, Z.eqb_neq. now apply (ext_arm_nb d' Hd'D).
  - intros k Hk Hne. rewrite ext_mask_nb.
    change (band 0 k) with 0. simpl.
    apply negb_false_iff, Z.eqb_eq.
    destruct (Z.eq_dec (band (mask_at (w_tiles w') nb) k) 0) as [E|E]; auto.
    exfalso. apply Hne. now apply (ext_arm_nb k Hk).
Qed.

Lemma ext_edge_ends :
  edge_ends g (w_tiles w') = S (S (edge_ends g (w_tiles w))).
Proof.
  destruct ext_way as (Hnc & _).
  rewrite (edge_ends_arms gg w' ext_clear ext_arms).
  rewrite (edge_ends_arms gg w (inv_zero gg w Hinv) (inv_arms gg w Hinv)).
  set (f0 := fun i => length (arms g (w_tiles w) i)).
  set (f2 := fun i => length (arms g (w_tiles w') i)).
  set (f1 := fun i => if i =? f then S (f0 i) else f0 i).
  change (fold_right (fun i n => (f2 i + n)%nat) 0%nat (grid_cells g)
          = S (S (fold_right (fun i n => (f0 i + n)%nat) 0%nat (grid_cells g)))).
  rewrite (sum_bump f1 f2 nb); [f_equal; apply (sum_bump f0 f1 f) | | | |].
  - apply NoDup_grid_cells.
  - apply Hf.
  - unfold f1. now rewrite Z.eqb_refl.
  - intros k _ Hk. unfold f1. apply Z.eqb_neq in Hk. now rewrite Hk.
  - apply NoDup_grid_cells.
  - exact Hnc.
  - unfold f2, f1, f0. pose proof ext_apart as Hne. apply Z.eqb_neq in Hne.
    rewrite Hne. apply ext_arms_nb.
  - intros k _ Hk. unfold f2, f1, f0.
    destruct (k =? f) eqn:E.
    + apply Z.eqb_eq in E. subst k. apply ext_arms_f.
    + apply Z.eqb_neq in E. unfold arms. now rewrite Hmo.
Qed.

Lemma ext_joined_count : joined_count g w' = S (joined_count g w).
Proof.
  destruct ext_way as (Hnc & _).
  unfold joined_count. rewrite Hunv.
  apply (count_bump _ _ nb); auto.
  - apply NoDup_grid_cells.
  - apply negb_false_iff, set_has_In. exact Hu.
  - rewrite set_has_delete, Z.eqb_refl. simpl. now rewrite andb_false_r.
  - intros k _ Hk. rewrite set_has_delete. apply Z.eqb_neq in Hk.
    rewrite Hk. simpl. now rewrite andb_true_r.
Qed.

Lemma extend_inv : walk_inv gg w'.
Proof.
  constructor.
  - rewrite Hlen. apply (inv_len gg w Hinv).
  - rewrite Hunv. intros i Hi. apply set_delete_In in Hi.
    apply (inv_unv gg w Hinv). tauto.
  - exact ext_clear.
  - exact ext_int31.
  - exact ext_arms.
  - exact ext_conn.
  - rewrite ext_edge_ends, ext_joined_count.
    pose proof (inv_count gg w Hinv). lia.
  - exists f. apply ext_joined. now left.
  - intros i Hi. apply Hwait in Hi. apply ext_joined.
    destruct Hi as [Hi|Hi]; auto. left. now apply (inv_waiting gg w Hinv).
  - intros i x j Hi Hx Hnx Hj. apply Hwait.
    apply ext_joined in Hi. destruct Hi as [Hi|Hi]; auto. left.
    rewrite Hunv in Hj. apply set_delete_In in Hj.
    apply (inv_front gg w Hinv i x j); tauto.
  - exact Hsc.
Qed.

End Extend.


(* ================================================================== *)
(** ** The lists of nodes *)

Lemma removelast_shorter {A} (l : list A) :
  l <> [] -> S (length (removelast l)) = length l.
Proof.
  induction l as [|a [|b l] IH]; intros H; [congruence|reflexivity|].
  change (S (S (length (removelast (b :: l)))) = S (length (b :: l))).
  rewrite IH; [reflexivity|discriminate].
Qed.

Lemma remove_first_shorter x l l' :
  remove_first x l = Some l' -> S (length l') = length l.
Proof.
  revert l'. induction l as [|a l IH]; intros l' H; [discriminate|].
  simpl in H. destruct (x =? a); [injection H as <-; reflexivity|].
  destruct (remove_first x l) as [r|]; [|discriminate].
  injection H as <-. simpl. now rewrite (IH r).
Qed.

Lemma splice_indexOf_shorter x l :
  l <> [] -> S (length (splice_indexOf x l)) = length l.
Proof.
  intros H. unfold splice_indexOf. destruct (remove_first x l) eqn:E.
  - eapply remove_first_shorter; eauto.
  - now apply removelast_shorter.
Qed.

(** The node to go from is of the first list that is not empty; without
    [usePrims] it is the last one of that list *)
Lemma choose_from_first rnd (usePrims : bool) nodes k :
  draws_ok rnd -> nodes <> [] ->
  let f := if usePrims then nth (random_index rnd k (length nodes)) nodes 0
           else last nodes 0 in
  In f nodes
  /\ (forall i, In i nodes -> i <> f ->
        In i (if usePrims then splice_indexOf f nodes else removelast nodes)).
Proof.
  intros Hr Hn f.
  assert (Hin : In f nodes).
  { unfold f. destruct usePrims; [apply nth_random_In | apply last_In]; auto. }
  split; auto. intros i Hi Hne. destruct usePrims.
  - apply In_splice_indexOf; auto.
  - apply In_removelast with (d := 0); auto.
Qed.

(* ================================================================== *)
(** ** One round of the walk *)

Section Rounds.

Variable gg : GenGrid.
Variable rnd : Random.
Variables branchingAmount avoidObvious avoidStraights : Q.
Variable tf : list (Z * list Z).

Hypothesis Hg : grid_ok gg.
Hypothesis Hr : draws_ok rnd.

#[local] Abbreviation g := (base gg).

Lemma in_waiting w i :
  In i (waiting w)
  <-> In i (visited w) \/ In i (avoiding w) \/ In i (lastResortNodes w).
Proof. unfold waiting. rewrite !in_app_iff. tauto. Qed.

(** *** No move: the node leaves its list *)
Lemma retire_round w (usePrims : bool) k k' f :
  walk_inv gg w -> waiting w <> [] ->
  choose_from rnd usePrims w k = (f, k') ->
  (forall d, In d (directions (polygon_at gg f)) -> blocked gg w f d) ->
  forall k'', walk_inv gg (retire usePrims f w k'')
    /\ (walk_measure (retire usePrims f w k'') < walk_measure w)%nat.
Proof.
  intros Hinv Hw Hc Hbl k''.
  unfold choose_from in Hc. unfold retire, walk_measure.
  destruct (visited w) as [|v vs] eqn:Ev.
  2:{ simpl in Hc.
      destruct (choose_from_first rnd usePrims (v :: vs) k Hr ltac:(discriminate))
        as [Hin Hrest].
      assert (Ef : f = if usePrims
                       then nth (random_index rnd k (length (v :: vs))) (v :: vs) 0
                       else last (v :: vs) 0)
        by (destruct usePrims; injection Hc as <- _; reflexivity).
      rewrite <- Ef in Hin, Hrest. split.
      - apply (relist_inv gg Hg w); auto; simpl.
        + intros i. rewrite !in_waiting. simpl. rewrite Ev.
          intros [H|H]; auto. left.
          destruct usePrims; [eapply splice_indexOf_incl | eapply removelast_incl]; eauto.
        + intros i. rewrite !in_waiting. simpl. rewrite Ev.
          destruct (Z.eq_dec i f) as [->|Hne]; [now right|].
          intros [H|H]; left; auto.
      - simpl.
        assert (S (length (if usePrims then splice_indexOf f (v :: vs)
                           else removelast (v :: vs))) = length (v :: vs)).
        { destruct usePrims; [apply splice_indexOf_shorter | apply removelast_shorter];
            discriminate. }
        simpl in H. lia. }
  destruct (avoiding w) as [|a avs] eqn:Ea.
  2:{ simpl in Hc.
      destruct (choose_from_first rnd usePrims (a :: avs) k Hr ltac:(discriminate))
        as [Hin Hrest].
      assert (Ef : f = if usePrims
                       then nth (random_index rnd k (length (a :: avs))) (a :: avs) 0
                       else last (a :: avs) 0)
        by (destruct usePrims; injection Hc as <- _; reflexivity).
      rewrite <- Ef in Hin, Hrest. split.
      - apply (relist_inv gg Hg w); auto; simpl.
        + intros i. rewrite !in_waiting. simpl. rewrite Ev, Ea.
          intros [H|[H|H]]; auto. right; left.
          destruct usePrims; [eapply splice_indexOf_incl | eapply removelast_incl]; eauto.
        + intros i. rewrite !in_waiting. simpl. rewrite Ev, Ea.
          destruct (Z.eq_dec i f) as [->|Hne]; [now right|].
          intros [H|[H|H]]; left; auto; try contradiction.
      - simpl.
        assert (S (length (if usePrims then splice_indexOf f (a :: avs)
                           else removelast (a :: avs))) = length (a :: avs)).
        { destruct usePrims; [apply splice_indexOf_shorter | apply removelast_shorter];
            discriminate. }
        simpl in H. lia. }
  destruct (lastResortNodes w) as [|l ls] eqn:El.
  { exfalso. apply Hw. unfold waiting. now rewrite Ev, Ea, El. }
  simpl in Hc.
  destruct (choose_from_first rnd usePrims (l :: ls) k Hr ltac:(discriminate))
    as [Hin Hrest].
  assert (Ef : f = if usePrims
                   then nth (random_index rnd k (length (l :: ls))) (l :: ls) 0
                   else last (l :: ls) 0)
    by (destruct usePrims; injection Hc as <- _; reflexivity).
  rewrite <- Ef in Hin, Hrest. split.
  - apply (relist_inv gg Hg w); auto; simpl.
    + intros i. rewrite !in_waiting. simpl. rewrite Ev, Ea, El.
      intros [H|[H|H]]; auto. right; right.
      destruct usePrims; [eapply splice_indexOf_incl | eapply removelast_incl]; eauto.
    + intros i. rewrite !in_waiting. simpl. rewrite Ev, Ea, El.
      destruct (Z.eq_dec i f) as [->|Hne]; [now right|].
      intros [H|[H|H]]; left; auto; try contradiction.
  - simpl.
    assert (S (length (if usePrims then splice_indexOf f (l :: ls)
                       else removelast (l :: ls))) = length (l :: ls)).
    { destruct usePrims; [apply splice_indexOf_shorter | apply removelast_shorter];
        discriminate. }
    simpl in H. lia.
Qed.

End Rounds.


Section Rounds2.

Variable gg : GenGrid.
Variable rnd : Random.
Variables branchingAmount avoidObvious avoidStraights : Q.
Variable tf : list (Z * list Z).

Hypothesis Hg : grid_ok gg.
Hypothesis Hr : draws_ok rnd.

#[local] Abbreviation g := (base gg).

Lemma choose_from_In (usePrims : bool) w k f k' :
  waiting w <> [] ->
  choose_from rnd usePrims w k = (f, k') ->
  In f (waiting w) /\ (visited w <> [] -> In f (visited w)).
Proof.
  intros Hw Hc. unfold choose_from in Hc. rewrite in_waiting.
  destruct (visited w) as [|v vs] eqn:Ev.
  2:{ simpl in Hc.
      destruct (choose_from_first rnd usePrims (v :: vs) k Hr ltac:(discriminate))
        as [Hin _].
      assert (Ef : f = if usePrims
                       then nth (random_index rnd k (length (v :: vs))) (v :: vs) 0
                       else last (v :: vs) 0)
        by (destruct usePrims; injection Hc as <- _; reflexivity).
      rewrite <- Ef in Hin. auto. }
  split; [|congruence].
  destruct (avoiding w) as [|a avs] eqn:Ea.
  2:{ simpl in Hc.
      destruct (choose_from_first rnd usePrims (a :: avs) k Hr ltac:(discriminate))
        as [Hin _].
      assert (Ef : f = if usePrims
                       then nth (random_index rnd k (length (a :: avs))) (a :: avs) 0
                       else last (a :: avs) 0)
        by (destruct usePrims; injection Hc as <- _; reflexivity).
      rewrite <- Ef in Hin. auto. }
  destruct (lastResortNodes w) as [|l ls] eqn:El.
  { exfalso. apply Hw. unfold waiting. now rewrite Ev, Ea, El. }
  simpl in Hc.
  destruct (choose_from_first rnd usePrims (l :: ls) k Hr ltac:(discriminate))
    as [Hin _].
  assert (Ef : f = if usePrims
                   then nth (random_index rnd k (length (l :: ls))) (l :: ls) 0
                   else last (l :: ls) 0)
    by (destruct usePrims; injection Hc as <- _; reflexivity).
  rewrite <- Ef in Hin. auto.
Qed.

(** *** A move that is put off: the node changes list *)
Lemma demote_round w f to_avoiding k :
  walk_inv gg w -> In f (visited w) ->
  let w' :=
    mkWalk (w_tiles w) (unvisited w) (splice_indexOf f (visited w))
      (if to_avoiding : bool then avoiding w ++ [f] else avoiding w)
      (if to_avoiding then lastResortNodes w else lastResortNodes w ++ [f])
      (startComponents w) (w_heap w) k in
  walk_inv gg w' /\ (walk_measure w' < walk_measure w)%nat.
Proof.
  intros Hinv Hf w'. split.
  - apply (relist_inv gg Hg w w'); auto.
    + intros i. unfold w'. rewrite !in_waiting. simpl.
      intros [H|[H|H]].
      * left. eapply splice_indexOf_incl; eauto.
      * destruct to_avoiding; auto. apply in_app_iff in H.
        destruct H as [H|[<-|[]]]; auto.
      * destruct to_avoiding; auto. apply in_app_iff in H.
        destruct H as [H|[<-|[]]]; auto.
    + intros i Hi. left. unfold w'. rewrite in_waiting in *. simpl.
      destruct (Z.eq_dec i f) as [->|Hne].
      * destruct to_avoiding; [right; left | right; right];
          apply in_app_iff; right; now left.
      * destruct Hi as [Hi|[Hi|Hi]].
        -- left. apply In_splice_indexOf; auto.
        -- right; left. destruct to_avoiding; auto. apply in_app_iff; auto.
        -- right; right. destruct to_avoiding; auto. apply in_app_iff; auto.
  - unfold walk_measure, w'. simpl.
    assert (Hs : S (length (splice_indexOf f (visited w))) = length (visited w)).
    { apply splice_indexOf_shorter. intros E. rewrite E in Hf. contradiction. }
    destruct to_avoiding; rewrite ?length_app; simpl; lia.
Qed.

(** *** The move is made *)
Lemma commit_round w f m k :
  walk_inv gg w -> joined g w f -> offered gg w f m ->
  exists w', commit gg f m w k = Some w'
    /\ walk_inv gg w' /\ (walk_measure w' < walk_measure w)%nat.
Proof.
  intros Hinv Hf (Hd & Hb & Hn & Hu).
  set (d := direction m) in *. set (nb := neighbour m) in *.
  destruct (way_back gg Hg f d nb (proj1 Hf) Hd Hn) as (Hnc & d' & Hopp & Hd'p & Hn' & Hopp').
  assert (Hne : nb <> f) by (intros E; rewrite E in Hu; destruct Hf; contradiction).
  destruct (grid_cells_range g f (proj1 Hf)) as (Hf0 & Hflt & _).
  destruct (grid_cells_range g nb Hnc) as (Hn0 & Hnlt & _).
  pose proof (inv_len gg w Hinv) as Hlen.
  destruct (array_add_ok (w_tiles w) f d Hf0) as [tl1 E1]; [lia|].
  destruct (array_add_spec _ _ _ _ E1) as (M1f & M1o & L1).
  destruct (array_add_ok tl1 nb (opposite_or_0 g d) Hn0) as [tl2 E2]; [lia|].
  destruct (array_add_spec _ _ _ _ E2) as (M2n & M2o & L2).
  set (w' := mkWalk tl2 (set_delete nb (unvisited w)) (visited w ++ [nb])
               (avoiding w) (lastResortNodes w) (startComponents w) (w_heap w) k).
  assert (Ec : commit gg f m w k = Some w').
  { unfold commit. fold d nb. rewrite E1.
    rewrite (inv_sc gg w Hinv). cbn [map_get].
    destruct (0 <? mask_at tl1 nb); rewrite E2; unfold w';
      now rewrite (inv_sc gg w Hinv). }
  exists w'. split; [exact Ec|]. split.
  - apply (extend_inv gg Hg w w' f nb d d'); auto.
    + unfold w'; simpl. lia.
    + unfold w'; simpl. rewrite M2o by auto. exact M1f.
    + unfold w'; simpl. rewrite M2n, M1o by auto.
      rewrite (inv_zero gg w Hinv nb) by (intros [_ H]; contradiction).
      unfold opposite_or_0. now rewrite Hopp.
    + intros i Hif Hin. unfold w'; simpl. rewrite M2o, M1o by auto. reflexivity.
    + intros i. unfold w'. rewrite !in_waiting. simpl. rewrite in_app_iff. simpl.
      intuition.
    + unfold w'; simpl. apply (inv_sc gg w Hinv).
  - unfold walk_measure, w'. simpl. rewrite length_app. simpl.
    assert (length (set_delete nb (unvisited w)) < length (unvisited w))%nat.
    { unfold set_delete. apply (filter_shorter _ nb); auto.
      now rewrite Z.eqb_refl. }
    lia.
Qed.

(** *** Every round keeps the invariant and brings the end nearer *)
Lemma walk_step_progress w :
  walk_inv gg w -> unvisited w <> [] ->
  exists w', walk_step gg rnd branchingAmount avoidObvious avoidStraights tf w = Some w'
    /\ walk_inv gg w' /\ (walk_measure w' < walk_measure w)%nat.
Proof.
  intros Hinv Hu.
  pose proof (waiting_nonempty gg Hg w Hinv Hu) as Hw.
  unfold walk_step.
  set (usePrims := random_below rnd (draws w) branchingAmount).
  destruct (choose_from rnd usePrims w (S (draws w))) as [f k1] eqn:Ef.
  destruct (choose_from_In usePrims w _ f k1 Hw Ef) as [Hfw Hfv].
  pose proof (inv_waiting gg w Hinv f Hfw) as Hfj.
  destruct (classify gg rnd avoidObvious avoidStraights tf w f k1) as [tiers k2] eqn:Ec.
  assert (Et : tiers = fst (classify gg rnd avoidObvious avoidStraights tf w f k1))
    by now rewrite Ec.
  destruct (choose_move rnd tiers k2) as [[[src m]|] k3] eqn:Em.
  - pose proof (choose_move_Some rnd tiers k2 src m k3 Hr Em) as Hm.
    rewrite Et in Hm. apply classify_sound in Hm.
    destruct (visited w) as [|v vs] eqn:Ev.
    + assert (E : match src with
                  | FromFully | FromObvious | _ => commit gg f m w k3
                  end = commit gg f m w k3) by (destruct src; reflexivity).
      destruct (commit_round w f m k3 Hinv Hfj Hm) as (w' & Hc & Hi & Hlt).
      exists w'. split; auto. destruct src; exact Hc.
    + assert (Hin : In f (visited w)) by (rewrite Ev; apply Hfv; discriminate).
      destruct src.
      * destruct (commit_round w f m k3 Hinv Hfj Hm) as (w' & Hc & Hi & Hlt).
        exists w'. auto.
      * destruct (commit_round w f m k3 Hinv Hfj Hm) as (w' & Hc & Hi & Hlt).
        exists w'. auto.
      * pose proof (demote_round w f true k3 Hinv Hin) as Hd. cbv zeta in Hd.
        rewrite Ev in Hd. eexists. split; [reflexivity|]. exact Hd.
      * pose proof (demote_round w f false k3 Hinv Hin) as Hd. cbv zeta in Hd.
        rewrite Ev in Hd. eexists. split; [reflexivity|]. exact Hd.
  - apply choose_move_None in Em. rewrite Et in Em.
    eexists. split; [reflexivity|].
    apply (retire_round gg rnd Hg Hr w usePrims (S (draws w)) k1 f); auto.
    intros d Hd. eapply classify_complete; eauto.
Qed.

(** The walk ends within the fuel of its measure, on a spanning tree *)
Lemma final_tree w :
  walk_inv gg w -> unvisited w = [] -> SpanningTree g (w_tiles w).
Proof.
  intros Hinv Hu. split.
  - intros i j Hi Hj. apply (inv_conn gg w Hinv); split; auto; rewrite Hu; auto.
  - rewrite (inv_count gg w Hinv). unfold joined_count. rewrite Hu.
    rewrite filter_all; auto.
Qed.

Lemma walk_returns n : forall w,
  walk_inv gg w -> (walk_measure w < n)%nat ->
  exists layout,
    walk gg rnd branchingAmount avoidObvious avoidStraights n tf w = GRet layout
    /\ SpanningTree g layout.
Proof.
  induction n as [|n IH]; intros w Hinv Hlt; [lia|].
  simpl. destruct (unvisited w) as [|u us] eqn:Eu.
  - exists (w_tiles w). split; auto. now apply final_tree.
  - destruct (walk_step_progress w Hinv) as (w' & Hs & Hi & Hm);
      [rewrite Eu; discriminate|].
    rewrite Hs. apply IH; auto. lia.
Qed.

Lemma walk_sound n : forall w layout,
  walk_inv gg w ->
  walk gg rnd branchingAmount avoidObvious avoidStraights n tf w = GRet layout ->
  SpanningTree g layout.
Proof.
  induction n as [|n IH]; intros w layout Hinv H; [discriminate|].
  simpl in H. destruct (unvisited w) as [|u us] eqn:Eu.
  - injection H as <-. now apply final_tree.
  - destruct (walk_step_progress w Hinv) as (w' & Hs & Hi & Hm);
      [rewrite Eu; discriminate|].
    rewrite Hs in H. eapply IH; eauto.
Qed.

End Rounds2.


(* ================================================================== *)
(** ** The start of the walk *)

Lemma fold_delete_In es : forall u i,
  In i (fold_left (fun u idx => set_delete idx u) es u) <-> In i u /\ ~ In i es.
Proof.
  induction es as [|e es IH]; intros u i; simpl; [tauto|].
  rewrite IH, set_delete_In. intuition.
Qed.

Lemma fold_delete_length es : forall u,
  (length (fold_left (fun u idx => set_delete idx u) es u) <= length u)%nat.
Proof.
  induction es as [|e es IH]; intros u; simpl; [lia|].
  etransitivity; [apply IH|]. apply filter_length_le.
Qed.

Lemma mask_at_zeros {A} (l : list A) i : mask_at (map (fun _ => 0) l) i = 0.
Proof.
  unfold mask_at, array_get. destruct (i <? 0); [reflexivity|].
  rewrite nth_error_map. destruct (nth_error l (Z.to_nat i)); reflexivity.
Qed.

Lemma sum_zeros (l : list Z) :
  fold_right (fun i n => (0 + n)%nat) 0%nat l = 0%nat.
Proof. induction l; simpl; auto. Qed.

Section Start.

Variable gg : GenGrid.
Variable reuseTilesMinCount : Z.
Variable rnd : Random.
Variable fuel : nat.
Variables branchingAmount avoidObvious avoidStraights : Q.

Hypothesis Hg : grid_ok gg.
Hypothesis Hr : draws_ok rnd.

#[local] Abbreviation g := (base gg).
#[local] Abbreviation every := (map Z.of_nat (seq 0 (Z.to_nat (total g)))).
#[local] Abbreviation unv0 :=
  (fold_left (fun u idx => set_delete idx u) (emptyCells g) every).
#[local] Abbreviation w0 :=
  (mkWalk (map (fun _ => 0) every) unv0 [] [] [] [] [] 0).

Lemma unv0_cells i : In i unv0 <-> In i (grid_cells g).
Proof.
  rewrite fold_delete_In. unfold grid_cells.
  rewrite filter_In, negb_true_iff, <- not_true_iff_false, set_has_In. tauto.
Qed.

Lemma total_positive : 0 < total g.
Proof.
  pose proof (cells_exist gg Hg) as H.
  destruct (grid_cells g) as [|c cs] eqn:E; [congruence|].
  assert (Hc : In c (grid_cells g)) by (rewrite E; now left).
  apply grid_cells_range in Hc. lia.
Qed.

Lemma prepare_nothing : prepare gg reuseTilesMinCount fuel [] = Some w0.
Proof.
  unfold prepare. pose proof total_positive.
  replace (Z.of_nat (length (@nil Z)) =? total g) with false; [reflexivity|].
  symmetry. apply Z.eqb_neq. simpl. lia.
Qed.

Lemma start_walk_inv :
  walk_inv gg (start_walk rnd w0)
  /\ (walk_measure (start_walk rnd w0) < 4 * Z.to_nat (total g))%nat.
Proof.
  unfold start_walk. cbn [visited draws unvisited w_tiles avoiding
    lastResortNodes startComponents w_heap].
  assert (Hne : unv0 <> []).
  { pose proof (cells_exist gg Hg) as H.
    destruct (grid_cells g) as [|c cs] eqn:E; [congruence|].
    assert (Hc : In c unv0) by (apply unv0_cells; rewrite E; now left).
    intros E0. rewrite E0 in Hc. contradiction. }
  assert (Hlt : (random_index rnd 0 (length unv0) < length unv0)%nat).
  { apply random_index_bound; auto. destruct unv0; [congruence | simpl; lia]. }
  destruct (nth_error unv0 (random_index rnd 0 (length unv0))) as [s|] eqn:Es.
  2:{ apply nth_error_None in Es. lia. }
  assert (Hs : In s unv0) by (eapply nth_error_In; eauto).
  assert (Hsc : In s (grid_cells g)) by now apply unv0_cells.
  set (w1 := mkWalk (map (fun _ => 0) every) (set_delete s unv0) [s] [] [] [] [] 1).
  assert (Hj : forall i, joined g w1 i <-> i = s).
  { intros i. unfold joined, w1. simpl. rewrite set_delete_In, unv0_cells.
    split.
    - intros [Hc Hn]. destruct (Z.eq_dec i s); auto. exfalso. apply Hn. auto.
    - intros ->. split; auto. intros [_ H]. congruence. }
  assert (Hclear : rest_clear gg w1).
  { intros i _. apply mask_at_zeros. }
  assert (Harms : arms_met gg w1).
  { intros i d _ _ Ha. exfalso. apply Ha. unfold w1. simpl.
    rewrite mask_at_zeros. reflexivity. }
  split.
  - constructor.
    + unfold w1. simpl. now rewrite !length_map, length_seq.
    + unfold w1. simpl. intros i Hi. apply set_delete_In in Hi.
      apply unv0_cells. tauto.
    + exact Hclear.
    + intros i _. unfold w1. simpl. rewrite mask_at_zeros. unfold int31. lia.
    + exact Harms.
    + intros i j Hi Hj'. apply Hj in Hi, Hj'. subst. apply rt_refl.
    + rewrite (edge_ends_arms gg w1 Hclear Harms).
      rewrite (sum_same (fun _ => 0%nat)).
      2:{ intros k _. unfold arms, w1. simpl. rewrite mask_at_zeros.
          rewrite filter_none; auto. }
      rewrite sum_zeros.
      unfold joined_count, w1. simpl.
      rewrite (count_bump (fun i => negb (set_has i unv0)) _ s).
      * rewrite filter_none; [reflexivity|].
        intros k Hk. apply negb_false_iff, set_has_In. now apply unv0_cells.
      * apply NoDup_grid_cells.
      * exact Hsc.
      * apply negb_false_iff, set_has_In. exact Hs.
      * rewrite set_has_delete, Z.eqb_refl. simpl. now rewrite andb_false_r.
      * intros k _ Hk. rewrite set_has_delete. apply Z.eqb_neq in Hk.
        rewrite Hk. simpl. now rewrite andb_true_r.
    + exists s. now apply Hj.
    + intros i Hi. apply Hj. unfold waiting, w1 in Hi. simpl in Hi.
      destruct Hi as [<-|[]]. reflexivity.
    + intros i d j Hi _ _ _. apply Hj in Hi. subst. unfold waiting, w1. simpl. auto.
    + reflexivity.
  - unfold walk_measure, w1. simpl.
    assert (length (set_delete s unv0) < length unv0)%nat.
    { unfold set_delete. apply (filter_shorter _ s); auto. now rewrite Z.eqb_refl. }
    pose proof (fold_delete_length (emptyCells g) every) as Hle.
    rewrite length_map, length_seq in Hle. lia.
Qed.

Lemma tileForbidden_outcome unv :
  (exists tf, tileForbidden_of gg fuel avoidObvious unv = GRet tf)
  \/ (Qle_bool avoidObvious 0 = false
      /\ tileForbidden_of gg fuel avoidObvious unv
         = GThrow (CellExn NoOrientationsPossible)).
Proof.
  unfold tileForbidden_of. destruct (Qle_bool avoidObvious 0); [left; eauto|].
  match goal with
  | |- context [fold_left ?f unv ?a] =>
      assert (H : (exists x, fold_left f unv a = GRet x)
                  \/ fold_left f unv a = GThrow (CellExn NoOrientationsPossible))
  end.
  { match goal with
    | |- (exists x, fold_left ?f unv ?a = _) \/ _ =>
        assert (Hgen : forall l acc,
                  ((exists x, acc = GRet x)
                   \/ acc = GThrow (CellExn NoOrientationsPossible)) ->
                  (exists x, fold_left f l acc = GRet x)
                  \/ fold_left f l acc = GThrow (CellExn NoOrientationsPossible))
    end.
    { induction l as [|t l IH]; intros acc Hacc; [exact Hacc|].
      simpl. apply IH. destruct Hacc as [[[cache tf] ->]| ->]; [|now right].
      destruct (0 <? borders_of gg t); [|left; eauto].
      destruct (find_forbidden cache _ _); [left; eauto|].
      destruct (obvious_orientations fuel _ _); [left; eauto|now right]. }
    apply Hgen. left. eauto. }
  destruct H as [[[cache tf] ->]| ->]; [left; eauto | right; auto].
Qed.

(** The walk from scratch returns a spanning tree whenever it returns, and
    it returns within a fuel of four rounds for each cell *)
Lemma pregenerate_nothing :
  (forall layout,
     pregenerate_growingtree gg reuseTilesMinCount rnd fuel branchingAmount
       avoidObvious avoidStraights [] = GRet layout ->
     SpanningTree g layout)
  /\ ((4 * Z.to_nat (total g) <= fuel)%nat ->
      (exists layout,
         pregenerate_growingtree gg reuseTilesMinCount rnd fuel branchingAmount
           avoidObvious avoidStraights [] = GRet layout)
      \/ (Qle_bool avoidObvious 0 = false
          /\ pregenerate_growingtree gg reuseTilesMinCount rnd fuel
               branchingAmount avoidObvious avoidStraights []
             = GThrow (CellExn NoOrientationsPossible))).
Proof.
  unfold pregenerate_growingtree. rewrite prepare_nothing.
  cbn [unvisited].
  destruct start_walk_inv as [Hinv Hm].
  split.
  - intros layout H.
    destruct (tileForbidden_of gg fuel avoidObvious unv0) as [tf|e|]; try discriminate.
    eapply walk_sound; eauto.
  - intros Hfuel.
    destruct (tileForbidden_outcome unv0) as [[tf ->]|[Hq ->]]; [left|right; auto].
    destruct (walk_returns gg rnd branchingAmount avoidObvious avoidStraights tf
                Hg Hr fuel (start_walk rnd w0) Hinv) as (layout & Hl & _); [lia|].
    eauto.
Qed.

End Start.


(* ================================================================== *)
(** ** C2: the layouts of pregenerate_growingtree *)

(** C2 (as amended). On a grid whose cells hang together (there is a
    cell; the directions are masks without a common bit and the polygons use
    them; a neighbour that is not empty is a cell from which the opposite
    direction leads back; every cell can be reached from every other one),
    with draws of [Math.random] in [[0, 1)] and no [startTiles]: every layout
    that [pregenerate_growingtree] returns is a spanning tree of the cells
    that are not empty (each reachable from each other through mutual
    connections, and one edge less than cells); and the call does end: with
    a fuel of four rounds for each cell it returns a layout, or, when
    [avoidObvious] is positive, [applyConstraints] throws in the
    computation of the forbidden orientations. *)
Theorem C2_growingtree_spanning_tree gg reuseTilesMinCount rnd fuel
    branchingAmount avoidObvious avoidStraights :
  grid_ok gg -> draws_ok rnd ->
  returns_spanning_tree gg reuseTilesMinCount rnd fuel branchingAmount
    avoidObvious avoidStraights
  /\ ((4 * Z.to_nat (total (base gg)) <= fuel)%nat ->
      (exists layout,
         pregenerate_growingtree gg reuseTilesMinCount rnd fuel branchingAmount
           avoidObvious avoidStraights [] = GRet layout)
      \/ (Qle_bool avoidObvious 0 = false
          /\ pregenerate_growingtree gg reuseTilesMinCount rnd fuel
               branchingAmount avoidObvious avoidStraights []
             = GThrow (CellExn NoOrientationsPossible))).
Proof.
  intros Hg Hr. unfold returns_spanning_tree.
  apply pregenerate_nothing; assumption.
Qed.

Lemma zero_draws_ok : draws_ok (fun _ => 0%Q).
Proof. intros k. split; [apply Qle_refl | reflexivity]. Qed.

Lemma small_board_cells : grid_cells (base small_board) = [0; 1; 2; 3; 4].
Proof. vm_compute. reflexivity. Qed.

Ltac each_cell H :=
  rewrite small_board_cells in H; simpl in H;
  repeat (destruct H as [<-|H]); [..|contradiction].

Ltac each_direction H :=
  vm_compute in H; repeat (destruct H as [<-|H]); [..|contradiction].

Lemma small_board_adjacent i j d :
  In d (directions (polygon_at small_board i)) ->
  find_neighbour (base small_board) i d = (j, false) ->
  adjacent small_board i j.
Proof. intros Hd Hn. exists d. auto. Qed.

Lemma small_board_ok : grid_ok small_board.
Proof.
  constructor.
  - rewrite small_board_cells. discriminate.
  - split; repeat constructor.
  - intros i Hi. each_cell Hi; intros d Hd; each_direction Hd;
      vm_compute; tauto.
  - intros i d j Hi Hd Hn.
    each_cell Hi; each_direction Hd; vm_compute in Hn;
      try discriminate; injection Hn as <-;
      (split; [rewrite small_board_cells; simpl; tauto|]);
      eexists; (split; [reflexivity|]);
      (split; [vm_compute; tauto|]); split; reflexivity.
  - assert (Hout : forall i, In i (grid_cells (base small_board)) ->
              clos_refl_trans Z (adjacent small_board) 0 i).
    { intros i Hi. each_cell Hi.
      - apply rt_refl.
      - apply rt_step. apply (small_board_adjacent 0 1 EAST);
          [vm_compute; tauto | reflexivity].
      - apply rt_step. apply (small_board_adjacent 0 2 SOUTH);
          [vm_compute; tauto | reflexivity].
      - apply rt_trans with 1; apply rt_step.
        + apply (small_board_adjacent 0 1 EAST); [vm_compute; tauto | reflexivity].
        + apply (small_board_adjacent 1 3 SOUTH); [vm_compute; tauto | reflexivity].
      - apply rt_step. apply (small_board_adjacent 0 4 SOUTHEAST);
          [vm_compute; tauto | reflexivity]. }
    assert (Hback : forall i, In i (grid_cells (base small_board)) ->
              clos_refl_trans Z (adjacent small_board) i 0).
    { intros i Hi. each_cell Hi.
      - apply rt_refl.
      - apply rt_step. apply (small_board_adjacent 1 0 WEST);
          [vm_compute; tauto | reflexivity].
      - apply rt_step. apply (small_board_adjacent 2 0 NORTH);
          [vm_compute; tauto | reflexivity].
      - apply rt_trans with 1; apply rt_step.
        + apply (small_board_adjacent 3 1 NORTH); [vm_compute; tauto | reflexivity].
        + apply (small_board_adjacent 1 0 WEST); [vm_compute; tauto | reflexivity].
      - apply rt_step. apply (small_board_adjacent 4 0 NORTHWEST);
          [vm_compute; tauto | reflexivity]. }
    intros i j Hi Hj. apply rt_trans with 0; auto.
Qed.

Lemma C2_growingtree_spanning_tree_witness :
  grid_ok small_board /\ draws_ok (fun _ => 0%Q)
  /\ pregenerate_growingtree small_board 3 (fun _ => 0%Q) 20 (3 # 5)%Q 0%Q 0%Q []
     = GRet [193; 80; 4; 4; 8; 0; 0; 0]
  /\ SpanningTree (base small_board) [193; 80; 4; 4; 8; 0; 0; 0].
Proof.
  split; [exact small_board_ok|]. split; [exact zero_draws_ok|].
  split; [vm_compute; reflexivity|].
  apply (proj1 (C2_growingtree_spanning_tree small_board 3 (fun _ => 0%Q) 20
                  (3 # 5)%Q 0%Q 0%Q small_board_ok zero_draws_ok)).
  vm_compute. reflexivity.
Defined.

(** C2 as worded fails on a grid whose cells do not hang together: on
    [islands] the walk starts at the octagon 3, which has no neighbour; the
    lists of nodes are then empty, [fromNode] keeps its initial value 0 and
    the walk goes on from the cell 0. The returned layout leaves the cell 3
    apart and joins the cells 0, 1 and 4 in a cycle. *)
Lemma C2_counterexample :
  pregenerate_growingtree islands 3 islands_draws 50 0%Q 0%Q 0%Q []
  = GRet [129; 48; 0; 0; 10; 0; 0; 0]
  /\ ~ Connected (base islands) [129; 48; 0; 0; 10; 0; 0; 0]
  /\ ~ returns_spanning_tree islands 3 islands_draws 50 0%Q 0%Q 0%Q.
Proof.
  assert (Hrun : pregenerate_growingtree islands 3 islands_draws 50 0%Q 0%Q 0%Q []
                 = GRet [129; 48; 0; 0; 10; 0; 0; 0]) by (vm_compute; reflexivity).
  assert (Hno : ~ Connected (base islands) [129; 48; 0; 0; 10; 0; 0; 0]).
  { intros Hc.
    assert (H3 : In 3 (grid_cells (base islands))) by (vm_compute; tauto).
    assert (H0 : In 0 (grid_cells (base islands))) by (vm_compute; tauto).
    specialize (Hc 3 0 H3 H0). apply clos_rt_rt1n in Hc.
    inversion Hc as [|y z Hl _]; subst.
    destruct Hl as (d & Hd & _). vm_compute in Hd. exact Hd. }
  split; [exact Hrun|]. split; [exact Hno|].
  intros H. apply Hno. exact (proj1 (H _ Hrun)).
Qed.


(* ================================================================== *)
(** ** Marks of a cell, one bit at a time *)

Lemma land_bit x k : 0 <= k -> (Z.land x (2 ^ k) <> 0 <-> Z.testbit x k = true).
Proof.
  intros Hk. split.
  - intros H. destruct (Z.testbit x k) eqn:E; auto. exfalso. apply H.
    apply Z.bits_inj'. intros n Hn.
    rewrite Z.land_spec, Z.pow2_bits_eqb, Z.bits_0 by auto.
    destruct (Z.eqb_spec k n); subst; [rewrite E|]; simpl; auto using andb_false_r.
  - intros E H. apply (f_equal (fun y => Z.testbit y k)) in H.
    rewrite Z.land_spec, Z.pow2_bits_eqb, Z.bits_0, E, Z.eqb_refl in H by auto.
    discriminate.
Qed.

Lemma pow2_int31 k : 0 <= k < 31 -> int31 (2 ^ k).
Proof.
  intros Hk. unfold int31. split; [apply Z.pow_nonneg; lia|].
  apply Z.pow_lt_mono_r; lia.
Qed.

Lemma claimed_bit c k :
  0 <= k ->
  (claimed c (2 ^ k)
   <-> Z.testbit (walls c) k = true \/ Z.testbit (connections c) k = true).
Proof. intros Hk. unfold claimed. now rewrite !land_bit. Qed.

(** The test [(direction & added) > 0] *)
Lemma test_bit x k :
  0 <= k < 31 -> int31 x ->
  ((0 <? band (2 ^ k) x) = true <-> Z.testbit x k = true).
Proof.
  intros Hk Hx. rewrite band_small by auto using pow2_int31.
  rewrite Z.land_comm, <- land_bit by lia.
  assert (0 <= Z.land x (2 ^ k)) by (apply Z.land_nonneg; left; apply Hx).
  rewrite Z.ltb_lt. lia.
Qed.

Lemma within_bit full x k :
  within full x -> Z.testbit x k = true -> Z.testbit full k = true.
Proof.
  intros [_ H] E. apply (f_equal (fun y => Z.testbit y k)) in H.
  rewrite Z.land_spec, E in H. simpl in H. exact H.
Qed.

Lemma within_pow2 full k :
  0 <= k -> Z.land full (2 ^ k) = 2 ^ k -> within full (2 ^ k).
Proof.
  intros Hk H. split; [apply Z.pow_nonneg; lia|]. now rewrite Z.land_comm.
Qed.

Lemma full_bit full k :
  0 <= k -> Z.land full (2 ^ k) = 2 ^ k -> Z.testbit full k = true.
Proof.
  intros Hk H. apply land_bit; auto. rewrite H.
  assert (0 < 2 ^ k) by (apply Z.pow_pos_nonneg; lia). lia.
Qed.

Lemma bit_full full k :
  0 <= k -> Z.testbit full k = true -> Z.land full (2 ^ k) = 2 ^ k.
Proof.
  intros Hk H. apply Z.bits_inj'. intros m Hm.
  rewrite Z.land_spec, Z.pow2_bits_eqb by lia.
  destruct (Z.eqb_spec k m); [subst; now rewrite H | apply andb_false_r].
Qed.

Lemma cell_sound_wf full c :
  int31 full -> cell_sound full c ->
  int31 (walls c) /\ int31 (connections c) /\ disjoint_marks c.
Proof.
  intros Hf (Hw & Hc & Hd & _).
  assert (H1 := within_int31 full _ Hf Hw).
  assert (H2 := within_int31 full _ Hf Hc).
  repeat split; try apply H1; try apply H2.
  unfold disjoint_marks. now rewrite band_small.
Qed.

(* ================================================================== *)
(** ** addWall and addConnection of one direction *)

Lemma addWall_bit full c k :
  int31 full -> cell_sound full c -> 0 <= k < 31 ->
  Z.land full (2 ^ k) = 2 ^ k ->
  cell_sound full (addWall (2 ^ k) c)
  /\ possible (addWall (2 ^ k) c) = possible c
  /\ connections (addWall (2 ^ k) c) = connections c
  /\ claimed (addWall (2 ^ k) c) (2 ^ k)
  /\ (forall x, claimed c x -> claimed (addWall (2 ^ k) c) x)
  /\ (forall j, 0 <= j -> j <> k ->
        claimed (addWall (2 ^ k) c) (2 ^ j) -> claimed c (2 ^ j)).
Proof.
  intros Hf Hs Hk Hin.
  destruct (cell_sound_wf full c Hf Hs) as (Hw & Hc & Hd).
  destruct Hs as (Sw & Sc & Sd & Sp).
  pose proof (addWall_walls c (2 ^ k) Hw Hc Hd (pow2_int31 k Hk)) as E.
  assert (Hwd : within full (2 ^ k)) by (apply within_pow2; auto; lia).
  split; [|split; [reflexivity|split; [reflexivity|split; [|split]]]].
  - split; [|split; [exact Sc|split; [|exact Sp]]].
    + rewrite E. apply within_lor; auto. now apply within_ldiff_l.
    + change (connections (addWall (2 ^ k) c)) with (connections c).
      rewrite E. bit_goal n. bit_hyp n Sd. bit_cases.
  - apply claimed_bit; [lia|].
    change (connections (addWall (2 ^ k) c)) with (connections c). rewrite E.
    rewrite Z.lor_spec, Z.ldiff_spec, Z.lor_spec, Z.pow2_bits_eqb, Z.eqb_refl by lia.
    destruct (Z.testbit (walls c) k), (Z.testbit (connections c) k); simpl; auto.
  - intros x [H|H]; [left|right; exact H].
    rewrite E. intros H0. apply H.
    bit_goal n. bit_hyp n H0. bit_cases.
  - intros j Hj Hne H. apply claimed_bit in H; auto. apply claimed_bit; auto.
    change (connections (addWall (2 ^ k) c)) with (connections c) in H.
    rewrite E in H.
    rewrite Z.lor_spec, Z.ldiff_spec, Z.pow2_bits_eqb in H by lia.
    replace (k =? j) with false in H by (symmetry; apply Z.eqb_neq; lia).
    simpl in H. rewrite orb_false_r in H. exact H.
Qed.

Lemma addConnection_bit full c k :
  int31 full -> cell_sound full c -> 0 <= k < 31 ->
  Z.land full (2 ^ k) = 2 ^ k ->
  cell_sound full (addConnection (2 ^ k) c)
  /\ possible (addConnection (2 ^ k) c) = possible c
  /\ claimed (addConnection (2 ^ k) c) (2 ^ k)
  /\ (forall x, claimed c x -> claimed (addConnection (2 ^ k) c) x)
  /\ (forall j, 0 <= j -> j <> k ->
        claimed (addConnection (2 ^ k) c) (2 ^ j) -> claimed c (2 ^ j)).
Proof.
  intros Hf Hs Hk Hin.
  destruct (cell_sound_wf full c Hf Hs) as (Hw & Hc & Hd).
  destruct Hs as (Sw & Sc & Sd & Sp).
  pose proof (addConnection_connections c (2 ^ k) Hw Hc Hd (pow2_int31 k Hk)) as E.
  assert (Hwd : within full (2 ^ k)) by (apply within_pow2; auto; lia).
  split; [|split; [reflexivity|split; [|split]]].
  - split; [exact Sw|split; [|split; [|exact Sp]]].
    + rewrite E. apply within_lor; auto. now apply within_ldiff_l.
    + change (walls (addConnection (2 ^ k) c)) with (walls c).
      rewrite E. bit_goal n. bit_hyp n Sd. bit_cases.
  - apply claimed_bit; [lia|].
    change (walls (addConnection (2 ^ k) c)) with (walls c). rewrite E.
    rewrite Z.lor_spec, Z.ldiff_spec, Z.lor_spec, Z.pow2_bits_eqb, Z.eqb_refl by lia.
    destruct (Z.testbit (walls c) k), (Z.testbit (connections c) k); simpl; auto.
  - intros x [H|H]; [left; exact H|right].
    rewrite E. intros H0. apply H.
    bit_goal n. bit_hyp n H0. bit_cases.
  - intros j Hj Hne H. apply claimed_bit in H; auto. apply claimed_bit; auto.
    change (walls (addConnection (2 ^ k) c)) with (walls c) in H.
    rewrite E in H.
    rewrite Z.lor_spec, Z.ldiff_spec, Z.pow2_bits_eqb in H by lia.
    replace (k =? j) with false in H by (symmetry; apply Z.eqb_neq; lia).
    simpl in H. rewrite orb_false_r in H. exact H.
Qed.

(** The filters leave the marks alone *)
Lemma delete_where_sound full cond c :
  cell_sound full c -> cell_sound full (delete_where cond c).
Proof.
  intros (Hw & Hc & Hd & Hp). repeat split; try apply Hw; try apply Hc; auto.
  simpl. rewrite Forall_forall in *. intros o Ho.
  apply filter_In in Ho. now apply Hp.
Qed.

(* ================================================================== *)
(** ** applyConstraints on a sound cell *)

Lemma inter_all_one x : inter_all [x] = x.
Proof. unfold inter_all. simpl. apply Z.land_m1_r. Qed.

Lemma applied full c c' aW aC :
  int31 full -> cell_sound full c ->
  applyConstraints full c = (c', Some (aW, aC)) ->
  cell_sound full c'
  /\ possible c' = filter (respects c) (possible c)
  /\ possible c' <> []
  /\ walls c' = inter_all (map (Z.ldiff full) (possible c'))
  /\ connections c' = inter_all (possible c')
  /\ int31 aW /\ int31 aC
  /\ aW = Z.ldiff (walls c') (walls c)
  /\ aC = Z.ldiff (connections c') (connections c)
  /\ keeps_bits (walls c') (walls c)
  /\ keeps_bits (connections c') (connections c).
Proof.
  intros Hf Hs H.
  destruct (cell_sound_wf full c Hf Hs) as (Hw & Hc & Hd).
  destruct Hs as (Sw & Sc & Sd & Sp).
  assert (Hne : filter (respects c) (possible c) <> []).
  { intros Ek. rewrite (applyConstraints_empty full c Ek) in H. discriminate. }
  rewrite (applyConstraints_cell full c Hf Sp Hne) in H.
  injection H as <- <- <-. cbn [possible walls connections].
  pose proof (newWalls_within full c Hf Hne) as Nw.
  pose proof (newConnections_within full c Sp Hne) as Nc.
  pose proof (new_marks_disjoint full c Hne) as Nd.
  pose proof (added_bits full c Hf Sp Sw Hc) as [Aw Ac].
  pose proof (old_walls_kept full c Hf Sp Sw Hc) as Kw.
  pose proof (old_connections_kept full c Hf Sp Sw Hc) as Kc.
  pose proof (kept_within full c Sp) as Kp.
  pose proof (within_int31 full _ Hf Nw) as I1.
  pose proof (within_int31 full _ Hf Nc) as I2.
  refine (conj _ (conj eq_refl (conj Hne (conj eq_refl (conj eq_refl
            (conj _ (conj _ (conj Aw (conj Ac (conj Kw Kc)))))))))).
  - exact (conj Nw (conj Nc (conj Nd Kp))).
  - rewrite Aw. now apply int31_ldiff.
  - rewrite Ac. now apply int31_ldiff.
Qed.

(** What a round learns about a direction *)
Lemma applied_bits full c c' aW aC k :
  int31 full -> cell_sound full c ->
  applyConstraints full c = (c', Some (aW, aC)) -> 0 <= k < 31 ->
  (claimed c (2 ^ k) -> claimed c' (2 ^ k))
  /\ (claimed c' (2 ^ k) ->
      claimed c (2 ^ k)
      \/ (0 <? band (2 ^ k) aW) = true \/ (0 <? band (2 ^ k) aC) = true)
  /\ ((0 <? band (2 ^ k) aW) = true \/ (0 <? band (2 ^ k) aC) = true ->
      claimed c' (2 ^ k) /\ ~ claimed c (2 ^ k))
  /\ ((0 <? band (2 ^ k) aC) = true -> Z.testbit aC k = true).
Proof.
  intros Hf Hs H Hk.
  destruct (applied full c c' aW aC Hf Hs H)
    as (Hs' & _ & _ & _ & _ & HaW & HaC & EW & EC & KW & KC).
  destruct Hs as (_ & _ & Sd & _). destruct Hs' as (_ & _ & Sd' & _).
  rewrite !claimed_bit by lia. rewrite !test_bit by auto.
  subst aW aC. rewrite !Z.ldiff_spec.
  unfold keeps_bits in KW, KC.
  bit_hyp k Sd. bit_hyp k Sd'. bit_hyp k KW. bit_hyp k KC.
  destruct (Z.testbit (walls c) k), (Z.testbit (connections c) k),
    (Z.testbit (walls c') k), (Z.testbit (connections c') k);
    simpl in *; try discriminate; intuition congruence.
Qed.

(** A cell that is final after [applyConstraints] has every direction of
    its cell marked *)
Lemma applied_final full c c' aW aC o k :
  int31 full -> cell_sound full c ->
  applyConstraints full c = (c', Some (aW, aC)) ->
  possible c' = [o] -> 0 <= k -> Z.testbit full k = true ->
  claimed c' (2 ^ k).
Proof.
  intros Hf Hs H Ho Hk Hb.
  destruct (applied full c c' aW aC Hf Hs H)
    as (Hs' & _ & _ & Ew & Ec & _).
  rewrite Ho in Ew, Ec. simpl map in Ew. rewrite inter_all_one in Ew, Ec.
  apply claimed_bit; auto. rewrite Ew, Ec, Z.ldiff_spec, Hb.
  destruct (Z.testbit o k); simpl; auto.
Qed.

(** An empty cell gets no connection *)
Lemma applied_empty full c c' aW aC :
  int31 full -> cell_sound full c ->
  applyConstraints full c = (c', Some (aW, aC)) ->
  connections c = 0 -> Forall (fun o => o = 0) (possible c) ->
  aC = 0 /\ connections c' = 0 /\ Forall (fun o => o = 0) (possible c').
Proof.
  intros Hf Hs H Hc Hp.
  destruct (applied full c c' aW aC Hf Hs H)
    as (_ & Ep & Hne & _ & Ec & _ & _ & _ & EC & _).
  assert (Hp' : Forall (fun o => o = 0) (possible c')).
  { rewrite Ep. rewrite Forall_forall in *. intros o Ho.
    apply filter_In in Ho. now apply Hp. }
  assert (E0 : connections c' = 0).
  { rewrite Ec. destruct (possible c') as [|o l]; [congruence|].
    inversion Hp'; subst. reflexivity. }
  split; [|split]; auto. rewrite EC, E0. apply Z.ldiff_0_l.
Qed.


(* ================================================================== *)
(** ** A new cell and its local deductions *)

Lemma filtered_refl c : filtered c c.
Proof. repeat split; auto. apply incl_refl. Qed.

Lemma filtered_trans c1 c2 c3 : filtered c1 c2 -> filtered c2 c3 -> filtered c1 c3.
Proof.
  intros (A1 & A2 & A3) (B1 & B2 & B3). repeat split; try congruence.
  eapply incl_tran; eauto.
Qed.

Lemma filtered_delete_where cond c : filtered c (delete_where cond c).
Proof.
  repeat split; auto. simpl. intros o Ho. apply filter_In in Ho. tauto.
Qed.

Lemma filtered_fold {A} (f : Cell -> A -> Cell) l :
  (forall c a, filtered c (f c a)) -> forall c, filtered c (fold_left f l c).
Proof.
  intros Hf. induction l as [|a l IH]; intros c; [apply filtered_refl|].
  simpl. eapply filtered_trans; [apply Hf | apply IH].
Qed.

Section Fresh.

Variable g : Grid.

Lemma filtered_sharp tile nt c : filtered c (hexa_rule_sharp g tile nt c).
Proof.
  unfold hexa_rule_sharp. destruct (some_eq _ tile); [|apply filtered_refl].
  apply filtered_fold. intros c0 [i [d t]].
  destruct (some_eq _ _); [apply filtered_delete_where | apply filtered_refl].
Qed.

Lemma filtered_psi tile nt c : filtered c (hexa_rule_psi g tile nt c).
Proof.
  unfold hexa_rule_psi. destruct (some_eq _ tile); [|apply filtered_refl].
  apply filtered_fold. intros c0 [i [d t]].
  destruct (some_eq _ _); [apply filtered_delete_where | apply filtered_refl].
Qed.

Lemma filtered_walls tile nt c : filtered c (hexa_rule_walls g tile nt c).
Proof.
  unfold hexa_rule_walls. destruct (negb _); [|apply filtered_refl].
  apply filtered_fold. intros c0 [i [d t]].
  destruct (some_eq _ _); [|apply filtered_refl].
  destruct (hexa_side _ _ _ _) as [f|]; [|apply filtered_refl].
  destruct (f =? 0); [apply filtered_refl | apply filtered_delete_where].
Qed.

(** The cell after [doLocalDeductions]: orientations are removed, and the
    walls are those of the empty neighbours *)
Lemma doLocalDeductions_cell_marks tl idx c :
  walls c = 0 -> connections c = 0 ->
  let c' := fst (doLocalDeductions_cell g tl idx c) in
  connections c' = 0
  /\ incl (possible c') (possible c)
  /\ (walls c' = 0 \/ walls c' = snd (fst (scan_neighbours g tl idx))).
Proof.
  intros Hw Hc. unfold doLocalDeductions_cell.
  destruct (set_size (possible c) =? 1); [simpl; auto using incl_refl|].
  destruct (scan_neighbours g tl idx) as [[nt w] inv]. cbn [fst snd].
  set (c1 := if 0 <? w then mustHaveAllWalls w (addWall w c) else c).
  set (c2 := if 0 <? inv then mustHaveAllWalls inv c1 else c1).
  set (c3 := if checkDeadendConnections g then _ else c2).
  set (c4 := if isHexaGrid g then _ else c3).
  assert (F12 : filtered c1 c2)
    by (unfold c2; destruct (0 <? inv);
        [apply filtered_delete_where | apply filtered_refl]).
  assert (F23 : filtered c2 c3)
    by (unfold c3; destruct (checkDeadendConnections g);
        [apply filtered_delete_where | apply filtered_refl]).
  assert (F34 : filtered c3 c4).
  { unfold c4. destruct (isHexaGrid g); [|apply filtered_refl].
    eapply filtered_trans; [apply filtered_sharp|].
    eapply filtered_trans; [apply filtered_psi | apply filtered_walls]. }
  destruct (filtered_trans _ _ _ F12 (filtered_trans _ _ _ F23 F34))
    as (Ew & Ec & Ep).
  assert (H1 : connections c1 = 0 /\ incl (possible c1) (possible c)
               /\ (walls c1 = 0 \/ walls c1 = w)).
  { unfold c1. destruct (0 <? w).
    - simpl. rewrite Hw, Hc. simpl. rewrite band_0_l.
      split; [reflexivity|]. split; [|right; lia].
      intros o Ho. apply filter_In in Ho. tauto.
    - split; [exact Hc|]. split; [apply incl_refl | left; exact Hw]. }
  destruct H1 as (H1c & H1p & H1w).
  cbn [fst]. split; [congruence|]. split; [eapply incl_tran; eauto|].
  rewrite Ew. exact H1w.
Qed.

Lemma doLocalDeductions_cell_skip tl idx c :
  (set_size (possible c) =? 1) = true ->
  fst (doLocalDeductions_cell g tl idx c) = c.
Proof. intros E. unfold doLocalDeductions_cell. now rewrite E. Qed.

(** The orientations left have no arm in a direction that is not of the
    cell (lines 300-302) *)
Lemma doLocalDeductions_cell_valid tl idx c :
  (set_size (possible c) =? 1) = false ->
  let c' := fst (doLocalDeductions_cell g tl idx c) in
  let inv := snd (scan_neighbours g tl idx) in
  (0 <? inv) = true -> forall o, In o (possible c') -> (0 <? band o inv) = false.
Proof.
  intros E. unfold doLocalDeductions_cell. rewrite E.
  destruct (scan_neighbours g tl idx) as [[nt w] inv]. cbn [fst snd].
  intros Hinv. rewrite Hinv.
  set (c1 := if 0 <? w then mustHaveAllWalls w (addWall w c) else c).
  set (c2 := mustHaveAllWalls inv c1).
  set (c3 := if checkDeadendConnections g then _ else c2).
  set (c4 := if isHexaGrid g then _ else c3).
  assert (F23 : filtered c2 c3)
    by (unfold c3; destruct (checkDeadendConnections g);
        [apply filtered_delete_where | apply filtered_refl]).
  assert (F34 : filtered c3 c4).
  { unfold c4. destruct (isHexaGrid g); [|apply filtered_refl].
    eapply filtered_trans; [apply filtered_sharp|].
    eapply filtered_trans; [apply filtered_psi | apply filtered_walls]. }
  destruct (filtered_trans _ _ _ F23 F34) as (_ & _ & Ep).
  intros o Ho. apply Ep in Ho. unfold c2, mustHaveAllWalls, delete_where in Ho.
  cbn [possible set_possible] in Ho. apply filter_In in Ho.
  destruct Ho as [_ Ho]. now apply negb_true_iff in Ho.
Qed.

Variable tl : list Z.
Hypothesis Hb : board_ok g tl.

Lemma dir_bit d : In d (DIRECTIONS g) -> exists k, 0 <= k < 31 /\ d = 2 ^ k.
Proof.
  intros Hd. pose proof (bo_bits g tl Hb) as H.
  rewrite Forall_forall in H. now apply H.
Qed.

Lemma tile_at i : on_board g i -> exists t, array_get tl i = Some t.
Proof.
  intros [H0 H1]. unfold array_get.
  replace (i <? 0) with false by (symmetry; apply Z.ltb_ge; lia).
  destruct (nth_error tl (Z.to_nat i)) eqn:E; [eauto|].
  apply nth_error_None in E. pose proof (bo_tiles g tl Hb). lia.
Qed.

(** The walls added for the empty neighbours *)
Lemma scan_walls idx :
  on_board g idx ->
  let w := snd (fst (scan_neighbours g tl idx)) in
  within (fullyConnected g idx) w
  /\ forall k, 0 <= k -> Z.testbit w k = true ->
       In (2 ^ k) (DIRECTIONS g) /\ snd (find_neighbour g idx (2 ^ k)) = true.
Proof.
  intros Hi. unfold scan_neighbours.
  pose proof (bo_full g tl Hb idx Hi) as Hf.
  set (full := fullyConnected g idx) in *.
  set (step := fun (acc : list Z * Z * Z) direction => _).
  assert (Hgen : forall l acc,
    incl l (DIRECTIONS g) -> NoDup l ->
    (within full (snd (fst acc))
     /\ forall k, 0 <= k -> Z.testbit (snd (fst acc)) k = true ->
          In (2 ^ k) (DIRECTIONS g) /\ ~ In (2 ^ k) l
          /\ snd (find_neighbour g idx (2 ^ k)) = true) ->
    within full (snd (fst (fold_left step l acc)))
    /\ forall k, 0 <= k -> Z.testbit (snd (fst (fold_left step l acc))) k = true ->
         In (2 ^ k) (DIRECTIONS g)
         /\ snd (find_neighbour g idx (2 ^ k)) = true).
  { induction l as [|d l IH]; intros [[nt w] inv] Hl Hnd [Hw Hk].
    - simpl. split; auto. intros k H0 H1. destruct (Hk k H0 H1) as (A & _ & B). auto.
    - simpl fold_left. apply IH.
      + intros x Hx. apply Hl. now right.
      + now inversion Hnd.
      + assert (Hd : In d (DIRECTIONS g)) by (apply Hl; now left).
        destruct (dir_bit d Hd) as (kd & Hkd & ->).
        inversion Hnd as [|? ? Hnotin Hnd']; subst.
        unfold step. cbn [fst snd] in *.
        destruct (band full (2 ^ kd) =? 0) eqn:Eb.
        { cbn [fst snd]. split; auto. intros k H0 H1.
          destruct (Hk k H0 H1) as (A & B & C).
          split; [exact A|]. split; [|exact C].
          intros Hin. apply B. now right. }
        destruct (find_neighbour g idx (2 ^ kd)) as [n empty] eqn:En.
        destruct empty; cbn [fst snd].
        2:{ split; auto. intros k H0 H1.
            destruct (Hk k H0 H1) as (A & B & C).
            split; [exact A|]. split; [|exact C].
            intros Hin. apply B. now right. }
        assert (Hfb : Z.testbit full kd = true).
        { apply Z.eqb_neq in Eb.
          rewrite band_small in Eb by auto using pow2_int31.
          apply land_bit in Eb; [exact Eb|lia]. }
        assert (Hwb : Z.testbit w kd = false).
        { destruct (Z.testbit w kd) eqn:E; auto.
          destruct (Hk kd ltac:(lia) E) as (_ & B & _). exfalso. apply B. now left. }
        assert (Hdis : Z.land w (2 ^ kd) = 0).
        { destruct (Z.eq_dec (Z.land w (2 ^ kd)) 0) as [E|E]; auto.
          apply land_bit in E; [congruence|lia]. }
        rewrite (add_disjoint w (2 ^ kd) Hdis).
        split.
        * apply within_lor; auto. apply within_pow2; [lia|].
          apply bit_full; [lia | exact Hfb].
        * intros k H0 H1. rewrite Z.lor_spec, Z.pow2_bits_eqb in H1 by lia.
          destruct (Z.eqb_spec kd k) as [->|Hne].
          -- split; [exact Hd|]. split; [exact Hnotin|]. now rewrite En.
          -- rewrite orb_false_r in H1.
             destruct (Hk k H0 H1) as (A & B & C).
             split; [exact A|]. split; [|exact C].
             intros Hin. apply B. now right. }
  apply Hgen.
  - apply incl_refl.
  - apply (bo_nodup g tl Hb).
  - cbn [fst snd]. split; [split; [lia|reflexivity]|].
    intros k _ H. rewrite Z.bits_0 in H. discriminate.
Qed.

(** The loop of the constructor starts from what [possible] holds *)
Lemma orbit_prefix rot n : forall rotated acc p,
  orbit n rot rotated acc = Some p -> exists rest, p = acc ++ rest.
Proof.
  induction n as [|n IH]; intros rotated acc p H; [discriminate|].
  simpl in H. destruct (set_has rotated acc).
  - injection H as <-. exists []. now rewrite app_nil_r.
  - destruct (IH _ _ _ H) as [rest ->]. exists (rotated :: rest).
    now rewrite <- app_assoc.
Qed.

Lemma lor_all_bit l d k :
  In d l -> Z.testbit d k = true -> Z.testbit (fold_right Z.lor 0 l) k = true.
Proof.
  induction l as [|a l IH]; intros Hin Hk; [contradiction|]. simpl.
  rewrite Z.lor_spec. destruct Hin as [->|Hin].
  - now rewrite Hk.
  - rewrite IH; auto. apply orb_true_r.
Qed.

Lemma lor_all_In l k :
  Z.testbit (fold_right Z.lor 0 l) k = true ->
  exists d, In d l /\ Z.testbit d k = true.
Proof.
  induction l as [|a l IH]; simpl; intros H.
  - rewrite Z.bits_0 in H. discriminate.
  - rewrite Z.lor_spec in H. apply orb_true_iff in H. destruct H as [H|H].
    + exists a. auto.
    + destruct (IH H) as (d & Hd & Hk). exists d. auto.
Qed.

Lemma within_bits full o :
  0 <= o -> (forall k, 0 <= k -> Z.testbit o k = true -> Z.testbit full k = true) ->
  within full o.
Proof.
  intros Ho H. split; auto. apply Z.bits_inj'. intros k Hk.
  rewrite Z.land_spec. destruct (Z.testbit o k) eqn:E; auto.
  now rewrite (H k Hk E).
Qed.

Lemma within_trans a b c : within a b -> within b c -> within a c.
Proof.
  intros [_ Hab] [Hc Hbc]. split; auto.
  rewrite <- Hbc at 1. rewrite <- Z.land_assoc, Hab. exact Hbc.
Qed.

(** A direction of the grid is a bit of the mask of all directions, and
    the other way round *)
Lemma all_directions_bit k :
  0 <= k ->
  (Z.testbit (all_directions g) k = true <-> In (2 ^ k) (DIRECTIONS g)).
Proof.
  intros Hk. unfold all_directions. split.
  - intros H. destruct (lor_all_In _ _ H) as (d & Hd & Hb').
    destruct (dir_bit d Hd) as (j & Hj & ->).
    rewrite Z.pow2_bits_eqb in Hb' by lia. apply Z.eqb_eq in Hb'. now subst.
  - intros H. apply (lor_all_bit _ (2 ^ k)); auto.
    rewrite Z.pow2_bits_eqb by lia. apply Z.eqb_refl.
Qed.

Lemma all_directions_int31 : int31 (all_directions g).
Proof.
  unfold all_directions. pose proof (bo_bits g tl Hb) as H.
  induction H as [|d l (k & Hk & ->) _ IH]; simpl.
  - unfold int31. lia.
  - apply int31_lor; auto. now apply pow2_int31.
Qed.

(** The directions that are not of the cell (lines 280-287) *)
Lemma scan_invalid idx :
  on_board g idx ->
  let inv := snd (scan_neighbours g tl idx) in
  within (all_directions g) inv
  /\ forall k, 0 <= k -> In (2 ^ k) (DIRECTIONS g) ->
       Z.testbit (fullyConnected g idx) k = false -> Z.testbit inv k = true.
Proof.
  intros Hi. unfold scan_neighbours.
  pose proof (bo_full g tl Hb idx Hi) as Hf.
  set (full := fullyConnected g idx) in *.
  set (step := fun (acc : list Z * Z * Z) direction => _).
  assert (Hgen : forall l acc,
    incl l (DIRECTIONS g) -> NoDup l ->
    (within (all_directions g) (snd acc)
     /\ (forall k, 0 <= k -> Z.testbit (snd acc) k = true -> ~ In (2 ^ k) l)
     /\ (forall k, 0 <= k -> In (2 ^ k) (DIRECTIONS g) -> ~ In (2 ^ k) l ->
           Z.testbit full k = false -> Z.testbit (snd acc) k = true)) ->
    within (all_directions g) (snd (fold_left step l acc))
    /\ forall k, 0 <= k -> In (2 ^ k) (DIRECTIONS g) ->
         Z.testbit full k = false -> Z.testbit (snd (fold_left step l acc)) k = true).
  { induction l as [|d l IH]; intros [[nt w] inv] Hl Hnd (Hw & Hk & Hc).
    - simpl. split; auto.
    - simpl fold_left. apply IH.
      + intros x Hx. apply Hl. now right.
      + now inversion Hnd.
      + assert (Hd : In d (DIRECTIONS g)) by (apply Hl; now left).
        destruct (dir_bit d Hd) as (kd & Hkd & ->).
        inversion Hnd as [|? ? Hnotin Hnd']; subst.
        unfold step. cbn [fst snd] in *.
        rewrite (band_small full (2 ^ kd)) by (auto; now apply pow2_int31).
        destruct (Z.land full (2 ^ kd) =? 0) eqn:Eb.
        * apply Z.eqb_eq in Eb. cbn [fst snd].
          assert (Hib : Z.testbit inv kd = false).
          { destruct (Z.testbit inv kd) eqn:E; auto.
            exfalso. apply (Hk kd ltac:(lia) E). now left. }
          assert (Hdis : Z.land inv (2 ^ kd) = 0).
          { destruct (Z.eq_dec (Z.land inv (2 ^ kd)) 0) as [E|E]; auto.
            apply land_bit in E; [congruence|lia]. }
          rewrite (add_disjoint inv (2 ^ kd) Hdis).
          split; [|split].
          -- apply within_lor; auto. apply within_bits; [lia|].
             intros k H0 H1. rewrite Z.pow2_bits_eqb in H1 by lia.
             apply Z.eqb_eq in H1. subst k. now apply all_directions_bit.
          -- intros k H0 H1 Hin. rewrite Z.lor_spec, Z.pow2_bits_eqb in H1 by lia.
             destruct (Z.eqb_spec kd k) as [->|Hne]; [contradiction|].
             rewrite orb_false_r in H1. apply (Hk k H0 H1). now right.
          -- intros k H0 H1 H2 H3. rewrite Z.lor_spec, Z.pow2_bits_eqb by lia.
             destruct (Z.eqb_spec kd k) as [->|Hne]; [apply orb_true_r|].
             rewrite orb_false_r. apply Hc; auto.
             intros [E|Hin]; [|contradiction].
             apply Hne. apply (Z.pow_inj_r 2); lia.
        * apply Z.eqb_neq in Eb. apply land_bit in Eb; [|lia].
          destruct (find_neighbour g idx (2 ^ kd)) as [n empty]. cbn [fst snd].
          split; [exact Hw|]. split.
          -- intros k H0 H1 Hin. apply (Hk k H0 H1). now right.
          -- intros k H0 H1 H2 H3. apply Hc; auto.
             intros [E|Hin]; [|contradiction].
             assert (kd = k) by (apply (Z.pow_inj_r 2); lia). subst k. congruence. }
  apply Hgen.
  - apply incl_refl.
  - apply (bo_nodup g tl Hb).
  - cbn [fst snd]. split; [split; [lia|reflexivity]|]. split.
    + intros k _ H. rewrite Z.bits_0 in H. discriminate.
    + intros k _ H Hn. contradiction.
Qed.

(** An orientation that went through the filter of lines 300-302 is a mask
    of the cell *)
Lemma valid_within idx o :
  on_board g idx ->
  let inv := snd (scan_neighbours g tl idx) in
  within (all_directions g) o ->
  ((0 <? inv) = true -> (0 <? band o inv) = false) ->
  within (fullyConnected g idx) o.
Proof.
  intros Hi inv Ho Hfil. destruct (scan_invalid idx Hi) as [Hinv Hbits].
  fold inv in Hinv, Hbits.
  pose proof all_directions_int31 as Ha.
  pose proof (within_int31 _ _ Ha Ho) as Ho31.
  pose proof (within_int31 _ _ Ha Hinv) as Hi31.
  apply within_bits; [apply Ho|]. intros k Hk Hok.
  destruct (Z.testbit (fullyConnected g idx) k) eqn:Ef; auto. exfalso.
  assert (Hd : In (2 ^ k) (DIRECTIONS g))
    by (apply all_directions_bit; [exact Hk | exact (within_bit _ _ _ Ho Hok)]).
  pose proof (Hbits k Hk Hd Ef) as Hik.
  assert (Hpos : 0 < Z.land o inv).
  { assert (Hl : Z.testbit (Z.land o inv) k = true)
      by (rewrite Z.land_spec, Hok, Hik; reflexivity).
    assert (0 <= Z.land o inv) by (apply Z.land_nonneg; left; apply Ho).
    destruct (Z.eq_dec (Z.land o inv) 0) as [E|E]; [|lia].
    rewrite E, Z.bits_0 in Hl. discriminate. }
  assert (Hinvpos : (0 <? inv) = true).
  { apply Z.ltb_lt. assert (0 <= inv) by apply Hinv.
    destruct (Z.eq_dec inv 0) as [E|E]; [|lia].
    rewrite E, Z.bits_0 in Hik. discriminate. }
  specialize (Hfil Hinvpos). rewrite band_small in Hfil; auto.
  apply Z.ltb_ge in Hfil. lia.
Qed.

Lemma orbit_all (P : Z -> Prop) rot n : forall rotated acc p,
  (forall o, P o -> P (rot o)) -> P rotated -> Forall P acc ->
  orbit n rot rotated acc = Some p -> Forall P p.
Proof.
  induction n as [|n IH]; intros rotated acc p Hrot Hr Hacc H; [discriminate|].
  simpl in H. destruct (set_has rotated acc).
  - now injection H as <-.
  - eapply IH; [exact Hrot | apply Hrot, Hr | | exact H].
    apply Forall_app. split; auto.
Qed.

(** What [getCell] puts into [unsolved] for an index that has no cell yet *)
Lemma fresh_cell fuel idx c0 :
  on_board g idx ->
  new_Cell fuel (rotate g) (fullyConnected g) idx (array_get tl idx) = Some c0 ->
  let c := fst (doLocalDeductions_cell g tl idx c0) in
  cell_sound (fullyConnected g idx) c
  /\ (forall d, In d (DIRECTIONS g) -> claimed c d ->
        snd (find_neighbour g idx d) = true)
  /\ (In idx (emptyCells g) ->
      connections c = 0 /\ Forall (fun o => o = 0) (possible c)).
Proof.
  intros Hi Hn.
  destruct (tile_at idx Hi) as [t Ht]. rewrite Ht in Hn.
  pose proof (bo_tile g tl Hb idx t Hi Ht) as Hw.
  pose proof (bo_full g tl Hb idx Hi) as Hf.
  unfold new_Cell in Hn.
  replace (0 <=? t) with true in Hn by (symmetry; apply Z.leb_le; apply Hw).
  destruct (orbit fuel (fun t0 => rotate g t0 1 idx) t []) as [p|] eqn:Eo;
    [|discriminate].
  injection Hn as <-.
  assert (HpA : Forall (within (all_directions g)) p).
  { eapply (orbit_all (within (all_directions g))); [| | |exact Eo]; auto.
    - intros o Ho. now apply (bo_rotate g tl Hb).
    - eapply within_trans; [apply (bo_mask g tl Hb idx Hi)|exact Hw]. }
  assert (Hp : Forall (within (fullyConnected g idx))
                 (possible (fst (doLocalDeductions_cell g tl idx
                                   (mkCell idx (Some t) p 0 0))))).
  { destruct (set_size p =? 1) eqn:Esz.
    - rewrite doLocalDeductions_cell_skip by exact Esz. cbn [possible].
      destruct fuel as [|fuel']; [discriminate|]. cbn [orbit set_has existsb] in Eo.
      destruct (orbit_prefix _ _ _ _ _ Eo) as [rest' Er']. cbn [app] in Er'.
      subst p. apply Z.eqb_eq in Esz. unfold set_size in Esz.
      destruct rest' as [|x rest']; [|simpl length in Esz; lia].
      constructor; auto.
    - apply Forall_forall. intros o Ho.
      apply (valid_within idx o Hi).
      + rewrite Forall_forall in HpA. apply HpA.
        destruct (doLocalDeductions_cell_marks tl idx (mkCell idx (Some t) p 0 0)
                    eq_refl eq_refl) as (_ & Ep0 & _).
        now apply Ep0.
      + intros Hinv.
        now apply (doLocalDeductions_cell_valid tl idx (mkCell idx (Some t) p 0 0)
                     Esz Hinv). }
  destruct (doLocalDeductions_cell_marks tl idx (mkCell idx (Some t) p 0 0)
              eq_refl eq_refl) as (Ec & Ep & Ew).
  cbn [possible] in Ep.
  destruct (scan_walls idx Hi) as [Sw Sk].
  set (c := fst (doLocalDeductions_cell g tl idx (mkCell idx (Some t) p 0 0))) in *.
  assert (Hww : within (fullyConnected g idx) (walls c)).
  { destruct Ew as [->| ->]; auto. split; [lia|reflexivity]. }
  split; [|split].
  - split; [exact Hww|]. split; [rewrite Ec; split; [lia|reflexivity]|].
    split; [rewrite Ec; apply Z.land_0_r|].
    exact Hp.
  - intros d Hd Hc. destruct (dir_bit d Hd) as (k & Hk & ->).
    apply claimed_bit in Hc; [|lia]. rewrite Ec, Z.bits_0 in Hc.
    destruct Hc as [Hc|Hc]; [|discriminate].
    destruct Ew as [E|E]; rewrite E in Hc.
    + rewrite Z.bits_0 in Hc. discriminate.
    + apply (Sk k); [lia | exact Hc].
  - intros He. split; [exact Ec|].
    destruct (bo_empty g tl Hb idx Hi He) as [Ht0 Hr0].
    assert (t = 0) by congruence. subst t.
    assert (Hp0 : Forall (fun o => o = 0) p).
    { eapply (orbit_all (fun o => o = 0)); [| | |exact Eo]; auto.
      intros o ->. exact Hr0. }
    rewrite Forall_forall in *. intros o Ho. apply Hp0, Ep, Ho.
Qed.

End Fresh.


(* ================================================================== *)
(** ** The parts of the invariant, update by update *)

Lemma map_get_delete_other {V} k k' (m : list (Z * V)) :
  k <> k' -> map_get k (map_delete k' m) = map_get k m.
Proof.
  intros Hne. induction m as [|[a v] m IH]; [reflexivity|].
  simpl. destruct (Z.eqb_spec k' a) as [->|Ha]; simpl.
  - destruct (Z.eqb_spec k a); [congruence | exact IH].
  - destruct (k =? a); [reflexivity | exact IH].
Qed.

Lemma answered_done done done' u n e :
  incl done done' -> answered done u n e -> answered done' u n e.
Proof. intros Hi [H|H]; [left; auto | right; auto]. Qed.

Lemma carried_refl idx s : carried idx s s.
Proof.
  split; [|split].
  - intros i c H. exists c. auto.
  - intros c H. exists c. auto.
  - auto.
Qed.

Lemma carried_trans idx s1 s2 s3 :
  carried idx s1 s2 -> carried idx s2 s3 -> carried idx s1 s3.
Proof.
  intros (A1 & A2 & A3) (B1 & B2 & B3). split; [|split].
  - intros i c H. destruct (A1 i c H) as (c2 & H2 & G2).
    destruct (B1 i c2 H2) as (c3 & H3 & G3). exists c3. split; auto.
  - intros c H. destruct (A2 c H) as (c2 & H2 & E2).
    destruct (B2 c2 H2) as (c3 & H3 & E3). exists c3. split; congruence.
  - auto.
Qed.

Section Views.

Variable g : Grid.
Variable tl : list Z.
Hypothesis Hb : board_ok g tl.

(** *** The cells *)

(** One cell is put or replaced: its marks grow, and every new mark
    towards a neighbour is pending or answered *)
Lemma cells_update (P P' : Z -> Z -> Prop) done u u' i c :
  cells_sound g u -> edges_answered g P done u -> done_answered g done u ->
  (forall k, k <> i -> map_get k u' = map_get k u) ->
  map_get i u' = Some c ->
  on_board g i -> cell_sound (fullyConnected g i) c ->
  (In i (emptyCells g) -> connections c = 0 /\ Forall (fun o => o = 0) (possible c)) ->
  (forall c0, map_get i u = Some c0 -> forall d, claimed c0 d -> claimed c d) ->
  (forall k d, P k d -> P' k d) ->
  (forall d n e, In d (DIRECTIONS g) -> claimed c d ->
     find_neighbour g i d = (n, false) -> OPPOSITE g d = Some e ->
     (exists c0, map_get i u = Some c0 /\ claimed c0 d)
     \/ P' i d \/ answered done u' n e) ->
  cells_sound g u' /\ edges_answered g P' done u' /\ done_answered g done u'
  /\ (forall k c0, map_get k u = Some c0 ->
        exists c1, map_get k u' = Some c1 /\ forall d, claimed c0 d -> claimed c1 d).
Proof.
  intros Hc He Hd Hother Hi Hon Hs Hem Hgrow HP Hnew.
  assert (Hg : forall k c0, map_get k u = Some c0 ->
            exists c1, map_get k u' = Some c1 /\ forall d, claimed c0 d -> claimed c1 d).
  { intros k c0 Hk. destruct (Z.eq_dec k i) as [->|Hne].
    - exists c. split; auto. now apply Hgrow.
    - exists c0. split; auto. now rewrite Hother. }
  assert (Ha : forall n e, answered done u n e -> answered done u' n e).
  { intros n e [H|(c0 & H0 & H1)]; [now left|right].
    destruct (Hg n c0 H0) as (c1 & H2 & H3). exists c1. auto. }
  split; [|split; [|split]]; auto.
  - intros k ck Hk. destruct (Z.eq_dec k i) as [->|Hne].
    + rewrite Hi in Hk. injection Hk as <-. auto.
    + rewrite Hother in Hk by auto. now apply Hc.
  - intros k ck d n e Hk Hdir Hcl Hn Ho.
    destruct (Z.eq_dec k i) as [->|Hne].
    + rewrite Hi in Hk. injection Hk as <-.
      destruct (Hnew d n e Hdir Hcl Hn Ho) as [(c0 & H0 & H1)|[H|H]]; auto.
      destruct (He i c0 d n e H0 Hdir H1 Hn Ho) as [H|H]; auto.
    + rewrite Hother in Hk by auto.
      destruct (He k ck d n e Hk Hdir Hcl Hn Ho) as [H|H]; auto.
  - intros n d c0 e Hn Hne Hdir Hf Ho. apply Ha. eapply Hd; eauto.
Qed.

(** The cell [idx] gives its final step *)
Lemma cells_final done u idx c :
  cells_sound g u -> edges_answered g settled_marks done u ->
  done_answered g done u ->
  map_get idx u = Some c ->
  (~ In idx (emptyCells g) ->
   forall d n, In d (DIRECTIONS g) -> find_neighbour g idx d = (n, false) ->
     claimed c d) ->
  cells_sound g (map_delete idx u)
  /\ edges_answered g settled_marks (idx :: done) (map_delete idx u)
  /\ done_answered g (idx :: done) (map_delete idx u).
Proof.
  intros Hc He Hd Hi Hall.
  assert (Ha : forall n e, answered done u n e ->
            answered (idx :: done) (map_delete idx u) n e).
  { intros n e [H|(c0 & H0 & H1)]; [left; now right|].
    destruct (Z.eq_dec n idx) as [->|Hne]; [left; now left|].
    right. exists c0. split; auto. now rewrite map_get_delete_other. }
  split; [|split].
  - intros k ck Hk. destruct (Z.eq_dec k idx) as [->|Hne].
    + rewrite map_get_delete_same in Hk. discriminate.
    + rewrite map_get_delete_other in Hk by auto. now apply Hc.
  - intros k ck d n e Hk Hdir Hcl Hn Ho.
    destruct (Z.eq_dec k idx) as [->|Hne].
    + rewrite map_get_delete_same in Hk. discriminate.
    + rewrite map_get_delete_other in Hk by auto.
      destruct (He k ck d n e Hk Hdir Hcl Hn Ho) as [[]|H]. right. now apply Ha.
  - intros n d c0 e [<-|Hn] Hne Hdir Hf Ho.
    + destruct (He idx c d c0 e Hi Hdir (Hall Hne d c0 Hdir Hf) Hf Ho) as [[]|H].
      now apply Ha.
    + apply Ha. eapply Hd; eauto.
Qed.

(** *** The dirty set *)

Lemma set_add_app_r x (E N : list Z) :
  ~ In x E -> set_add x (E ++ N) = E ++ set_add x N.
Proof.
  intros Hn. unfold set_add.
  assert (H : set_has x (E ++ N) = set_has x N).
  { apply eq_true_iff_eq. rewrite !set_has_In, in_app_iff. tauto. }
  rewrite H. destruct (set_has x N); [reflexivity|]. now rewrite app_assoc.
Qed.

Lemma set_add_present x (l : list Z) : In x l -> set_add x l = l.
Proof.
  intros H. unfold set_add. apply set_has_In in H. now rewrite H.
Qed.

Lemma dirty_add_sound done dt x :
  dirty_sound g done dt ->
  on_board g x -> ~ In x done -> (~ In x (emptyCells g) \/ In x dt) ->
  dirty_sound g done (set_add x dt).
Proof.
  intros [Hm (E & N & -> & HE & HN & Hd)] Hon Hnd Hx.
  destruct (in_dec Z.eq_dec x (E ++ N)) as [Hin|Hout].
  { rewrite set_add_present by auto. split; auto. exists E, N. auto. }
  destruct Hx as [Hx|Hx]; [|contradiction].
  split.
  - intros i Hi. apply set_add_In in Hi. destruct Hi as [->|Hi]; auto.
  - exists E, (set_add x N). split; [|split; [exact HE|split; [|exact Hd]]].
    + apply set_add_app_r. intros H. apply Hout. apply in_app_iff. auto.
    + rewrite Forall_forall in *. intros i Hi. apply set_add_In in Hi.
      destruct Hi as [->|Hi]; auto.
Qed.

Lemma set_delete_app x (E N : list Z) :
  set_delete x (E ++ N) = set_delete x E ++ set_delete x N.
Proof. unfold set_delete. apply filter_app. Qed.

Lemma dirty_delete_sound done dt x :
  dirty_sound g done dt -> dirty_sound g done (set_delete x dt).
Proof.
  intros [Hm (E & N & -> & HE & HN & Hd)]. split.
  - intros i Hi. apply set_delete_In in Hi. apply Hm. tauto.
  - exists (set_delete x E), (set_delete x N).
    split; [apply set_delete_app|].
    split; [|split].
    + rewrite Forall_forall in *. intros i Hi. apply set_delete_In in Hi.
      apply HE. tauto.
    + rewrite Forall_forall in *. intros i Hi. apply set_delete_In in Hi.
      apply HN. tauto.
    + intros H. apply Hd. intros E0. apply H. rewrite E0. reflexivity.
Qed.

(** The first dirty cell gives its final step and leaves [dirty] *)
Lemma dirty_final_sound done dt x :
  dirty_sound g done dt -> set_first dt = Some x ->
  dirty_sound g (x :: done) (set_delete x dt).
Proof.
  intros [Hm (E & N & -> & HE & HN & Hd)] Hx. split.
  - intros i Hi. apply set_delete_In in Hi. destruct Hi as [Hi Hne].
    destruct (Hm i Hi) as [Hon Hnd]. split; auto.
    intros [H|H]; [congruence | contradiction].
  - exists (set_delete x E), (set_delete x N).
    split; [apply set_delete_app|].
    split; [|split].
    + rewrite Forall_forall in *. intros i Hi. apply set_delete_In in Hi.
      apply HE. tauto.
    + rewrite Forall_forall in *. intros i Hi. apply set_delete_In in Hi.
      apply HN. tauto.
    + intros H. destruct E as [|e E']; [exfalso; apply H; reflexivity|].
      simpl in Hx. injection Hx as ->.
      intros i [<-|Hi].
      * inversion HE; subst; auto.
      * apply Hd; [discriminate | exact Hi].
Qed.

(** The first dirty cell is empty only while no other cell is final *)
Lemma dirty_first_empty done dt x :
  dirty_sound g done dt -> set_first dt = Some x -> In x (emptyCells g) ->
  incl done (emptyCells g).
Proof.
  intros [Hm (E & N & -> & HE & HN & Hd)] Hx He.
  destruct E as [|e E']; [|apply Hd; discriminate].
  simpl in Hx. destruct N as [|n N']; [discriminate|].
  simpl in Hx. injection Hx as ->. inversion HN; subst. contradiction.
Qed.

Lemma dirty_first_In (dt : list Z) x : set_first dt = Some x -> In x dt.
Proof. destruct dt; [discriminate|]. simpl. intros H. injection H as ->. now left. Qed.

End Views.


(* ================================================================== *)
(** ** The components *)

Lemma nth_list_set_other {A} r r' (v d : A) h :
  r' <> r -> nth r' (list_set r v h) d = nth r' h d.
Proof.
  revert r' h. induction r as [|r IH]; intros [|r'] [|x h] Hne; simpl; auto;
    try congruence.
Qed.

Lemma nth_member_valid {A} (m : A) r (hp : list (list A)) :
  In m (nth r hp []) -> (r < length hp)%nat.
Proof.
  intros H. destruct (Nat.lt_ge_cases r (length hp)); auto.
  rewrite nth_overflow in H by lia. contradiction.
Qed.

Section Components.

Variable g : Grid.

Lemma comp_alloc done cs hp idx :
  components_sound g done cs hp -> map_get idx cs = None ->
  on_board g idx -> ~ In idx done -> ~ In idx (emptyCells g) ->
  components_sound g done (map_set idx (length hp) cs) (hp ++ [[idx]]).
Proof.
  intros [H1 H2] Hn Hon Hd He. split.
  - intros m r Hm. destruct (Z.eq_dec m idx) as [->|Hne].
    + rewrite map_get_set_same in Hm. injection Hm as <-.
      rewrite nth_middle. split; [now left|]. split; [exact Hon|].
      split; [exact Hd | exact He].
    + rewrite map_get_set_other in Hm by auto.
      destruct (H1 m r Hm) as (A & B). split; auto.
      rewrite app_nth1; auto. eapply nth_member_valid; eauto.
  - intros j r m Hj Hin.
    destruct (Nat.lt_trichotomy r (length hp)) as [Hlt|[->|Hgt]].
    + rewrite app_nth1 in Hin by auto.
      assert (Hj' : map_get j cs = Some r).
      { destruct (Z.eq_dec j idx) as [->|Hne].
        - rewrite map_get_set_same in Hj. injection Hj as <-. lia.
        - now rewrite map_get_set_other in Hj. }
      pose proof (H2 j r m Hj' Hin) as Hm.
      rewrite map_get_set_other; auto. intros ->. congruence.
    + rewrite nth_middle in Hin. destruct Hin as [<-|[]].
      apply map_get_set_same.
    + rewrite nth_overflow in Hin; [contradiction|].
      rewrite length_app. simpl. lia.
Qed.

Lemma merging_start done cs hp idx n r0 r1 :
  components_sound g done cs hp ->
  map_get idx cs = Some r0 -> map_get n cs = Some r1 -> r0 <> r1 ->
  merging g done r0 r1 (nth r1 hp []) cs hp
  /\ Forall (fun m => on_board g m /\ ~ In m done /\ ~ In m (emptyCells g))
       (nth r1 hp [])
  /\ ~ In idx (nth r1 hp []).
Proof.
  intros [H1 H2] Hi Hn Hne. split; [|split].
  - split; [exact H1|]. split; [|split; [|split]]; auto.
    + intros j r m Hj _ Hin. eauto.
    + intros j Hj. apply (H1 j r1 Hj).
    + intros m r Hin Hm. left. pose proof (H2 n r1 m Hn Hin). congruence.
  - apply Forall_forall. intros m Hin.
    pose proof (H2 n r1 m Hn Hin) as Hm. apply (H1 m r1 Hm).
  - intros Hin. pose proof (H2 n r1 idx Hn Hin). congruence.
Qed.

Lemma merging_fresh done cs hp idx n r0 :
  components_sound g done cs hp ->
  map_get idx cs = Some r0 -> map_get n cs = None ->
  merging g done r0 (length hp) [n] cs (hp ++ [[n]]).
Proof.
  intros [H1 H2] Hi Hn.
  assert (Hv : forall m r, map_get m cs = Some r -> (r < length hp)%nat).
  { intros m r Hm. destruct (H1 m r Hm) as [A _]. eapply nth_member_valid; eauto. }
  split; [|split; [|split; [|split]]].
  - intros m r Hm. destruct (H1 m r Hm) as (A & B). split; auto.
    rewrite app_nth1; eauto.
  - intros j r m Hj Hne Hin. pose proof (Hv j r Hj).
    rewrite app_nth1 in Hin by auto. eauto.
  - intros j Hj. apply Hv in Hj. lia.
  - intros m r [<-|[]] Hm. congruence.
  - apply Hv in Hi. lia.
Qed.

Lemma merging_step done r0 r1 m rest cs hp :
  merging g done r0 r1 (m :: rest) cs hp ->
  (exists j, map_get j cs = Some r0) ->
  on_board g m -> ~ In m done -> ~ In m (emptyCells g) ->
  merging g done r0 r1 rest (map_set m r0 cs)
    (list_set r0 (set_add m (nth r0 hp [])) hp).
Proof.
  intros (A & B & C & D & Hne) [j0 Hj0] Hon Hd He.
  assert (Hv : (r0 < length hp)%nat).
  { destruct (A j0 r0 Hj0) as [H _]. eapply nth_member_valid; eauto. }
  assert (N0 : nth r0 (list_set r0 (set_add m (nth r0 hp [])) hp) []
               = set_add m (nth r0 hp [])) by now apply nth_list_set.
  assert (N1 : forall r, r <> r0 ->
            nth r (list_set r0 (set_add m (nth r0 hp [])) hp) [] = nth r hp [])
    by (intros r Hr; now apply nth_list_set_other).
  split; [|split; [|split; [|split]]]; auto.
  - intros x r Hx. destruct (Z.eq_dec x m) as [->|Hxm].
    + rewrite map_get_set_same in Hx. injection Hx as <-.
      rewrite N0. split; auto. apply set_add_In. now left.
    + rewrite map_get_set_other in Hx by auto.
      destruct (A x r Hx) as (A1 & A2). split; auto.
      destruct (Nat.eq_dec r r0) as [->|Hr].
      * rewrite N0. apply set_add_In. now right.
      * now rewrite N1.
  - intros j r x Hj Hr Hin.
    destruct (Nat.eq_dec r r0) as [->|Hr0].
    + rewrite N0 in Hin. apply set_add_In in Hin.
      destruct (Z.eq_dec x m) as [->|Hxm]; [apply map_get_set_same|].
      rewrite map_get_set_other by auto.
      destruct Hin as [Hin|Hin]; [contradiction|]. eauto.
    + rewrite N1 in Hin by auto.
      assert (Hj' : map_get j cs = Some r).
      { destruct (Z.eq_dec j m) as [->|Hjm].
        - rewrite map_get_set_same in Hj. congruence.
        - now rewrite map_get_set_other in Hj. }
      pose proof (B j r x Hj' Hr Hin) as Hx.
      destruct (Z.eq_dec x m) as [->|Hxm].
      * destruct (D m r (or_introl eq_refl) Hx); congruence.
      * now rewrite map_get_set_other.
  - intros j Hj. destruct (Z.eq_dec j m) as [->|Hjm].
    + rewrite map_get_set_same in Hj. congruence.
    + rewrite map_get_set_other in Hj by auto.
      destruct (C j Hj) as [E|Hin]; [congruence | exact Hin].
  - intros x r Hin Hx. destruct (Z.eq_dec x m) as [->|Hxm].
    + rewrite map_get_set_same in Hx. right. congruence.
    + rewrite map_get_set_other in Hx by auto. apply (D x r); auto. now right.
Qed.

Lemma merging_end done r0 r1 cs hp :
  merging g done r0 r1 [] cs hp -> components_sound g done cs hp.
Proof.
  intros (A & B & C & D & Hne). split; auto.
  intros j r m Hj Hin. destruct (Nat.eq_dec r r1) as [->|Hr].
  - destruct (C j Hj).
  - eauto.
Qed.

Lemma comp_leave done cs hp idx :
  components_sound g done cs hp ->
  components_sound g (idx :: done) (map_delete idx cs)
    (match map_get idx cs with
     | Some r => list_set r (set_delete idx (nth r hp [])) hp
     | None => hp
     end).
Proof.
  intros [H1 H2].
  set (hp' := match map_get idx cs with
              | Some r => list_set r (set_delete idx (nth r hp [])) hp
              | None => hp
              end).
  assert (Hn : forall m r, m <> idx -> map_get m cs = Some r ->
            forall x, In x (nth r hp' []) <-> In x (nth r hp []) /\ x <> idx).
  { intros m r Hne Hm x. unfold hp'.
    assert (Hx : In x (nth r hp []) -> x = idx -> map_get idx cs = Some r)
      by (intros Hin ->; eauto).
    destruct (map_get idx cs) as [ri|] eqn:Ei.
    - destruct (Nat.eq_dec r ri) as [->|Hr].
      + rewrite nth_list_set.
        * apply set_delete_In.
        * destruct (H1 m ri Hm) as [A _]. eapply nth_member_valid; eauto.
      + rewrite nth_list_set_other by auto. split; [|tauto].
        intros Hin. split; auto. intros E. specialize (Hx Hin E). congruence.
    - split; [|tauto]. intros Hin. split; auto. intros E.
      specialize (Hx Hin E). congruence. }
  split.
  - intros m r Hm. destruct (Z.eq_dec m idx) as [->|Hne].
    + rewrite map_get_delete_same in Hm. discriminate.
    + rewrite map_get_delete_other in Hm by auto.
      destruct (H1 m r Hm) as (A & B & C & D).
      split; [apply (Hn m r Hne Hm); auto|]. split; auto. split; auto.
      intros [E|E]; [congruence | contradiction].
  - intros j r m Hj Hin. destruct (Z.eq_dec j idx) as [->|Hne].
    + rewrite map_get_delete_same in Hj. discriminate.
    + rewrite map_get_delete_other in Hj by auto.
      apply (Hn j r Hne Hj) in Hin. destruct Hin as [Hin Hm].
      rewrite map_get_delete_other by auto. eauto.
Qed.

End Components.


(* ================================================================== *)
(** ** The steps of a round, one call at a time *)

Lemma cell_sound_filtered full c c' :
  cell_sound full c -> filtered c c' -> cell_sound full c'.
Proof.
  intros (Hw & Hc & Hd & Hp) (Ew & Ec & Ep). rewrite <- Ew, <- Ec in *.
  repeat split; try apply Hw; try apply Hc; auto.
  rewrite Forall_forall in *. intros o Ho. apply Hp, Ep, Ho.
Qed.

Lemma claimed_filtered c c' d : filtered c c' -> (claimed c' d <-> claimed c d).
Proof. intros (Ew & Ec & _). unfold claimed. now rewrite Ew, Ec. Qed.

Section Calls.

Variable g : Grid.
Variable tl : list Z.
Variable fuel : nat.
Hypothesis Hb : board_ok g tl.

Lemma getCell_eq idx s :
  getCell g fuel idx s
  = match map_get idx (unsolved s) with
    | Some c => (Ret c, s)
    | None =>
        match new_Cell fuel (rotate g) (fullyConnected g) idx
                (array_get (tiles s) idx) with
        | None => (Beyond, s)
        | Some c0 =>
            let c := fst (doLocalDeductions_cell g (tiles s) idx c0) in
            let d := snd (doLocalDeductions_cell g (tiles s) idx c0) in
            (Ret c,
             mkSolver (tiles s) (map_set idx c (map_set idx c0 (unsolved s)))
               (components s) (heap s) (solution s) (solutions s)
               (if d then set_add idx (dirty s) else dirty s))
        end
    end.
Proof.
  unfold getCell. monad_unfold.
  destruct (map_get idx (unsolved s)) as [c|] eqn:E; [reflexivity|].
  destruct (new_Cell fuel (rotate g) (fullyConnected g) idx (array_get (tiles s) idx))
    as [c0|]; [|reflexivity].
  unfold doLocalDeductions. monad_unfold. cbn [unsolved set_unsolved tiles].
  rewrite map_get_set_same.
  destruct (doLocalDeductions_cell g (tiles s) idx c0) as [c' d].
  cbn [unsolved set_unsolved fst snd]. rewrite map_get_set_same.
  destruct d; cbn [unsolved set_unsolved set_dirty dirty];
    rewrite map_get_set_same; reflexivity.
Qed.

(** The pending marks that are answered, or that lead nowhere, can be
    dropped *)
Lemma core_discharge (P Q : Z -> Z -> Prop) done s :
  pass_core g tl P done s ->
  (forall i d, P i d ->
     Q i d
     \/ forall n e, find_neighbour g i d = (n, false) -> OPPOSITE g d = Some e ->
          answered done (unsolved s) n e) ->
  pass_core g tl Q done s.
Proof.
  intros [H1 H2 H3 H4 H5] HPQ. constructor; auto.
  intros i c d n e Hi Hd Hc Hn Ho.
  destruct (H4 i c d n e Hi Hd Hc Hn Ho) as [HP|HA]; auto.
  destruct (HPQ i d HP) as [HQ|HA]; auto.
Qed.

Lemma getCell_core P done idx x s c s' :
  pass_core g tl P done s ->
  on_board g x -> ~ In x done -> (~ In x (emptyCells g) \/ In x (dirty s)) ->
  getCell g fuel x s = (Ret c, s') ->
  pass_core g tl P done s' /\ carried idx s s'
  /\ map_get x (unsolved s') = Some c
  /\ components s' = components s /\ heap s' = heap s.
Proof.
  intros [H1 H2 H3 H4 H5] Hon Hnd Hx H. rewrite getCell_eq in H.
  destruct (map_get x (unsolved s)) as [c1|] eqn:E.
  { injection H as <- <-. split; [constructor; auto|].
    split; [apply carried_refl|]. auto. }
  destruct (new_Cell fuel (rotate g) (fullyConnected g) x (array_get (tiles s) x))
    as [c0|] eqn:En; [|discriminate].
  cbv zeta in H. injection H as <- <-.
  rewrite H1 in En |- *.
  destruct (fresh_cell g tl Hb fuel x c0 Hon En) as (Fs & Fc & Fe).
  set (c := fst (doLocalDeductions_cell g tl x c0)) in *.
  set (u' := map_set x c (map_set x c0 (unsolved s))).
  assert (Hother : forall k, k <> x -> map_get k u' = map_get k (unsolved s)).
  { intros k Hk. unfold u'. now rewrite !map_get_set_other. }
  assert (Hsame : map_get x u' = Some c) by apply map_get_set_same.
  destruct (cells_update g P P done (unsolved s) u' x c H3 H4 H5 Hother Hsame
              Hon Fs Fe) as (C1 & C2 & C3 & C4).
  { intros c1 Hc1. congruence. }
  { auto. }
  { intros d n e Hd Hc Hn Ho. specialize (Fc d Hd Hc). rewrite Hn in Fc.
    discriminate. }
  split; [|split; [|split]]; cbn [unsolved components heap dirty tiles]; auto.
  - constructor; cbn [unsolved components heap dirty tiles]; auto.
    destruct (snd (doLocalDeductions_cell g tl x c0)); auto.
    apply dirty_add_sound; auto.
  - split; [exact C4|]. split; [|auto]. cbn [unsolved].
    intros c1 Hc1. destruct (Z.eq_dec idx x) as [->|Hne]; [congruence|].
    exists c1. split; auto. now rewrite Hother.
Qed.

(** A filter on the orientations of a cell *)
Lemma filter_core P done x c0 c1 s :
  pass_core g tl P done s ->
  map_get x (unsolved s) = Some c0 -> filtered c0 c1 ->
  pass_core g tl P done (set_unsolved (map_set x c1 (unsolved s)) s)
  /\ marks_grow s (set_unsolved (map_set x c1 (unsolved s)) s).
Proof.
  intros [H1 H2 H3 H4 H5] Hx Hf.
  destruct (H3 x c0 Hx) as (Hon & Hs & He).
  destruct (cells_update g P P done (unsolved s) (map_set x c1 (unsolved s)) x c1
              H3 H4 H5) as (C1 & C2 & C3 & C4); auto.
  - intros k Hk. now apply map_get_set_other.
  - apply map_get_set_same.
  - eapply cell_sound_filtered; eauto.
  - intros Hem. destruct (He Hem) as [E0 Hp]. destruct Hf as (_ & Ec & Ep).
    split; [congruence|]. rewrite Forall_forall in *. intros o Ho. apply Hp, Ep, Ho.
  - intros c2 Hc2 d Hd. assert (c2 = c0) by congruence. subst.
    now apply (claimed_filtered c0 c1).
  - intros d n e Hd Hc Hn Ho. left. exists c0. split; auto.
    now apply (claimed_filtered c0 c1).
  - split; [constructor; auto|exact C4].
Qed.

Lemma dirty_core P done x s :
  pass_core g tl P done s ->
  on_board g x -> ~ In x done -> (~ In x (emptyCells g) \/ In x (dirty s)) ->
  pass_core g tl P done (set_dirty (set_add x (dirty s)) s).
Proof.
  intros [H1 H2 H3 H4 H5] Hon Hnd Hx. constructor; auto.
  cbn [dirty set_dirty]. now apply dirty_add_sound.
Qed.

Lemma delta_claimed_grow idx aW aC s s' :
  marks_grow s s' -> delta_claimed g idx aW aC s -> delta_claimed g idx aW aC s'.
Proof.
  intros Hg (c & Hc & Hd). destruct (Hg idx c Hc) as (c' & Hc' & Hgrow).
  exists c'. split; auto.
Qed.

End Calls.


(* ================================================================== *)
(** ** The marks sent to the neighbours *)

Ltac monad_unfold_in H :=
  unfold heap_update, heap_alloc, dirty_add, update_cell in H;
  unfold bind, ret, raise, beyond, gets, modify in H;
  cbv beta iota in H.

Section Sending.

Variable g : Grid.
Variable tl : list Z.
Variable fuel : nat.
Hypothesis Hb : board_ok g tl.

(** The cell [n], reached from [idx] in the direction [d], marks the
    opposite direction: [f] is [addWall] or [addConnection] of it *)
Lemma mark_core P done idx d n e cn (f : Cell -> Cell) s :
  pass_core g tl P done s ->
  on_board g idx -> In d (DIRECTIONS g) ->
  find_neighbour g idx d = (n, false) -> OPPOSITE g d = Some e ->
  map_get n (unsolved s) = Some cn ->
  (exists ci, map_get idx (unsolved s) = Some ci /\ claimed ci d) ->
  (cell_sound (fullyConnected g n) cn ->
   cell_sound (fullyConnected g n) (f cn)
   /\ possible (f cn) = possible cn
   /\ claimed (f cn) e
   /\ (forall x, claimed cn x -> claimed (f cn) x)
   /\ (forall j, 0 <= j -> 2 ^ j <> e -> claimed (f cn) (2 ^ j) -> claimed cn (2 ^ j))) ->
  let s' := set_unsolved (map_set n (f cn) (unsolved s)) s in
  pass_core g tl P done s'
  /\ marks_grow s s'
  /\ answered done (unsolved s') n e
  /\ (forall k c, map_get k (unsolved s) = Some c ->
        exists c', map_get k (unsolved s') = Some c' /\ possible c' = possible c).
Proof.
  intros [H1 H2 H3 H4 H5] Hidx Hd Hn Ho Hcn (ci & Hci & Hcid) Hf s'.
  destruct (bo_edge g tl Hb idx d n Hidx Hd Hn)
    as (Hon & Hne & Hfd & e' & Ho' & He & Hfe & Hback & Hoe).
  assert (e' = e) by congruence. subst e'.
  destruct (H3 n cn Hcn) as (_ & Hs & _).
  destruct (Hf Hs) as (Fs & Fp & Fe & Fg & Fo).
  assert (Hother : forall k, k <> n ->
            map_get k (map_set n (f cn) (unsolved s)) = map_get k (unsolved s))
    by (intros k Hk; now apply map_get_set_other).
  assert (Hsame : map_get n (map_set n (f cn) (unsolved s)) = Some (f cn))
    by apply map_get_set_same.
  destruct (cells_update g P P done (unsolved s) (map_set n (f cn) (unsolved s))
              n (f cn) H3 H4 H5 Hother Hsame Hon Fs) as (C1 & C2 & C3 & C4).
  { intros Hem. contradiction. }
  { intros c0 Hc0 x Hx. assert (c0 = cn) by congruence. subst. auto. }
  { auto. }
  { intros x n' e' Hx Hcx Hn' Hox.
    destruct (dir_bit g tl Hb x Hx) as (j & Hj & ->).
    destruct (Z.eq_dec (2 ^ j) e) as [E|E].
    - right. right. rewrite E in *. rewrite Hback in Hn'.
      injection Hn' as <- _. assert (e' = d) by congruence. subst e'.
      right. destruct (Z.eq_dec idx n) as [->|Hin].
      + exists (f cn). split; auto. apply Fg. congruence.
      + exists ci. split; auto. now rewrite Hother.
    - left. exists cn. split; auto. apply Fo; auto. lia. }
  split; [constructor; auto|]. split; [exact C4|]. split.
  - right. exists (f cn). auto.
  - intros k c Hk. destruct (Z.eq_dec k n) as [->|Hkn].
    + exists (f cn). split; auto. congruence.
    + exists c. split; auto. cbn [unsolved set_unsolved s']. now rewrite Hother.
Qed.

Variable done : list Z.
Variables idx addedWalls addedConnections : Z.
Hypothesis Hidx : on_board g idx.
Hypothesis Hopen : targets_open g done idx addedWalls addedConnections.

#[local] Abbreviation wall_body :=
  (fun direction : Z =>
     if 0 <? band direction addedWalls then
       let '(neighbour, empty) := find_neighbour g idx direction in
       if empty then ret tt
       else
         getCell g fuel neighbour ;;;
         update_cell neighbour (addWall (opposite_or_0 g direction)) ;;;
         dirty_add neighbour
     else ret tt).

(** The loop of lines 418-429 *)
Lemma walls_loop l : forall s s',
  NoDup l -> incl l (DIRECTIONS g) ->
  pass_core g tl (pending_walls idx addedWalls addedConnections l) done s ->
  delta_claimed g idx addedWalls addedConnections s ->
  forM_ l wall_body s = (Ret tt, s') ->
  pass_core g tl (pending_walls idx addedWalls addedConnections []) done s'
  /\ delta_claimed g idx addedWalls addedConnections s'
  /\ carried idx s s'
  /\ components s' = components s /\ heap s' = heap s.
Proof.
  induction l as [|d l IH]; intros s s' Hnd Hl Hc Hdc H.
  { simpl in H. unfold ret in H. injection H as <-.
    split; auto. split; auto. split; [apply carried_refl|auto]. }
  inversion Hnd as [|? ? Hnotin Hnd']; subst.
  assert (Hd : In d (DIRECTIONS g)) by (apply Hl; now left).
  assert (Hl' : incl l (DIRECTIONS g)) by (intros x Hx; apply Hl; now right).
  cbn [forM_] in H. unfold bind at 1 in H.
  destruct (wall_body d s) as [[[]|e0|] s1] eqn:E1; try discriminate.
  assert (Hstep :
    pass_core g tl (pending_walls idx addedWalls addedConnections l) done s1
    /\ delta_claimed g idx addedWalls addedConnections s1
    /\ carried idx s s1
    /\ components s1 = components s /\ heap s1 = heap s).
  { cbv beta in E1.
    destruct (0 <? band d addedWalls) eqn:Ew.
    2:{ unfold ret in E1. injection E1 as <-.
        split; [|split; [auto|split; [apply carried_refl|auto]]].
        apply (core_discharge g tl _ _ done s Hc).
        intros i x (-> & [[[<-|Hx] Hw]|Hx]); left; split; auto; congruence. }
    destruct (find_neighbour g idx d) as [n empty] eqn:En.
    destruct empty.
    { unfold ret in E1. injection E1 as <-.
      split; [|split; [auto|split; [apply carried_refl|auto]]].
      apply (core_discharge g tl _ _ done s Hc).
      intros i x (-> & [[[<-|Hx] Hw]|Hx]).
      - right. intros n0 e Hn0. congruence.
      - left. split; auto.
      - left. split; auto. }
    destruct (bo_edge g tl Hb idx d n Hidx Hd En)
      as (Hon & Hne & Hfd & e & Ho & He & Hfe & Hback & Hoe).
    assert (Hnd0 : ~ In n done) by (apply (Hopen d n); auto).
    unfold bind at 1 in E1.
    destruct (getCell g fuel n s) as [[cn|e1|] s2] eqn:Eg; try discriminate.
    destruct (getCell_core g tl fuel Hb _ done idx n s cn s2 Hc Hon Hnd0
                (or_introl Hne) Eg) as (Hc2 & Hcar2 & Hcn & Ecs & Ehp).
    monad_unfold_in E1. rewrite Hcn in E1. injection E1 as <-.
    pose proof (delta_claimed_grow g idx _ _ s s2 (proj1 Hcar2) Hdc) as Hdc2.
    destruct (dir_bit g tl Hb e He) as (ke & Hke & Ee).
    assert (Eopp : opposite_or_0 g d = e) by (unfold opposite_or_0; now rewrite Ho).
    rewrite Eopp.
    destruct Hdc2 as (ci & Hci & Hcid).
    destruct (mark_core _ done idx d n e cn (addWall e) s2 Hc2 Hidx Hd En Ho Hcn)
      as (Hc3 & Hg3 & Han & Hp3).
    { exists ci. split; auto. }
    { intros Hs. subst e.
      destruct (addWall_bit (fullyConnected g n) cn ke
                  (bo_full g tl Hb n Hon) Hs Hke Hfe) as (A1 & A2 & A3 & A4 & A5 & A6).
      split; auto. split; auto. split; auto. split; auto.
      intros j Hj Hne0. apply A6; auto. intros ->. congruence. }
    set (s3 := set_unsolved (map_set n (addWall e cn) (unsolved s2)) s2) in *.
    assert (Hc4 : pass_core g tl (pending_walls idx addedWalls addedConnections l)
                    done s3).
    { apply (core_discharge g tl _ _ done s3 Hc3).
      intros i x (-> & [[[<-|Hx] Hw]|Hx]).
      - right. intros n0 e0 Hn0 Ho0.
        assert (n0 = n) by congruence. assert (e0 = e) by congruence. subst. auto.
      - left. split; auto.
      - left. split; auto. }
    split; [|split; [|split]].
    - apply (dirty_core g tl _ done n s3); auto.
    - apply (delta_claimed_grow g idx _ _ s2).
      + intros k c Hk. destruct (Hg3 k c Hk) as (c' & Hk' & Hgr).
        exists c'. split; auto.
      + exists ci. split; auto.
    - eapply carried_trans; [exact Hcar2|].
      split; [|split].
      + intros k c Hk. destruct (Hg3 k c Hk) as (c' & Hk' & Hgr).
        exists c'. split; auto.
      + intros c Hk. destruct (Hp3 idx c Hk) as (c' & Hk' & Ep).
        exists c'. split; auto.
      + auto.
    - cbn [components heap set_dirty set_unsolved s3]. auto. }
  destruct Hstep as (S1 & S2 & S3 & S4 & S5).
  destruct (IH s1 s' Hnd' Hl' S1 S2 H) as (R1 & R2 & R3 & R4 & R5).
  split; auto. split; auto. split; [eapply carried_trans; eauto|].
  split; congruence.
Qed.

End Sending.


(* ================================================================== *)
(** ** The order of [dirty] *)

Lemma dirty_kept_refl s : dirty_kept s s.
Proof. exists []. now rewrite app_nil_r. Qed.

Lemma dirty_kept_trans s1 s2 s3 :
  dirty_kept s1 s2 -> dirty_kept s2 s3 -> dirty_kept s1 s3.
Proof.
  intros [l1 E1] [l2 E2]. exists (l1 ++ l2). now rewrite E2, E1, app_assoc.
Qed.

Lemma dirty_kept_first s s' x :
  dirty_kept s s' -> set_first (dirty s) = Some x -> set_first (dirty s') = Some x.
Proof.
  intros [l E] H. rewrite E. destruct (dirty s); [discriminate|exact H].
Qed.

Lemma dirty_kept_same s s' : dirty s' = dirty s -> dirty_kept s s'.
Proof. intros E. exists []. now rewrite app_nil_r. Qed.

Lemma dirty_kept_add x s : dirty_kept s (set_dirty (set_add x (dirty s)) s).
Proof.
  cbn [dirty set_dirty]. unfold dirty_kept, set_add.
  destruct (set_has x (dirty s)); [exists []; now rewrite app_nil_r | now exists [x]].
Qed.

Lemma keeps_ret {A} (a : A) : keeps_dirty (ret a).
Proof. intros s r s' H. injection H as _ <-. apply dirty_kept_refl. Qed.

Lemma keeps_raise {A} e : keeps_dirty (@raise A e).
Proof. intros s r s' H. injection H as _ <-. apply dirty_kept_refl. Qed.

Lemma keeps_beyond {A} : keeps_dirty (@beyond A).
Proof. intros s r s' H. injection H as _ <-. apply dirty_kept_refl. Qed.

Lemma keeps_gets {A} (f : Solver -> A) : keeps_dirty (gets f).
Proof. intros s r s' H. injection H as _ <-. apply dirty_kept_refl. Qed.

Lemma keeps_modify f : (forall s, dirty_kept s (f s)) -> keeps_dirty (modify f).
Proof. intros Hf s r s' H. injection H as _ <-. apply Hf. Qed.

Lemma keeps_bind {A B} (m : M A) (k : A -> M B) :
  keeps_dirty m -> (forall a, keeps_dirty (k a)) -> keeps_dirty (bind m k).
Proof.
  intros Hm Hk s r s' H. unfold bind in H.
  destruct (m s) as [[a|e|] s1] eqn:E.
  - eapply dirty_kept_trans; [eapply Hm; eauto | eapply Hk; eauto].
  - injection H as _ <-. eapply Hm; eauto.
  - injection H as _ <-. eapply Hm; eauto.
Qed.

Lemma keeps_forM {A} (f : A -> M unit) l :
  (forall a, keeps_dirty (f a)) -> keeps_dirty (forM_ l f).
Proof.
  intros Hf. induction l as [|a l IH]; cbn [forM_].
  - apply keeps_ret.
  - apply keeps_bind; auto.
Qed.

Lemma keeps_update_cell idx f : keeps_dirty (update_cell idx f).
Proof.
  apply keeps_modify. intros s. apply dirty_kept_same.
  now destruct (map_get idx (unsolved s)).
Qed.

Lemma keeps_dirty_add idx : keeps_dirty (dirty_add idx).
Proof. apply keeps_modify. intros s. apply dirty_kept_add. Qed.

Lemma keeps_heap_update r f : keeps_dirty (heap_update r f).
Proof. apply keeps_modify. intros s. now apply dirty_kept_same. Qed.

Lemma keeps_heap_alloc members : keeps_dirty (heap_alloc members).
Proof. intros s r s' H. injection H as _ <-. now apply dirty_kept_same. Qed.

Section Order.

Variable g : Grid.
Variable fuel : nat.

Lemma keeps_getCell idx : keeps_dirty (getCell g fuel idx).
Proof.
  intros s r s' H. rewrite getCell_eq in H.
  destruct (map_get idx (unsolved s)).
  { injection H as _ <-. apply dirty_kept_refl. }
  destruct (new_Cell _ _ _ _ _).
  2:{ injection H as _ <-. apply dirty_kept_refl. }
  cbv zeta in H. injection H as _ <-.
  destruct (snd (doLocalDeductions_cell g (tiles s) idx c)).
  - apply (dirty_kept_add idx s).
  - now apply dirty_kept_same.
Qed.

Ltac keeps :=
  repeat match goal with
  | |- keeps_dirty (getCell _ _ _) => apply keeps_getCell
  | |- keeps_dirty (ret _) => apply keeps_ret
  | |- keeps_dirty (raise _) => apply keeps_raise
  | |- keeps_dirty beyond => apply keeps_beyond
  | |- keeps_dirty (gets _) => apply keeps_gets
  | |- keeps_dirty (update_cell _ _) => apply keeps_update_cell
  | |- keeps_dirty (dirty_add _) => apply keeps_dirty_add
  | |- keeps_dirty (heap_update _ _) => apply keeps_heap_update
  | |- keeps_dirty (heap_alloc _) => apply keeps_heap_alloc
  | |- keeps_dirty (bind _ _) => apply keeps_bind; [|intros ?]
  | |- keeps_dirty (forM_ _ _) => apply keeps_forM; intros ?
  | |- keeps_dirty (modify _) =>
      apply keeps_modify; intros ?; apply dirty_kept_same; reflexivity
  | |- keeps_dirty (let _ := _ in _) => cbv zeta
  | |- keeps_dirty (if ?b then _ else _) => destruct b
  | |- keeps_dirty (match ?x with Some _ => _ | None => _ end) => destruct x
  | |- keeps_dirty (let '(_, _) := ?x in _) => destruct x
  end.

Lemma keeps_join_member r m : keeps_dirty (join_member g fuel r m).
Proof. unfold join_member. keeps. Qed.

Lemma keeps_mergeComponents idx n : keeps_dirty (mergeComponents g fuel idx n).
Proof. unfold mergeComponents. keeps. apply keeps_join_member. Qed.

Lemma keeps_propagate idx : keeps_dirty (propagate g fuel idx).
Proof.
  unfold propagate, propagate_walls, propagate_connections. keeps.
  apply keeps_mergeComponents.
Qed.

(** X2. A round of [processDirtyCells], however it ends, removes no member
    of [dirty] and keeps their order: the indices it makes dirty are added
    at the end. The cell of the round leaves [dirty] only when the consumer
    asks for the next step (line 465). *)
Lemma keeps_processDirtyCell idx : keeps_dirty (processDirtyCell g fuel idx).
Proof.
  unfold processDirtyCell. apply keeps_bind; [apply keeps_propagate|intros ?].
  unfold settle, leave_component. keeps.
Qed.

End Order.


(* ================================================================== *)
(** ** The connections sent to the neighbours, and the merge of the
       components *)

Section Merging.

Variable g : Grid.
Variable tl : list Z.
Variable fuel : nat.
Hypothesis Hb : board_ok g tl.

(** [pass_core] does not look at the components *)
Lemma core_frame P done s s' :
  tiles s' = tiles s -> dirty s' = dirty s -> unsolved s' = unsolved s ->
  pass_core g tl P done s -> pass_core g tl P done s'.
Proof.
  intros E1 E2 E3 [H1 H2 H3 H4 H5]. constructor; rewrite ?E1, ?E2, ?E3; auto.
Qed.

Lemma marks_grow_same s s' : unsolved s' = unsolved s -> marks_grow s s'.
Proof. intros E i c Hi. exists c. rewrite E. auto. Qed.

(** The body of the loop of [mergeComponents] *)
Lemma join_step P done idx r0 m s s' :
  pass_core g tl P done s ->
  on_board g m -> ~ In m done -> ~ In m (emptyCells g) -> m <> idx ->
  join_member g fuel r0 m s = (Ret tt, s') ->
  pass_core g tl P done s'
  /\ carried idx s s'
  /\ components s' = map_set m r0 (components s)
  /\ heap s' = list_set r0 (set_add m (nth r0 (heap s) [])) (heap s).
Proof.
  intros Hc Hon Hnd Hne Hmi H.
  unfold join_member in H. monad_unfold_in H.
  set (s1 := set_heap _ _) in H.
  assert (Hc1 : pass_core g tl P done s1) by (apply (core_frame P done s s1); auto).
  destruct (getCell g fuel m s1) as [[c|e|] s2] eqn:Eg; try discriminate.
  destruct (getCell_core g tl fuel Hb P done idx m s1 c s2 Hc1 Hon Hnd
              (or_introl Hne) Eg) as (Hc2 & Hcar2 & Hcm & Ecs & Ehp).
  assert (Hcar1 : carried idx s s1).
  { split; [now apply marks_grow_same|]. split.
    - intros c0 Hc0. exists c0. auto.
    - intros r Hr. cbn [components s1 set_heap set_components].
      rewrite map_get_set_other; auto. }
  assert (Ecs1 : components s1 = map_set m r0 (components s)) by reflexivity.
  assert (Ehp1 : heap s1 = list_set r0 (set_add m (nth r0 (heap s) [])) (heap s))
    by reflexivity.
  cbv zeta in H.
  destruct (0 <? forbidden_directions g (heap_get r0 s2) m c).
  2:{ injection H as <-. split; auto. split; [eapply carried_trans; eauto|].
      split; congruence. }
  rewrite Hcm in H. injection H as <-.
  set (c1 := mustHaveAllWalls _ c).
  destruct (filter_core g tl Hb P done m c c1 s2 Hc2 Hcm) as [Hc3 Hg3].
  { apply filtered_delete_where. }
  set (s3 := set_unsolved _ s2) in *.
  split; [|split; [|split]].
  - apply (dirty_core g tl P done m s3); auto.
  - eapply carried_trans; [exact Hcar1|]. eapply carried_trans; [exact Hcar2|].
    split; [|split].
    + intros k c0 Hk. destruct (Hg3 k c0 Hk) as (c' & Hk' & Hgr). exists c'. auto.
    + intros c0 Hc0. exists c0. split; auto. cbn [unsolved set_dirty s3 set_unsolved].
      rewrite map_get_set_other; auto.
    + auto.
  - cbn [components set_dirty s3 set_unsolved]. congruence.
  - cbn [heap set_dirty s3 set_unsolved]. congruence.
Qed.

Lemma join_loop P done idx r0 r1 members : forall s s',
  pass_core g tl P done s ->
  merging g done r0 r1 members (components s) (heap s) ->
  map_get idx (components s) = Some r0 ->
  Forall (fun m => on_board g m /\ ~ In m done /\ ~ In m (emptyCells g)) members ->
  ~ In idx members ->
  forM_ members (join_member g fuel r0) s = (Ret tt, s') ->
  pass_core g tl P done s'
  /\ components_sound g done (components s') (heap s')
  /\ carried idx s s'.
Proof.
  induction members as [|m rest IH]; intros s s' Hc Hm Hi Hall Hni H.
  { injection H as <-. split; auto. split; [|apply carried_refl].
    eapply merging_end; eauto. }
  cbn [forM_] in H. unfold bind at 1 in H.
  destruct (join_member g fuel r0 m s) as [[[]|e|] s1] eqn:Ej; try discriminate.
  inversion Hall as [|? ? (Hon & Hnd & Hne) Hall']; subst.
  assert (Hmi : m <> idx) by (intros ->; apply Hni; now left).
  destruct (join_step P done idx r0 m s s1 Hc Hon Hnd Hne Hmi Ej)
    as (Hc1 & Hcar1 & Ecs & Ehp).
  destruct (IH s1 s') as (R1 & R2 & R3); auto.
  - rewrite Ecs, Ehp. apply merging_step; eauto.
  - now apply (proj2 (proj2 Hcar1)).
  - intros Hin. apply Hni. now right.
  - split; auto. split; auto. eapply carried_trans; eauto.
Qed.

(** [mergeComponents(index, neighbourIndex)] *)
Lemma merge_core P done idx n s s' :
  pass_core g tl P done s ->
  components_sound g done (components s) (heap s) ->
  on_board g n -> ~ In n done -> ~ In n (emptyCells g) ->
  mergeComponents g fuel idx n s = (Ret tt, s') ->
  pass_core g tl P done s'
  /\ components_sound g done (components s') (heap s')
  /\ carried idx s s'.
Proof.
  intros Hc Hs Hon Hnd Hne H.
  unfold mergeComponents in H. monad_unfold_in H.
  destruct (map_get idx (components s)) as [r0|] eqn:Ei; [|discriminate].
  destruct (map_get n (components s)) as [r1|] eqn:En.
  - destruct (Nat.eqb r0 r1) eqn:Er; [discriminate|].
    apply Nat.eqb_neq in Er.
    destruct (merging_start g done _ _ idx n r0 r1 Hs Ei En Er) as (Hm & Hall & Hni).
    apply (join_loop P done idx r0 r1 (heap_get r1 s) s s'); auto.
  - destruct (Nat.eqb r0 (length (heap s))) eqn:Er; [discriminate|].
    set (s1 := set_heap (heap s ++ [[n]]) s) in *.
    assert (Em : heap_get (length (heap s)) s1 = [n]).
    { unfold heap_get. cbn [heap s1 set_heap]. apply nth_middle. }
    rewrite Em in H.
    assert (Hc1 : pass_core g tl P done s1) by (apply (core_frame P done s s1); auto).
    assert (Hm1 : merging g done r0 (length (heap s)) [n] (components s1) (heap s1))
      by (cbn [components heap s1 set_heap];
          now apply (merging_fresh g done _ _ idx n r0)).
    assert (Hall : Forall (fun m => on_board g m /\ ~ In m done /\ ~ In m (emptyCells g))
                     [n]) by (constructor; auto).
    assert (Hni : ~ In idx [n]) by (intros [->|[]]; congruence).
    destruct (join_loop P done idx r0 (length (heap s)) [n] s1 s' Hc1 Hm1 Ei Hall
                Hni H) as (R1 & R2 & R3).
    split; [exact R1|]. split; [exact R2|].
    eapply carried_trans; [|exact R3].
    split; [now apply marks_grow_same|]. split.
    + intros c Hc0. exists c. auto.
    + auto.
Qed.

End Merging.

Section Connecting.

Variable g : Grid.
Variable tl : list Z.
Variable fuel : nat.
Hypothesis Hb : board_ok g tl.
Variable done : list Z.
Variables idx addedWalls addedConnections : Z.
Hypothesis Hidx : on_board g idx.
Hypothesis Hopen : targets_open g done idx addedWalls addedConnections.

#[local] Abbreviation conn_body :=
  (fun direction : Z =>
     if 0 <? band direction addedConnections then
       let '(neighbour, empty) := find_neighbour g idx direction in
       if empty then raise ConnectToEmpty
       else
         getCell g fuel neighbour ;;;
         update_cell neighbour (addConnection (opposite_or_0 g direction)) ;;;
         mergeComponents g fuel idx neighbour ;;;
         dirty_add neighbour
     else ret tt).

(** The loop of lines 433-445 *)
Lemma connections_loop l : forall s s',
  NoDup l -> incl l (DIRECTIONS g) ->
  pass_core g tl (pending_connections idx addedConnections l) done s ->
  components_sound g done (components s) (heap s) ->
  delta_claimed g idx addedWalls addedConnections s ->
  forM_ l conn_body s = (Ret tt, s') ->
  pass_core g tl (pending_connections idx addedConnections []) done s'
  /\ components_sound g done (components s') (heap s')
  /\ carried idx s s'.
Proof.
  induction l as [|d l IH]; intros s s' Hnd Hl Hc Hs Hdc H.
  { simpl in H. unfold ret in H. injection H as <-.
    split; auto. split; [auto|apply carried_refl]. }
  inversion Hnd as [|? ? Hnotin Hnd']; subst.
  assert (Hd : In d (DIRECTIONS g)) by (apply Hl; now left).
  assert (Hl' : incl l (DIRECTIONS g)) by (intros x Hx; apply Hl; now right).
  cbn [forM_] in H. unfold bind at 1 in H.
  destruct (conn_body d s) as [[[]|e0|] s1] eqn:E1; try discriminate.
  assert (Hstep :
    pass_core g tl (pending_connections idx addedConnections l) done s1
    /\ components_sound g done (components s1) (heap s1)
    /\ carried idx s s1).
  { cbv beta in E1.
    destruct (0 <? band d addedConnections) eqn:Ew.
    2:{ unfold ret in E1. injection E1 as <-.
        split; [|split; [auto|apply carried_refl]].
        apply (core_discharge g tl _ _ done s Hc).
        intros i x (-> & [<-|Hx] & Hw); left; split; auto; congruence. }
    destruct (find_neighbour g idx d) as [n empty] eqn:En.
    destruct empty; [discriminate|].
    destruct (bo_edge g tl Hb idx d n Hidx Hd En)
      as (Hon & Hne & Hfd & e & Ho & He & Hfe & Hback & Hoe).
    assert (Hnd0 : ~ In n done) by (apply (Hopen d n); auto).
    unfold bind at 1 in E1.
    destruct (getCell g fuel n s) as [[cn|e1|] s2] eqn:Eg; try discriminate.
    destruct (getCell_core g tl fuel Hb _ done idx n s cn s2 Hc Hon Hnd0
                (or_introl Hne) Eg) as (Hc2 & Hcar2 & Hcn & Ecs & Ehp).
    unfold bind at 1 in E1. unfold update_cell at 1, modify at 1 in E1.
    rewrite Hcn in E1.
    pose proof (delta_claimed_grow g idx _ _ s s2 (proj1 Hcar2) Hdc) as Hdc2.
    destruct (dir_bit g tl Hb e He) as (ke & Hke & Ee).
    assert (Eopp : opposite_or_0 g d = e) by (unfold opposite_or_0; now rewrite Ho).
    rewrite Eopp in E1.
    destruct Hdc2 as (ci & Hci & Hcid).
    destruct (mark_core g tl Hb _ done idx d n e cn (addConnection e) s2 Hc2 Hidx Hd
                En Ho Hcn) as (Hc3 & Hg3 & Han & Hp3).
    { exists ci. split; auto. }
    { intros Hsd. subst e.
      destruct (addConnection_bit (fullyConnected g n) cn ke
                  (bo_full g tl Hb n Hon) Hsd Hke Hfe) as (A1 & A2 & A3 & A4 & A5).
      split; auto. split; auto. split; auto. split; auto.
      intros j Hj Hne0. apply A5; auto. intros ->. congruence. }
    set (s3 := set_unsolved (map_set n (addConnection e cn) (unsolved s2)) s2) in *.
    assert (Hc4 : pass_core g tl (pending_connections idx addedConnections l)
                    done s3).
    { apply (core_discharge g tl _ _ done s3 Hc3).
      intros i x (-> & [<-|Hx] & Hw).
      - right. intros n0 e0 Hn0 Ho0.
        assert (n0 = n) by congruence. assert (e0 = e) by congruence. subst. auto.
      - left. split; auto. }
    assert (Hs3 : components_sound g done (components s3) (heap s3)).
    { cbn [components heap s3 set_unsolved]. now rewrite Ecs, Ehp. }
    unfold bind at 1 in E1.
    destruct (mergeComponents g fuel idx n s3) as [[[]|e1|] s4] eqn:Em;
      try discriminate.
    destruct (merge_core g tl fuel Hb _ done idx n s3 s4 Hc4 Hs3 Hon Hnd0 Hne Em)
      as (Hc5 & Hs5 & Hcar5).
    monad_unfold_in E1. injection E1 as <-.
    split; [|split].
    - apply (dirty_core g tl _ done n s4); auto.
    - exact Hs5.
    - eapply carried_trans; [exact Hcar2|].
      eapply carried_trans; [|eapply carried_trans; [exact Hcar5|]].
      + split; [|split].
        * intros k c Hk. destruct (Hg3 k c Hk) as (c' & Hk' & Hgr).
          exists c'. split; auto.
        * intros c Hk. destruct (Hp3 idx c Hk) as (c' & Hk' & Ep).
          exists c'. split; auto.
        * auto.
      + split; [now apply marks_grow_same|]. split.
        * intros c Hk. exists c. auto.
        * auto. }
  destruct Hstep as (S1 & S2 & S3).
  destruct (IH s1 s' Hnd' Hl' S1 S2) as (R1 & R2 & R3); auto.
  - eapply delta_claimed_grow; [exact (proj1 S3)|exact Hdc].
  - split; auto. split; auto. eapply carried_trans; eauto.
Qed.

End Connecting.


(* ================================================================== *)
(** ** A round of [processDirtyCells] *)

Lemma band_0_r d : band d 0 = 0.
Proof. unfold band. replace (toInt32 0) with 0 by reflexivity. apply Z.land_0_r. Qed.

Lemma claimed_keeps c c' d :
  keeps_bits (walls c') (walls c) -> keeps_bits (connections c') (connections c) ->
  claimed c d -> claimed c' d.
Proof.
  unfold keeps_bits, claimed. intros Hw Hc [H|H]; [left|right]; intros E; apply H.
  - rewrite <- Hw, <- Z.land_assoc, E. apply Z.land_0_r.
  - rewrite <- Hc, <- Z.land_assoc, E. apply Z.land_0_r.
Qed.

Lemma not_positive x : int31 x -> (0 <? x) = false -> x = 0.
Proof. intros [H _] E. apply Z.ltb_ge in E. lia. Qed.

Section Round.

Variable g : Grid.
Variable tl : list Z.
Variable fuel : nat.
Hypothesis Hb : board_ok g tl.

(** Pending marks matter in the directions of the grid only *)
Lemma core_weaken (P Q : Z -> Z -> Prop) done s :
  pass_core g tl P done s ->
  (forall i d, In d (DIRECTIONS g) -> P i d -> Q i d) ->
  pass_core g tl Q done s.
Proof.
  intros [H1 H2 H3 H4 H5] HPQ. constructor; auto.
  intros i c d n e Hi Hd Hc Hn Ho.
  destruct (H4 i c d n e Hi Hd Hc Hn Ho) as [HP|HA]; auto.
Qed.

(** The cell of a round is on the board and has not given its final step *)
Lemma first_open P done idx s :
  pass_core g tl P done s -> set_first (dirty s) = Some idx ->
  on_board g idx /\ ~ In idx done /\ In idx (dirty s).
Proof.
  intros Hc Hf. pose proof (dirty_first_In _ _ Hf) as Hin.
  destruct (proj1 (pi_dirty g tl P done s Hc) idx Hin). auto.
Qed.

(** No neighbour that the round is going to touch has given its final step *)
Lemma round_targets done idx s c0 c' aW aC :
  pass_core g tl settled_marks done s ->
  set_first (dirty s) = Some idx ->
  forall sA, pass_core g tl settled_marks done sA ->
  map_get idx (unsolved sA) = Some c0 ->
  applyConstraints (fullyConnected g idx) c0 = (c', Some (aW, aC)) ->
  targets_open g done idx aW aC.
Proof.
  intros Hc Hf sA HcA Hc0 Ha d n Hd Hbits Hn Hdone.
  destruct (first_open _ done idx s Hc Hf) as (Hidx & Hnd & Hin).
  destruct (bo_edge g tl Hb idx d n Hidx Hd Hn)
    as (Hon & Hne & Hfd & e & Ho & He & Hfe & Hback & Hoe).
  destruct (pi_cells g tl _ done sA HcA idx c0 Hc0) as (_ & Hs0 & _).
  destruct (dir_bit g tl Hb d Hd) as (k & Hk & ->).
  destruct (applied_bits (fullyConnected g idx) c0 c' aW aC k
              (bo_full g tl Hb idx Hidx) Hs0 Ha Hk) as (_ & _ & B3 & _).
  destruct (B3 Hbits) as [_ Hnot].
  destruct (set_has idx (emptyCells g)) eqn:Ee.
  - apply set_has_In in Ee.
    apply Hne. apply (dirty_first_empty g done (dirty s) idx); auto.
    apply (pi_dirty g tl _ done s Hc).
  - destruct (pi_done g tl _ done sA HcA n e idx (2 ^ k) Hdone Hne He Hback Hoe)
      as [Hd'|(c & Hc1 & Hcl)].
    + contradiction.
    + apply Hnot. congruence.
Qed.

(** Lines 400-446 *)
Lemma propagate_round done idx s s1 :
  pass_inv g tl settled_marks done s ->
  set_first (dirty s) = Some idx ->
  propagate g fuel idx s = (Ret tt, s1) ->
  pass_inv g tl settled_marks done s1
  /\ exists c, map_get idx (unsolved s1) = Some c
       /\ (set_size (possible c) = 1 ->
           forall d n, In d (DIRECTIONS g) -> find_neighbour g idx d = (n, false) ->
             claimed c d).
Proof.
  intros [Hc Hs] Hf H.
  destruct (first_open _ done idx s Hc Hf) as (Hidx & Hnd & Hin).
  pose proof (bo_full g tl Hb idx Hidx) as Hfull.
  unfold propagate in H. unfold bind at 1 in H.
  destruct (getCell g fuel idx s) as [[c0|e|] sA] eqn:Eg; try discriminate.
  destruct (getCell_core g tl fuel Hb _ done idx idx s c0 sA Hc Hidx Hnd
              (or_intror Hin) Eg) as (HcA & HcarA & Hc0 & EcsA & EhpA).
  unfold bind at 1, gets at 1 in H.
  assert (Ec : the_cell idx sA = c0) by (unfold the_cell; now rewrite Hc0).
  rewrite Ec in H.
  destruct (applyConstraints (fullyConnected g idx) c0) as [c' [[aW aC]|]] eqn:Ea.
  2:{ unfold bind at 1 in H. destruct (update_cell idx (fun _ => c') sA) as [[[]|?|] ?];
        discriminate. }
  pose proof (round_targets done idx s c0 c' aW aC Hc Hf sA HcA Hc0 Ea) as Hopen.
  destruct (pi_cells g tl _ done sA HcA idx c0 Hc0) as (_ & Hs0 & He0).
  destruct (applied (fullyConnected g idx) c0 c' aW aC Hfull Hs0 Ea)
    as (Hs' & Ep' & Hne' & Ew' & Ecn' & HaW & HaC & _ & _ & Kw & Kc).
  unfold bind at 1, update_cell at 1, modify at 1 in H. rewrite Hc0 in H.
  set (sB := set_unsolved (map_set idx c' (unsolved sA)) sA) in *.
  assert (HcB : pass_core g tl (pending_walls idx aW aC (DIRECTIONS g)) done sB).
  { destruct HcA as [H1 H2 H3 H4 H5].
    destruct (cells_update g settled_marks (pending_walls idx aW aC (DIRECTIONS g))
                done (unsolved sA) (map_set idx c' (unsolved sA)) idx c' H3 H4 H5)
      as (C1 & C2 & C3 & C4); auto.
    - intros k Hk. now apply map_get_set_other.
    - apply map_get_set_same.
    - intros Hem. destruct (He0 Hem) as [E0 F0].
      destruct (applied_empty _ _ _ _ _ Hfull Hs0 Ea E0 F0) as (_ & A2 & A3). auto.
    - intros c1 Hc1 d Hd. assert (c1 = c0) by congruence. subst c1.
      now apply (claimed_keeps c0 c').
    - intros k d [].
    - intros d n e Hd Hcl Hn Ho.
      destruct (dir_bit g tl Hb d Hd) as (k & Hk & ->).
      destruct (applied_bits _ c0 c' aW aC k Hfull Hs0 Ea Hk) as (_ & B2 & _ & _).
      destruct (B2 Hcl) as [Hold|[Hw|Hcn]].
      + left. exists c0. auto.
      + right. left. split; auto.
      + right. left. split; auto.
    - constructor; auto. }
  assert (HdB : delta_claimed g idx aW aC sB).
  { exists c'. split; [apply map_get_set_same|].
    intros d Hd Hbits. destruct (dir_bit g tl Hb d Hd) as (k & Hk & ->).
    now apply (applied_bits _ c0 c' aW aC k Hfull Hs0 Ea Hk). }
  assert (HsB : components_sound g done (components sB) (heap sB)).
  { cbn [components heap sB set_unsolved]. now rewrite EcsA, EhpA. }
  assert (HpB : forall cf sF, carried idx sB sF -> map_get idx (unsolved sF) = Some cf ->
            set_size (possible cf) = 1 ->
            forall d n, In d (DIRECTIONS g) -> find_neighbour g idx d = (n, false) ->
              claimed cf d).
  { intros cf sF (Hgrow & Hposs & _) Hcf Hsize d n Hd Hn.
    destruct (Hposs c' (map_get_set_same _ _ _)) as (cf' & Hcf' & Epf).
    assert (cf' = cf) by congruence. subst cf'.
    destruct (Hgrow idx c' (map_get_set_same _ _ _)) as (cf' & Hcf'' & Hgr).
    assert (cf' = cf) by congruence. subst cf'.
    apply Hgr.
    destruct (bo_edge g tl Hb idx d n Hidx Hd Hn) as (_ & _ & Hfd & _).
    destruct (dir_bit g tl Hb d Hd) as (k & Hk & ->).
    rewrite Epf in Hsize. unfold set_size in Hsize.
    destruct (possible c') as [|o [|o' rest]] eqn:Epc; simpl in Hsize; try lia.
    apply (applied_final (fullyConnected g idx) c0 c' aW aC o k); auto; try lia.
    apply full_bit; auto; lia. }
  clearbody sB.
  (* the component of the cell *)
  unfold bind at 1, gets at 1 in H.
  unfold bind at 1 in H.
  destruct ((if (0 <? aC) && negb (map_has idx (components sB))
             then r <- heap_alloc [idx] ;;
                  modify (fun s => set_components (map_set idx r (components s)) s)
             else ret tt) sB) as [[[]|e|] sC] eqn:Eal; try discriminate.
  assert (HC : pass_core g tl (pending_walls idx aW aC (DIRECTIONS g)) done sC
               /\ components_sound g done (components sC) (heap sC)
               /\ carried idx sB sC).
  { destruct ((0 <? aC) && negb (map_has idx (components sB))) eqn:Eif.
    2:{ injection Eal as <-. split; auto. split; auto. apply carried_refl. }
    apply andb_true_iff in Eif. destruct Eif as [EaC Ehas].
    monad_unfold_in Eal. injection Eal as <-.
    split; [|split].
    - eapply core_frame; [| | |exact HcB]; reflexivity.
    - cbn [components heap set_components set_heap].
      apply comp_alloc; auto.
      + unfold map_has in Ehas. destruct (map_get idx (components sB)); auto.
        discriminate.
      + intros Hem. destruct (He0 Hem) as [E0 F0].
        destruct (applied_empty _ _ _ _ _ Hfull Hs0 Ea E0 F0) as (A1 & _).
        subst aC. discriminate.
    - split; [now apply marks_grow_same|]. split.
      + intros c Hcc. exists c. auto.
      + intros r Hr. unfold map_has in Ehas. cbn [components set_components set_heap] in *.
        rewrite Hr in Ehas. discriminate. }
  destruct HC as (HcC & HsC & HcarC).
  (* the walls *)
  unfold bind at 1 in H.
  destruct ((if 0 <? aW then propagate_walls g fuel idx aW else ret tt) sC)
    as [[[]|e|] sD] eqn:Ewl; try discriminate.
  assert (HD : pass_core g tl (pending_connections idx aC (DIRECTIONS g)) done sD
               /\ components_sound g done (components sD) (heap sD)
               /\ delta_claimed g idx aW aC sD
               /\ carried idx sC sD).
  { assert (HdC : delta_claimed g idx aW aC sC)
      by (eapply delta_claimed_grow; [exact (proj1 HcarC)|exact HdB]).
    destruct (0 <? aW) eqn:EW.
    - destruct (walls_loop g tl fuel Hb done idx aW aC Hidx Hopen (DIRECTIONS g) sC sD
                  (bo_nodup g tl Hb) (incl_refl _) HcC HdC Ewl)
        as (W1 & W2 & W3 & W4 & W5).
      split; [|split; [|split]]; auto.
      + apply (core_weaken _ _ done sD W1).
        intros i d Hd (-> & [[[] _]|Hcn]). split; auto.
      + now rewrite W4, W5.
    - injection Ewl as <-. apply not_positive in EW; auto. subst aW.
      split; [|split; [|split]]; auto; [|apply carried_refl].
      apply (core_weaken _ _ done sC HcC).
      intros i d Hd (-> & [[_ Hw]|Hcn]).
      + rewrite band_0_r in Hw. discriminate.
      + split; auto. }
  destruct HD as (HcD & HsD & HdD & HcarD).
  (* the connections *)
  assert (HE : pass_core g tl settled_marks done s1
               /\ components_sound g done (components s1) (heap s1)
               /\ carried idx sD s1).
  { destruct (0 <? aC) eqn:EC.
    - destruct (connections_loop g tl fuel Hb done idx aW aC Hidx Hopen (DIRECTIONS g)
                  sD s1 (bo_nodup g tl Hb) (incl_refl _) HcD HsD HdD H)
        as (W1 & W2 & W3).
      split; [|split]; auto.
      apply (core_weaken _ _ done s1 W1). intros i d Hd (_ & [] & _).
    - injection H as <-. apply not_positive in EC; auto. subst aC.
      split; [|split]; auto; [|apply carried_refl].
      apply (core_weaken _ _ done sD HcD). intros i d Hd (_ & _ & Hw).
      rewrite band_0_r in Hw. discriminate. }
  destruct HE as (HcE & HsE & HcarE).
  assert (Hcar : carried idx sB s1)
    by (eapply carried_trans; [exact HcarC|eapply carried_trans; eauto]).
  split; [split; auto|].
  destruct HdB as (cB & HcB' & _).
  destruct (proj1 Hcar idx cB HcB') as (cf & Hcf & _).
  exists cf. split; [exact Hcf|]. intros Hsize. now apply (HpB cf s1).
Qed.

(** One round, up to the next request of the consumer: the invariant holds
    again, with the cell among the final ones when its step is final *)
Lemma round done idx s st s1 :
  pass_inv g tl settled_marks done s ->
  set_first (dirty s) = Some idx ->
  processDirtyCell g fuel idx s = (Ret st, s1) ->
  step_index st = idx
  /\ pass_inv g tl settled_marks (if step_final st then idx :: done else done)
       (set_dirty (set_delete idx (dirty s1)) s1).
Proof.
  intros Hinv Hf H.
  unfold processDirtyCell in H. unfold bind at 1 in H.
  destruct (propagate g fuel idx s) as [[[]|e|] s0] eqn:Ep; try discriminate.
  destruct (propagate_round done idx s s0 Hinv Hf Ep) as ([Hc Hs] & c & Hcc & Hfin).
  pose proof (dirty_kept_first s s0 idx (keeps_propagate g fuel idx s _ s0 Ep) Hf) as Hf0.
  unfold settle in H. unfold bind at 1, gets at 1 in H.
  assert (Ec : the_cell idx s0 = c) by (unfold the_cell; now rewrite Hcc).
  rewrite Ec in H.
  destruct (set_size (possible c) =? 1) eqn:Esz.
  2:{ monad_unfold_in H. injection H as <- <-. cbn [step_index step_final].
      split; auto. destruct Hc as [H1 H2 H3 H4 H5]. split; [constructor|]; auto.
      cbn [dirty set_dirty]. now apply dirty_delete_sound. }
  apply Z.eqb_eq in Esz.
  unfold bind at 1 in H. unfold bind at 1 in H.
  destruct (leave_component idx s0) as [[[]|e|] sL] eqn:El; try discriminate.
  monad_unfold_in H. injection H as <- <-. cbn [step_index step_final].
  split; auto.
  assert (EL : tiles sL = tiles s0 /\ dirty sL = dirty s0 /\ unsolved sL = unsolved s0
               /\ components sL = components s0
               /\ heap sL = match map_get idx (components s0) with
                            | Some r => list_set r (set_delete idx (nth r (heap s0) []))
                                          (heap s0)
                            | None => heap s0
                            end).
  { unfold leave_component in El. monad_unfold_in El.
    destruct (map_get idx (components s0)) as [r|].
    - destruct (_ && _); [discriminate|]. injection El as <-. repeat split.
    - injection El as <-. repeat split. }
  destruct EL as (E1 & E2 & E3 & E4 & E5).
  destruct Hc as [H1 H2 H3 H4 H5].
  destruct (cells_final g done (unsolved s0) idx c H3 H4 H5 Hcc) as (C1 & C2 & C3).
  { intros _ d n Hd Hn. now apply (Hfin Esz d n). }
  split; [constructor|];
    cbn [tiles dirty unsolved components heap set_dirty solved_state];
    rewrite ?E1, ?E2, ?E3, ?E4, ?E5; auto.
  - now apply dirty_final_sound.
  - now apply comp_leave.
Qed.

End Round.


(* ================================================================== *)
(** ** The initial pass of [markAmbiguousTiles] *)

Lemma finals_app a b : finals (a ++ b) = finals a ++ finals b.
Proof. unfold finals. now rewrite filter_app, map_app. Qed.

Lemma finals_steps steps i : In i (finals steps) -> In i (map step_index steps).
Proof.
  unfold finals. rewrite !in_map_iff. intros (st & E & Hin).
  apply filter_In in Hin. exists st. tauto.
Qed.



Lemma toInit_left steps : forall rest i,
  In i (fold_left (fun t st => set_delete (step_index st) t) steps rest) ->
  In i rest /\ ~ In i (map step_index steps).
Proof.
  induction steps as [|st steps IH]; intros rest i H; cbn [fold_left] in H.
  { split; auto. }
  destruct (IH _ _ H) as [Hin Hni]. unfold set_delete in Hin.
  apply filter_In in Hin. destruct Hin as [Hin Hne]. split; auto.
  intros [E|Hs]; [|contradiction].
  rewrite E, Z.eqb_refl in Hne. discriminate.
Qed.

Section Pass.

Variable g : Grid.
Variable tl : list Z.
Variable fuel : nat.
Hypothesis Hb : board_ok g tl.

(** [processDirtyCells()], consumed to its end or to its throw *)
Lemma pass_loop n : forall s done steps r s',
  pass_inv g tl settled_marks done s ->
  processDirtyCells_loop g fuel n s = (steps, r, s') ->
  Forall (fun st => on_board g (step_index st)) steps
  /\ match r with
     | Ret _ => pass_inv g tl settled_marks (rev (finals steps) ++ done) s'
     | Raise _ => exists idx, on_board g idx /\ ~ In idx (rev (finals steps) ++ done)
     | Beyond => True
     end.
Proof.
  induction n as [|n IH]; intros s done steps r s' Hinv H; cbn [processDirtyCells_loop] in H.
  { injection H as <- <- <-. split; auto. }
  destruct (set_first (dirty s)) as [idx|] eqn:Ef.
  2:{ injection H as <- <- <-. split; auto. }
  destruct (first_open g tl _ done idx s (proj1 Hinv) Ef) as (Hidx & Hnd & _).
  destruct (processDirtyCell g fuel idx s) as [[st|e|] s1] eqn:Ep.
  - destruct (round g tl fuel Hb done idx s st s1 Hinv Ef Ep) as [Ei Hinv'].
    destruct (processDirtyCells_loop g fuel n _) as [[steps' r'] s3] eqn:El.
    injection H as <- <- <-.
    destruct (IH _ _ _ _ _ Hinv' El) as [Hall Hr].
    split; [constructor; auto; now rewrite Ei|].
    assert (E : rev (finals (st :: steps')) ++ done
                = rev (finals steps') ++ (if step_final st then idx :: done else done)).
    { unfold finals. cbn [filter]. destruct (step_final st); auto.
      cbn [map rev]. rewrite Ei, <- app_assoc. reflexivity. }
    rewrite E. exact Hr.
  - injection H as <- <- <-. split; auto. exists idx. auto.
  - injection H as <- <- <-. split; auto.
Qed.

(** Lines 636-642 *)
Lemma seed_step l : forall toInit s toInit' s',
  Forall (fun k => on_board g (Z.of_nat k)) l ->
  seeded g tl toInit s ->
  fold_left
    (fun acc k =>
       let '(toInit, s) := acc in
       let idx := Z.of_nat k in
       if set_has idx (emptyCells g)
       then (toInit, set_dirty (set_add idx (dirty s)) s)
       else (set_add idx toInit, s)) l (toInit, s) = (toInit', s') ->
  seeded g tl toInit' s'.
Proof.
  induction l as [|k l IH]; intros toInit s toInit' s' Hall Hs H; cbn [fold_left] in H.
  { now injection H as <- <-. }
  inversion Hall as [|? ? Hk Hall']; subst.
  destruct Hs as (S1 & S2 & S3 & S4 & S5 & S6).
  destruct (set_has (Z.of_nat k) (emptyCells g)) eqn:Ee.
  - apply (IH _ _ _ _ Hall') in H; auto.
    repeat split; auto. cbn [dirty set_dirty]. unfold set_add.
    destruct (set_has _ (dirty s)); auto.
    apply Forall_app. split; auto. constructor; auto. split; auto.
    now apply set_has_In.
  - apply (IH _ _ _ _ Hall') in H; auto.
    repeat split; auto. unfold set_add.
    destruct (set_has _ toInit); auto.
    apply Forall_app. split; auto. constructor; auto. split; auto.
    intros Hin. apply set_has_In in Hin. congruence.
Qed.

Lemma seed_seeded toInit s :
  seed g (new_Solver tl) = (toInit, s) -> seeded g tl toInit s.
Proof.
  intros H. unfold seed in H. apply (seed_step _ _ _ _ _) in H; auto.
  - apply Forall_forall. intros k Hk. apply in_seq in Hk. unfold on_board. lia.
  - repeat split; auto; constructor.
Qed.

Lemma seeded_inv toInit s : seeded g tl toInit s -> pass_inv g tl settled_marks [] s.
Proof.
  intros (S1 & S2 & S3 & S4 & S5 & S6). split; [constructor|]; auto.
  - split.
    + intros i Hi. rewrite Forall_forall in S5. destruct (S5 i Hi). auto.
    + exists (dirty s), []. rewrite app_nil_r. split; auto. split.
      * eapply Forall_impl; [|exact S5]. now intros i [_ H].
      * split; [constructor|]. intros _ i [].
  - intros i c Hi. rewrite S2 in Hi. discriminate.
  - intros i c d n e Hi. rewrite S2 in Hi. discriminate.
  - intros n d c e [].
  - rewrite S3, S4. split.
    + intros m r Hm. discriminate.
    + intros j r m Hj. discriminate.
Qed.



End Pass.



(* ================================================================== *)
(** ** Boards of an [OctaGrid] that meet the contract *)

Lemma within_255 x : within 255 x <-> 0 <= x <= 255.
Proof.
  split.
  - intros H. apply within_le; [lia|exact H].
  - intros H. split; [lia|]. change 255 with (Z.ones 8).
    rewrite Z.land_ones by lia. apply Z.mod_small. lia.
Qed.

(** [OctaGrid.rotate] keeps a tile a mask of the eight directions *)
Lemma octa_rotate_mask o i : within 255 o -> within 255 (octa_rotate o 1 i).
Proof.
  rewrite !within_255. intros H.
  assert (E : octa_rotate o 1 i = o / 2 + 128 * Z.rem o 2) by reflexivity.
  rewrite E, Z.rem_mod_nonneg by lia.
  pose proof (Z.mod_pos_bound o 2 ltac:(lia)).
  pose proof (Z.div_mod o 2 ltac:(lia)). lia.
Qed.

Lemma on_board_In g i :
  on_board g i -> In i (map Z.of_nat (seq 0 (Z.to_nat (total g)))).
Proof.
  intros [H0 H1]. apply in_map_iff. exists (Z.to_nat i). split; [lia|].
  apply in_seq. lia.
Qed.

Ltac each_index Hi :=
  apply on_board_In in Hi; vm_compute in Hi;
  repeat (destruct Hi as [<-|Hi]); [..|contradiction].

Ltac each_of Hd :=
  vm_compute in Hd; repeat (destruct Hd as [<-|Hd]); [..|contradiction].

Ltac none_of :=
  let H := fresh in
  vm_compute; intros H; repeat (destruct H as [H|H]; [discriminate H|]); exact H.

Ltac octa_board :=
  constructor;
  [ repeat constructor;
      [exists 0|exists 1|exists 2|exists 3|exists 4|exists 5|exists 6|exists 7];
      split; try lia; reflexivity
  | repeat constructor; simpl; intuition discriminate
  | let i := fresh "i" in let Hi := fresh "Hi" in
    intros i Hi; each_index Hi; vm_compute; split; congruence
  | let i := fresh "i" in let Hi := fresh "Hi" in
    intros i Hi; each_index Hi; vm_compute; split; congruence
  | let i := fresh "i" in let Hi := fresh "Hi" in
    let d := fresh "d" in let Hd := fresh "Hd" in
    let n := fresh "n" in let Hn := fresh "Hn" in
    intros i d n Hi Hd Hn; each_index Hi; each_of Hd;
      vm_compute in Hn; try discriminate Hn; injection Hn as <-;
      (split; [vm_compute; split; congruence|]);
      (split; [none_of|]);
      (split; [reflexivity|]); eexists;
      (split; [reflexivity|]); (split; [vm_compute; tauto|]);
      (split; [reflexivity|]); split; reflexivity
  | reflexivity
  | let i := fresh "i" in let Hi := fresh "Hi" in
    let t := fresh "t" in let Ht := fresh "Ht" in
    intros i t Hi Ht; each_index Hi;
      vm_compute in Ht; injection Ht as <-; vm_compute; split; congruence
  | let i := fresh "i" in let Hi := fresh "Hi" in let He := fresh "He" in
    intros i Hi He; each_index Hi;
      first [ split; reflexivity
            | exfalso; revert He; none_of ]
  | let i := fresh "i" in let Hi := fresh "Hi" in
    let o := fresh "o" in let Ho := fresh "Ho" in
    intros i o Hi Ho; apply (octa_rotate_mask o i Ho) ].

(** The board of one octagon with its dead end *)
Lemma grid11_lonely_ok : board_ok grid11 lonely_dead_end.
Proof. octa_board. Qed.


(** X3. The wrapping [OctaGrid] of two by two octagons, with an ambiguous
    layout as its tiles, meets the contract of the solver: its eight
    directions are distinct bits, [find_neighbour] leads back from every
    neighbour through the opposite direction, every tile is a mask of its
    cell and [rotate] keeps a mask of directions. *)
Lemma grid22_tree_ok : board_ok grid22 ambiguous_tree.
Proof. octa_board. Qed.



(* ================================================================== *)
(** ** Further properties of the solver and of the grid *)

(** X4. [getCell(index)] a second time returns the same cell and changes
    nothing: the first call has put the cell into [unsolved]. *)
Theorem getCell_again g fuel idx s :
  match getCell g fuel idx s with
  | (Ret c, s') =>
      map_get idx (unsolved s') = Some c /\ getCell g fuel idx s' = (Ret c, s')
  | _ => True
  end.
Proof.
  rewrite getCell_eq.
  destruct (map_get idx (unsolved s)) as [c|] eqn:E.
  { split; auto. rewrite getCell_eq, E. reflexivity. }
  destruct (new_Cell fuel (rotate g) (fullyConnected g) idx (array_get (tiles s) idx))
    as [c0|]; [|exact I].
  cbv zeta. split.
  - cbn [unsolved]. apply map_get_set_same.
  - rewrite getCell_eq. cbn [unsolved]. now rewrite map_get_set_same.
Qed.

Lemma seed_fold g l : forall t s,
  NoDup l ->
  (forall k, In k l -> ~ In (Z.of_nat k) t /\ ~ In (Z.of_nat k) (dirty s)) ->
  fold_left
    (fun acc k =>
       let '(toInit, s) := acc in
       let idx := Z.of_nat k in
       if set_has idx (emptyCells g)
       then (toInit, set_dirty (set_add idx (dirty s)) s)
       else (set_add idx toInit, s)) l (t, s)
  = (t ++ filter (fun i => negb (set_has i (emptyCells g))) (map Z.of_nat l),
     set_dirty (dirty s ++ filter (fun i => set_has i (emptyCells g)) (map Z.of_nat l)) s).
Proof.
  induction l as [|k l IH]; intros t s Hnd Hfresh; cbn [fold_left map filter].
  { rewrite !app_nil_r. now destruct s. }
  inversion Hnd as [|? ? Hk Hnd']; subst.
  destruct (Hfresh k (or_introl eq_refl)) as [Ht Hd].
  assert (Hadd : forall x (m : list Z), ~ In x m -> set_add x m = m ++ [x]).
  { intros x m Hx. unfold set_add. destruct (set_has x m) eqn:E; auto.
    apply set_has_In in E. contradiction. }
  assert (Hrest : forall k', In k' l -> Z.of_nat k' <> Z.of_nat k)
    by (intros k' Hk' E; apply Nat2Z.inj in E; now subst).
  destruct (set_has (Z.of_nat k) (emptyCells g)) eqn:Ee; cbn [negb].
  - rewrite IH; auto.
    + cbn [dirty set_dirty]. rewrite (Hadd _ _ Hd), <- app_assoc. reflexivity.
    + intros k' Hk'. destruct (Hfresh k' (or_intror Hk')) as [A B]. split; auto.
      cbn [dirty set_dirty]. rewrite (Hadd _ _ Hd). intros Hin.
      apply in_app_iff in Hin. destruct Hin as [Hin|[E|[]]]; auto.
      now apply (Hrest k' Hk').
  - rewrite IH; auto.
    + rewrite (Hadd _ _ Ht), <- app_assoc. reflexivity.
    + intros k' Hk'. destruct (Hfresh k' (or_intror Hk')) as [A B]. split; auto.
      rewrite (Hadd _ _ Ht). intros Hin.
      apply in_app_iff in Hin. destruct Hin as [Hin|[E|[]]]; auto.
      now apply (Hrest k' Hk').
Qed.

(** X5. The loop of lines 636-642 of [markAmbiguousTiles] (and 531-537 of
    [solve]), run on a new solver: [dirty] holds the empty cells of the grid
    and [toInit] the other cells, both in the order of the indices. *)
Theorem seed_sorts_the_cells g tl :
  seed g (new_Solver tl)
  = (filter (fun i => negb (set_has i (emptyCells g)))
       (map Z.of_nat (seq 0 (Z.to_nat (total g)))),
     set_dirty
       (filter (fun i => set_has i (emptyCells g))
          (map Z.of_nat (seq 0 (Z.to_nat (total g)))))
       (new_Solver tl)).
Proof.
  unfold seed. rewrite seed_fold.
  - reflexivity.
  - apply seq_NoDup.
  - intros k _. split; intros [].
Qed.

(** X6. When [applyConstraints] leaves a single orientation, every
    direction of the cell is marked in it, as a wall or as a connection:
    the cell has nothing more to learn. *)
Theorem one_orientation_marks_all full c c' aW aC o k :
  int31 full -> cell_sound full c ->
  applyConstraints full c = (c', Some (aW, aC)) ->
  possible c' = [o] -> 0 <= k -> Z.testbit full k = true ->
  Z.testbit (walls c') k = true \/ Z.testbit (connections c') k = true.
Proof.
  intros Hf Hs Ha Hp Hk Hb.
  apply claimed_bit; auto.
  eapply applied_final; eauto.
Qed.

Lemma one_orientation_marks_all_witness :
  int31 255
  /\ cell_sound 255 (mkCell 0 (Some 1) [1; 2] 2 0)
  /\ applyConstraints 255 (mkCell 0 (Some 1) [1; 2] 2 0)
     = (mkCell 0 (Some 1) [1] 254 1, Some (252, 1))
  /\ (Z.testbit 254 5 = true \/ Z.testbit 1 5 = true).
Proof.
  assert (H31 : int31 255) by (unfold int31; lia).
  assert (Hs : cell_sound 255 (mkCell 0 (Some 1) [1; 2] 2 0)).
  { split; [vm_compute; split; congruence|].
    split; [vm_compute; split; congruence|].
    split; [reflexivity|].
    repeat constructor; vm_compute; congruence. }
  split; [exact H31|]. split; [exact Hs|]. split; [reflexivity|].
  apply (one_orientation_marks_all 255 (mkCell 0 (Some 1) [1; 2] 2 0)
           (mkCell 0 (Some 1) [1] 254 1) 252 1 1 5 H31 Hs).
  - reflexivity.
  - reflexivity.
  - lia.
  - reflexivity.
Defined.

(** X7. [OctaGrid.rotate] by one step, on each of the 256 tiles: the result
    is again a tile between 0 and 255, and eight steps give the tile
    back. *)
Theorem octa_rotate_cycle :
  forallb
    (fun o =>
       (0 <=? octa_rotate o 1 0) && (octa_rotate o 1 0 <=? 255)
       && (Nat.iter 8 (fun t => octa_rotate t 1 0) o =? o))
    (map Z.of_nat (seq 0 256)) = true.
Proof. vm_compute. reflexivity. Qed.

Section Once.

Variable g : Grid.
Variable tl : list Z.
Variable fuel : nat.
Hypothesis Hb : board_ok g tl.

Lemma pass_loop_once n : forall s done steps r s',
  pass_inv g tl settled_marks done s ->
  processDirtyCells_loop g fuel n s = (steps, r, s') ->
  NoDup (finals steps) /\ forall i, In i (finals steps) -> ~ In i done.
Proof.
  induction n as [|n IH]; intros s done steps r s' Hinv H; cbn [processDirtyCells_loop] in H.
  { injection H as <- <- <-. split; [constructor|intros i []]. }
  destruct (set_first (dirty s)) as [idx|] eqn:Ef.
  2:{ injection H as <- <- <-. split; [constructor|intros i []]. }
  destruct (first_open g tl _ done idx s (proj1 Hinv) Ef) as (Hidx & Hnd & _).
  destruct (processDirtyCell g fuel idx s) as [[st|e|] s1] eqn:Ep.
  - destruct (round g tl fuel Hb done idx s st s1 Hinv Ef Ep) as [Ei Hinv'].
    destruct (processDirtyCells_loop g fuel n _) as [[steps' r'] s3] eqn:El.
    injection H as <- <- <-.
    destruct (IH _ _ _ _ _ Hinv' El) as [Hnd' Hout].
    unfold finals in *. cbn [filter]. destruct (step_final st); auto.
    cbn [map]. rewrite Ei. split.
    + constructor; auto. intros Hin. apply (Hout idx Hin). now left.
    + intros i [<-|Hin]; auto. intros Hd. apply (Hout i Hin). now right.
  - injection H as <- <- <-. split; [constructor|intros i []].
  - injection H as <- <- <-. split; [constructor|intros i []].
Qed.

Lemma init_pass_once n : forall toInit s done steps r s',
  pass_inv g tl settled_marks done s ->
  Forall (fun i => on_board g i /\ ~ In i (emptyCells g) /\ ~ In i done) toInit ->
  init_loop g fuel n toInit s = (steps, r, s') ->
  NoDup (finals steps) /\ forall i, In i (finals steps) -> ~ In i done.
Proof.
  induction n as [|n IH]; intros toInit s done steps r s' Hinv Hall H; cbn [init_loop] in H.
  { injection H as <- <- <-. split; [constructor|intros i []]. }
  destruct toInit as [|nextTile rest].
  { injection H as <- <- <-. split; [constructor|intros i []]. }
  inversion Hall as [|? ? (Hon & Hne & Hnd) Hall']; subst.
  destruct (map_has nextTile (unsolved s)).
  { eapply IH; eauto. }
  set (s1 := set_dirty (set_add nextTile (dirty s)) s) in *.
  assert (Hinv1 : pass_inv g tl settled_marks done s1).
  { destruct Hinv as [Hc Hs]. split; auto.
    apply (dirty_core g tl _ done nextTile s); auto. }
  unfold processDirtyCells in H.
  destruct (processDirtyCells_loop g fuel fuel s1) as [[steps1 r1] s2] eqn:El.
  destruct (pass_loop g tl fuel Hb fuel s1 done steps1 r1 s2 Hinv1 El) as [Hall1 Hr1].
  destruct (pass_loop_once fuel s1 done steps1 r1 s2 Hinv1 El) as [Hnd1 Hout1].
  destruct r1 as [[]|e|].
  - destruct (init_loop g fuel n _ s2) as [[steps2 r2] s3] eqn:Ei.
    injection H as <- <- <-.
    assert (Hall2 : Forall (fun i => on_board g i /\ ~ In i (emptyCells g)
                                     /\ ~ In i (rev (finals steps1) ++ done))
                      (fold_left (fun t st => set_delete (step_index st) t) steps1 rest)).
    { apply Forall_forall. intros i Hi. apply toInit_left in Hi.
      destruct Hi as [Hin Hni]. rewrite Forall_forall in Hall'.
      destruct (Hall' i Hin) as (A & B & C). split; auto. split; auto.
      intros Hd. apply in_app_iff in Hd. destruct Hd as [Hd|Hd]; [|contradiction].
      apply in_rev in Hd. now apply finals_steps in Hd. }
    destruct (IH _ _ _ _ _ _ Hr1 Hall2 Ei) as [Hnd2 Hout2].
    rewrite finals_app. split.
    + apply NoDup_app; auto. intros i Hi1 Hi2. apply (Hout2 i Hi2).
      apply in_app_iff. left. now apply in_rev in Hi1.
    + intros i Hi. apply in_app_iff in Hi. destruct Hi as [Hi|Hi]; auto.
      intros Hd. apply (Hout2 i Hi). apply in_app_iff. now right.
  - injection H as <- <- <-. auto.
  - injection H as <- <- <-. auto.
Qed.

End Once.

(** X8. In the initial pass of [markAmbiguousTiles] (lines 632-657) on a
    board that meets the contract, no cell gives a final step twice:
    [marked[step.index] = step.orientation] runs at most once for each
    index, whether the pass ends or throws. *)
Theorem initial_pass_final_once g tl fuel :
  board_ok g tl ->
  NoDup
    (finals
       (fst (fst (init_loop g fuel fuel (fst (seed g (new_Solver tl)))
                    (snd (seed g (new_Solver tl))))))).
Proof.
  intros Hb.
  destruct (seed g (new_Solver tl)) as [toInit s1] eqn:Es. cbn [fst snd].
  destruct (init_loop g fuel fuel toInit s1) as [[steps r] s'] eqn:Ei. cbn [fst].
  pose proof (seed_seeded g tl _ _ Es) as Hsd.
  apply (init_pass_once g tl fuel Hb fuel toInit s1 [] steps r s'
           (seeded_inv g tl _ _ Hsd)); auto.
  destruct Hsd as (_ & _ & _ & _ & _ & S6).
  eapply Forall_impl; [|exact S6]. intros i [A B]. auto.
Qed.

Lemma initial_pass_final_once_witness :
  board_ok grid11 lonely_dead_end
  /\ NoDup
       (finals
          (fst (fst (init_loop grid11 16 16
                       (fst (seed grid11 (new_Solver lonely_dead_end)))
                       (snd (seed grid11 (new_Solver lonely_dead_end))))))).
Proof.
  split; [exact grid11_lonely_ok|].
  apply (initial_pass_final_once grid11 lonely_dead_end 16 grid11_lonely_ok).
Defined.
